(** * Verification model of the EBS volume manager scanner core

    Shallow embedding of
    - [src/infrastructure/lib/lambda/scanner/secure-ebs-scanner.ts]
      (scan handler, credential validation, external-id generation, role
      assumption, region scanning, volume upsert), and
    - [src/infrastructure/lib/lambda/utils/db-connection.ts]
      (the tenant-aware connection wrapper: [queryWithTenant] and
      [transactionWithTenant]).

    Strings are Rocq byte strings; identifiers are ASCII, for which the
    UTF-8 encoding used by Node's [crypto] coincides with the byte string. *)

From Stdlib Require Import ZArith QArith Qminmax String Ascii List Bool Lia.
Import ListNotations.
Open Scope string_scope.
Open Scope list_scope.
Open Scope Z_scope.

(* ------------------------------------------------------------------ *)
(** ** Node's [crypto.createHmac('sha256', key)] : SHA-256 (FIPS 180-4) and
    HMAC (RFC 2104), over bytes represented as [Z] in [0, 256). *)

Module Sha256.

Definition add32 (x y : Z) : Z := (x + y) mod 2 ^ 32.

Definition rotr (n x : Z) : Z :=
  Z.lor (Z.shiftr x n) (Z.shiftl x (32 - n) mod 2 ^ 32).

Definition shr (n x : Z) : Z := Z.shiftr x n.

Definition ch (x y z : Z) : Z :=
  Z.lxor (Z.land x y) (Z.land (Z.lxor x (2 ^ 32 - 1)) z).

Definition maj (x y z : Z) : Z :=
  Z.lxor (Z.lxor (Z.land x y) (Z.land x z)) (Z.land y z).

Definition big_sigma0 (x : Z) : Z := Z.lxor (Z.lxor (rotr 2 x) (rotr 13 x)) (rotr 22 x).
Definition big_sigma1 (x : Z) : Z := Z.lxor (Z.lxor (rotr 6 x) (rotr 11 x)) (rotr 25 x).
Definition small_sigma0 (x : Z) : Z := Z.lxor (Z.lxor (rotr 7 x) (rotr 18 x)) (shr 3 x).
Definition small_sigma1 (x : Z) : Z := Z.lxor (Z.lxor (rotr 17 x) (rotr 19 x)) (shr 10 x).

(** The first 64 primes; the round constants and the initial hash value
    are derived from them as in FIPS 180-4, sections 4.2.2 and 5.3.3. *)
Definition first_primes : list Z :=
  [2;3;5;7;11;13;17;19;23;29;31;37;41;43;47;53;59;61;67;71;73;79;83;89;97;
   101;103;107;109;113;127;131;137;139;149;151;157;163;167;173;179;181;191;
   193;197;199;211;223;227;229;233;239;241;251;257;263;269;271;277;281;283;
   293;307;311].

(** Integer cube root by bisection: the largest [r] in [lo, hi) with
    [r^3 <= n]. *)
Fixpoint icbrt_aux (fuel : nat) (n lo hi : Z) : Z :=
  match fuel with
  | O => lo
  | S f =>
      if hi - lo <=? 1 then lo
      else let mid := (lo + hi) / 2 in
           if mid * mid * mid <=? n then icbrt_aux f n mid hi
           else icbrt_aux f n lo mid
  end.

Definition icbrt (n : Z) : Z := icbrt_aux 64 n 0 (2 ^ 40).

(** First 32 bits of the fractional part of the cube root of each prime. *)
Definition round_constants : list Z :=
  map (fun p => icbrt (p * 2 ^ 96) mod 2 ^ 32) first_primes.

(** First 32 bits of the fractional part of the square root of the first
    eight primes. *)
Definition initial_hash : list Z :=
  map (fun p => Z.sqrt (p * 2 ^ 64) mod 2 ^ 32) (firstn 8 first_primes).

(** Big-endian encoding of a number on [n] bytes. *)
Fixpoint be_bytes (n : nat) (x : Z) : list Z :=
  match n with
  | O => []
  | S m => be_bytes m (x / 256) ++ [x mod 256]
  end.

(** Padding (section 5.1.1): a one bit, zeros, and the bit length. *)
Definition pad (msg : list Z) : list Z :=
  let l := Z.of_nat (length msg) in
  let k := (119 - l mod 64) mod 64 in
  msg ++ [128] ++ repeat 0 (Z.to_nat k) ++ be_bytes 8 (8 * l).

Fixpoint chunks_aux (fuel n : nat) (l : list Z) : list (list Z) :=
  match fuel with
  | O => []
  | S f =>
      match l with
      | [] => []
      | _ => firstn n l :: chunks_aux f n (skipn n l)
      end
  end.

Definition chunks (n : nat) (l : list Z) : list (list Z) :=
  chunks_aux (length l) n l.

Definition be_word (b : list Z) : Z :=
  fold_left (fun acc x => acc * 256 + x) b 0.

(** Message schedule: the 16 block words followed by 48 derived words;
    [win] holds the last 16 words, oldest first. *)
Fixpoint schedule_ext (fuel : nat) (win : list Z) : list Z :=
  match fuel with
  | O => []
  | S f =>
      let wn := add32 (add32 (small_sigma1 (nth 14 win 0)) (nth 9 win 0))
                      (add32 (small_sigma0 (nth 1 win 0)) (nth 0 win 0)) in
      wn :: schedule_ext f (tl win ++ [wn])
  end.

Definition schedule (block : list Z) : list Z :=
  let ws := map be_word (chunks 4 block) in
  ws ++ schedule_ext 48 ws.

(** One compression round on the working variables [a..h]. *)
Definition round (s : list Z) (kw : Z * Z) : list Z :=
  match s with
  | [a; b; c; d; e; f; g; h] =>
      let t1 := add32 (add32 (add32 (add32 h (big_sigma1 e)) (ch e f g)) (fst kw)) (snd kw) in
      let t2 := add32 (big_sigma0 a) (maj a b c) in
      [add32 t1 t2; a; b; c; add32 d t1; e; f; g]
  | _ => s
  end.

Definition compress (hv : list Z) (block : list Z) : list Z :=
  let s := fold_left round (combine round_constants (schedule block)) hv in
  map (fun p => add32 (fst p) (snd p)) (combine hv s).

Definition digest (msg : list Z) : list Z :=
  flat_map (be_bytes 4) (fold_left compress (chunks 64 (pad msg)) initial_hash).

(** HMAC with a 64-byte block size. *)
Definition hmac (key msg : list Z) : list Z :=
  let k0 := if (64 <? length key)%nat then digest key else key in
  let k := k0 ++ repeat 0 (64 - length k0) in
  digest (map (Z.lxor 92) k ++ digest (map (Z.lxor 54) k ++ msg)).

End Sha256.

(** Bytes of a string, and the lowercase hexadecimal rendering used by
    [digest('hex')]. *)
Definition bytes_of_string (s : string) : list Z :=
  map (fun c => Z.of_nat (nat_of_ascii c)) (list_ascii_of_string s).

Definition hex_char (n : Z) : ascii :=
  ascii_of_nat (Z.to_nat (if n <? 10 then 48 + n else 87 + n)).

Definition hex_of_bytes (b : list Z) : string :=
  string_of_list_ascii (flat_map (fun x => [hex_char (x / 16); hex_char (x mod 16)]) b).

Definition hmac_sha256_hex (key msg : string) : string :=
  hex_of_bytes (Sha256.hmac (bytes_of_string key) (bytes_of_string msg)).

(* ------------------------------------------------------------------ *)
(** ** [generateExternalId] *)

(** [process.env.EXTERNAL_ID_SECRET || 'default-secret']: an unset or
    empty variable falls back to the default. *)
Definition external_id_secret (env_secret : option string) : string :=
  match env_secret with
  | Some s => if String.eqb s "" then "default-secret" else s
  | None => "default-secret"
  end.

(** [crypto.createHmac('sha256', secret).update(`${tenantId}:${accountId}`)
      .digest('hex').substring(0, 32)] *)
Definition generateExternalId (env_secret : option string)
    (tenantId accountId : string) : string :=
  substring 0 32
    (hmac_sha256_hex (external_id_secret env_secret) (tenantId ++ ":" ++ accountId)%string).

(** The alphabet of [digest('hex')]. *)
Definition is_hex_char (c : ascii) : bool :=
  let n := nat_of_ascii c in
  ((48 <=? n) && (n <=? 57))%nat || ((97 <=? n) && (n <=? 102))%nat.

(* ------------------------------------------------------------------ *)
(** ** The role ARN pattern of [assumeRoleSecurely]

    [/^arn:aws:iam::\d{12}:role\/EBSVolumeManager-CustomerRole$/], a
    JavaScript regular expression without flags: [^] and [$] anchor at the
    start and end of the whole input and [\d] is [[0-9]].  The matcher is
    the usual continuation-passing backtracking matcher. *)

Inductive regex : Type :=
| RChar (c : ascii)
| RDigit
| RSeq (r1 r2 : regex)
| RRepeat (n : nat) (r : regex)
| REmpty.

Definition is_digit (c : ascii) : bool :=
  let n := nat_of_ascii c in ((48 <=? n) && (n <=? 57))%nat.

Fixpoint regex_match (r : regex) (s : list ascii) (k : list ascii -> bool) : bool :=
  match r with
  | RChar c => match s with x :: s' => Ascii.eqb x c && k s' | [] => false end
  | RDigit => match s with x :: s' => is_digit x && k s' | [] => false end
  | RSeq r1 r2 => regex_match r1 s (fun s' => regex_match r2 s' k)
  | RRepeat n r1 =>
      (fix rep (n : nat) (s : list ascii) : bool :=
         match n with
         | O => k s
         | S m => regex_match r1 s (fun s' => rep m s')
         end) n s
  | REmpty => k s
  end.

(** A literal string as a sequence of characters. *)
Fixpoint regex_lit (s : string) : regex :=
  match s with
  | EmptyString => REmpty
  | String c s' => RSeq (RChar c) (regex_lit s')
  end.

(** [RegExp.prototype.test] for a pattern anchored by [^] and [$]. *)
Definition regex_test_anchored (r : regex) (s : string) : bool :=
  regex_match r (list_ascii_of_string s) (fun rest => match rest with [] => true | _ => false end).

Definition roleArnPattern : regex :=
  RSeq (regex_lit "arn:aws:iam::")
       (RSeq (RRepeat 12 RDigit) (regex_lit ":role/EBSVolumeManager-CustomerRole")).

(** The allow-listed shape: a fixed prefix, a 12-digit account, and the
    fixed role name. *)
Definition arn_conforms (arn : string) : Prop :=
  exists account : string,
    String.length account = 12%nat /\
    Forall (fun c => is_digit c = true) (list_ascii_of_string account) /\
    arn = ("arn:aws:iam::" ++ account ++ ":role/EBSVolumeManager-CustomerRole")%string.

(** Outcome of an awaited promise: its value, or a rejection carrying the
    error's [message]. *)
Inductive result (A : Type) : Type :=
| Ok (a : A)
| Err (message : string).
Arguments Ok {A} a.
Arguments Err {A} message.

(* ------------------------------------------------------------------ *)
(** ** [TenantAwareDbConnection] (db-connection.ts)

    The pool hands out clients (connections, numbered); each has a
    PostgreSQL session whose [app.current_tenant_id] setting is what the
    row-level security policies read.  [set_config(..., false)] inside a
    transaction is undone by [ROLLBACK], so the session also remembers the
    setting at [BEGIN]. *)

Module Db.

Inductive stmt : Type :=
| SetTenant (tenant : string)   (* SELECT set_config('app.current_tenant_id', $2, false) *)
| ResetTenant                   (* SELECT set_config('app.current_tenant_id', '', false) *)
| Begin
| Commit
| Rollback
| Data (query : string).        (* the caller's statement *)

(** A server session: the value of [app.current_tenant_id], the value it
    had at [BEGIN] while a transaction block is open, and whether that
    transaction has failed ("aborted"). *)
Record Session := {
  current_tenant : string;
  saved_at_begin : option string;
  aborted : bool
}.

Definition fresh_session : Session :=
  {| current_tenant := ""; saved_at_begin := None; aborted := false |}.

(** Ending the open transaction by a rollback restores the setting saved
    at [BEGIN] ([set_config] with [is_local = false] is undone with the
    transaction). *)
Definition rolled_back (ss : Session) : Session :=
  match saved_at_begin ss with
  | Some t0 => {| current_tenant := t0; saved_at_begin := None; aborted := false |}
  | None => ss
  end.

(** The effect of a statement that succeeds.  [BEGIN] inside a
    transaction block, and [COMMIT] or [ROLLBACK] outside one, only warn.
    [COMMIT] of an aborted transaction performs a rollback: the server
    answers with the command tag [ROLLBACK], not with an error. *)
Definition apply_stmt (st : stmt) (ss : Session) : Session :=
  match st with
  | SetTenant t => {| current_tenant := t; saved_at_begin := saved_at_begin ss; aborted := aborted ss |}
  | ResetTenant => {| current_tenant := ""; saved_at_begin := saved_at_begin ss; aborted := aborted ss |}
  | Begin =>
      match saved_at_begin ss with
      | Some _ => ss
      | None => {| current_tenant := current_tenant ss; saved_at_begin := Some (current_tenant ss);
                   aborted := false |}
      end
  | Commit =>
      if aborted ss then rolled_back ss
      else {| current_tenant := current_tenant ss; saved_at_begin := None; aborted := false |}
  | Rollback => rolled_back ss
  | Data _ => ss
  end.

(** A failing statement inside a transaction block aborts the
    transaction; outside one it has no effect. *)
Definition fail_data (ss : Session) : Session :=
  match saved_at_begin ss with
  | Some t0 => {| current_tenant := current_tenant ss; saved_at_begin := Some t0; aborted := true |}
  | None => ss
  end.

(** The effect of a statement that fails: a failing [COMMIT] or
    [ROLLBACK] still ends the transaction, as a rollback. *)
Definition fail_stmt (st : stmt) (ss : Session) : Session :=
  match st with
  | Commit | Rollback => rolled_back ss
  | _ => fail_data ss
  end.

(** In an aborted transaction the server refuses every statement but
    [COMMIT] and [ROLLBACK], without running it. *)
Definition accepts (ss : Session) (st : stmt) : bool :=
  negb (aborted ss) || match st with Commit | Rollback => true | _ => false end.

Definition aborted_error : string :=
  "current transaction is aborted, commands ignored until end of transaction block".

(** What happens on the wire: a client is acquired, a statement runs on a
    client (with the tenant setting it saw, and whether it succeeded), a
    client is released to the pool. *)
Inductive event : Type :=
| Acquire (c : nat)
| Exec (c : nat) (st : stmt) (seen_tenant : string) (ok : bool)
| Release (c : nat).

Record DbState := {
  pool_created : bool;            (* [this.pool !== null] *)
  sessions : nat -> Session;      (* session of each client *)
  idle : list nat;                (* idle clients of the pool, last released first *)
  next_conn : nat;                (* number of the next new client *)
  log : list event
}.

(** Requests to the server, answered by the environment. *)
Inductive request : Type :=
| OpConnect
| OpExec (st : stmt).

Definition DM (A : Type) : Type := DbState -> result A * DbState.

Definition dret {A} (a : A) : DM A := fun s => (Ok a, s).

Definition dbind {A B} (m : DM A) (f : A -> DM B) : DM B :=
  fun s => match m s with
           | (Ok a, s1) => f a s1
           | (Err e, s1) => (Err e, s1)
           end.

Definition dthrow {A} (e : string) : DM A := fun s => (Err e, s).

(** [try { m } catch (error) { handler(error) }] *)
Definition dcatch {A} (m : DM A) (handler : string -> DM A) : DM A :=
  fun s => match m s with
           | (Err e, s1) => handler e s1
           | r => r
           end.

(** [try { m } finally { fin }]: a throwing [finally] block replaces the
    outcome of [m]. *)
Definition dfinally {A} (m : DM A) (fin : DM unit) : DM A :=
  fun s => match m s with
           | (r, s1) =>
               match fin s1 with
               | (Ok _, s2) => (r, s2)
               | (Err e, s2) => (Err e, s2)
               end
           end.

Notation "x <-- m ;; k" := (dbind m (fun x => k))
  (at level 61, m at next level, right associativity).

(** The body handed to [transactionWithTenant]: it sends statements
    through the client and continues with their outcome, and finally
    returns or throws. *)
Inductive Body : Type :=
| BReturn (v : list string)
| BThrow (e : string)
| BQuery (query : string) (k : result (list string) -> Body).

Section Connection.
Variable answer : list event -> request -> result (list string).

(** [getPool()]: the pool is created on first use, through an unqualified
    call [getCredentials()] that names no binding in scope (the method is
    [this.getCredentials]), which throws a [ReferenceError]. *)
Definition getPool : DM unit :=
  fun s => if pool_created s then (Ok tt, s)
           else (Err "getCredentials is not defined", s).

(** [pool.connect()]: the most recently released idle client, or a new one. *)
Definition connect : DM nat :=
  fun s =>
    match answer (log s) OpConnect with
    | Err e => (Err e, s)
    | Ok _ =>
        match idle s with
        | c :: rest =>
            (Ok c, {| pool_created := pool_created s; sessions := sessions s; idle := rest;
                      next_conn := next_conn s; log := log s ++ [Acquire c] |})
        | [] =>
            let c := next_conn s in
            (Ok c, {| pool_created := pool_created s;
                      sessions := fun n => if Nat.eqb n c then fresh_session else sessions s n;
                      idle := []; next_conn := S c; log := log s ++ [Acquire c] |})
        end
    end.

(** [client.query(st)] *)
Definition exec (c : nat) (st : stmt) : DM (list string) :=
  fun s =>
    let seen := current_tenant (sessions s c) in
    let outcome := if accepts (sessions s c) st then answer (log s) (OpExec st)
                   else Err aborted_error in
    match outcome with
    | Ok rows =>
        (Ok rows, {| pool_created := pool_created s;
                     sessions := fun n => if Nat.eqb n c then apply_stmt st (sessions s c)
                                          else sessions s n;
                     idle := idle s; next_conn := next_conn s;
                     log := log s ++ [Exec c st seen true] |})
    | Err e =>
        (Err e, {| pool_created := pool_created s;
                   sessions := fun n => if Nat.eqb n c then fail_stmt st (sessions s c)
                                        else sessions s n;
                   idle := idle s; next_conn := next_conn s;
                   log := log s ++ [Exec c st seen false] |})
    end.

(** [client.release()] *)
Definition release (c : nat) : DM unit :=
  fun s => (Ok tt, {| pool_created := pool_created s; sessions := sessions s; idle := c :: idle s;
                      next_conn := next_conn s; log := log s ++ [Release c] |}).

Fixpoint run_body (c : nat) (b : Body) : DM (list string) :=
  match b with
  | BReturn v => dret v
  | BThrow e => dthrow e
  | BQuery q k => fun s => match exec c (Data q) s with (r, s1) => run_body c (k r) s1 end
  end.

(** The [finally] block of both wrappers. *)
Definition reset_and_release (client : nat) : DM unit :=
  _ <-- exec client ResetTenant ;; release client.

(** The [try] block of [queryWithTenant]. *)
Definition query_try (client : nat) (tenantId query : string) : DM (list string) :=
  _ <-- exec client (SetTenant tenantId) ;;
  exec client (Data query).

Definition queryWithTenant (tenantId query : string) : DM (list string) :=
  _ <-- getPool ;;
  client <-- connect ;;
  dfinally (query_try client tenantId query) (reset_and_release client).

(** The [try] block of [transactionWithTenant]. *)
Definition transaction_try (client : nat) (tenantId : string) (body : Body) : DM (list string) :=
  _ <-- exec client Begin ;;
  _ <-- exec client (SetTenant tenantId) ;;
  result <-- run_body client body ;;
  _ <-- exec client Commit ;;
  dret result.

Definition transactionWithTenant (tenantId : string) (body : Body) : DM (list string) :=
  _ <-- getPool ;;
  client <-- connect ;;
  dfinally
    (dcatch (transaction_try client tenantId body)
       (fun error => _ <-- exec client Rollback ;; dthrow error))
    (reset_and_release client).

End Connection.

(** The pool's bookkeeping is sound and every idle client carries an
    empty tenant setting. *)
Definition pool_clean (s : DbState) : Prop :=
  NoDup (idle s) /\
  forall c, In c (idle s) -> (c < next_conn s)%nat /\ current_tenant (sessions s c) = "".

(** No idle client is inside a transaction block. *)
Definition idle_outside_transactions (s : DbState) : Prop :=
  forall c, In c (idle s) -> saved_at_begin (sessions s c) = None.

(** Whether a statement succeeded. *)
Definition event_ok (e : event) : bool :=
  match e with Exec _ _ _ ok => ok | _ => true end.

(** A statement on client [c]. *)
Definition on_client (c : nat) (e : event) : Prop :=
  exists st seen ok, e = Exec c st seen ok.

Definition is_data_event (e : event) : bool :=
  match e with Exec _ (Data _) _ _ => true | _ => false end.

(** Every data statement among [evs] ran with tenant setting [t]. *)
Definition data_sees (t : string) (evs : list event) : Prop :=
  forall c q seen ok, In (Exec c (Data q) seen ok) evs -> seen = t.

(** The reset runs on [c], and [c] goes back to the pool right after it
    when (and only when) the reset succeeded. *)
Definition reset_then_release (c : nat) (tail : list event) : Prop :=
  exists seen okr, tail = Exec c ResetTenant seen okr :: (if okr then [Release c] else []).

(** The events of one call of a tenant wrapper for tenant [t]: nothing,
    or a client acquired, statements on that client only (every data
    statement seeing [t]), then the reset and the release. *)
Definition one_call (t : string) (ev : list event) : Prop :=
  ev = [] \/
  exists c mid tail,
    ev = Acquire c :: mid ++ tail /\ Forall (on_client c) mid /\ data_sees t mid /\
    reset_then_release c tail.

(** The body of a transaction throws [e] when it runs after [BEGIN] and
    the tenant binding succeeded on client [c] from state [s0]. *)
Definition body_throws (answer : list event -> request -> result (list string))
    (c : nat) (t : string) (body : Body) (s0 : DbState) (e : string) : Prop :=
  exists r1 s1 r2 s2 s3,
    exec answer c Begin s0 = (Ok r1, s1) /\
    exec answer c (SetTenant t) s1 = (Ok r2, s2) /\
    run_body answer c body s2 = (Err e, s3).

(** Code working on client [c] leaves the pool and the other sessions
    alone. *)
Definition client_frame (c : nat) (s s' : DbState) : Prop :=
  pool_created s' = pool_created s /\ idle s' = idle s /\ next_conn s' = next_conn s /\
  forall n, n <> c -> sessions s' n = sessions s n.

(** The pool while client [c] is checked out by the running call. *)
Definition held (c : nat) (s : DbState) : Prop :=
  NoDup (idle s) /\ ~ In c (idle s) /\ (c < next_conn s)%nat /\
  forall n, In n (idle s) -> (n < next_conn s)%nat /\ current_tenant (sessions s n) = "".

Definition no_data_statement (evs : list event) : Prop :=
  Forall (fun e => is_data_event e = false) evs.

(** [close()]: when the pool exists, [await this.pool.end()] (whose outcome
    is [ended]) and then [this.pool = null]; the ended pool's idle clients
    are gone with it.  A rejecting [end] leaves the pool in place. *)
Definition close (ended : result unit) : DM unit :=
  fun s =>
    if pool_created s then
      match ended with
      | Ok _ => (Ok tt, {| pool_created := false; sessions := sessions s; idle := [];
                           next_conn := next_conn s; log := log s |})
      | Err e => (Err e, s)
      end
    else (Ok tt, s).

(** The public methods called on the connection, one after the other. *)
Inductive db_call : Type :=
| DQuery (tenantId query : string)
| DTransaction (tenantId : string) (body : Body)
| DClose (ended : result unit).

Definition is_close (c : db_call) : bool :=
  match c with DClose _ => true | _ => false end.

(** A call of [close] resolves with no rows. *)
Definition run_db_call (answer : list event -> request -> result (list string))
    (c : db_call) : DM (list string) :=
  match c with
  | DQuery t q => queryWithTenant answer t q
  | DTransaction t body => transactionWithTenant answer t body
  | DClose ended => _ <-- close ended ;; dret []
  end.

(** The outcome of each call, each caller handling its own rejection. *)
Fixpoint run_db_calls (answer : list event -> request -> result (list string))
    (cs : list db_call) (s : DbState) : list (result (list string)) * DbState :=
  match cs with
  | [] => ([], s)
  | c :: rest =>
      let (r, s1) := run_db_call answer c s in
      let (rs, s2) := run_db_calls answer rest s1 in
      (r :: rs, s2)
  end.

(** The module's singleton [db = new TenantAwareDbConnection()]: no pool. *)
Definition db_singleton : DbState := {|
  pool_created := false; sessions := fun _ => fresh_session; idle := [];
  next_conn := 0; log := []
|}.

(** *** [getCredentials()]

    The credentials object it builds; [host] is
    [process.env.DB_PROXY_ENDPOINT!], [username] and [password] are read
    off the parsed secret (absent when the JSON has no such field). *)
Record DbCredentials := {
  username : option string;
  password : option string;
  host : option string;
  port : Z;
  database : string
}.

(** The fields [secret.username] and [secret.password] of
    [JSON.parse(response.SecretString)]. *)
Record SecretFields := {
  secret_username : option string;
  secret_password : option string
}.

(** The module variable [cachedCredentials], and the number of
    [GetSecretValueCommand] requests sent so far. *)
Record CredCache := {
  cachedCredentials : option DbCredentials;
  secret_requests : nat
}.

Section Credentials.
(** The [n]-th request resolves with [response.SecretString] (absent or a
    string) or rejects. *)
Variable send_secret : nat -> result (option string).
(** [JSON.parse] of the secret string, throwing on text that is not a JSON
    object. *)
Variable parse_secret : string -> result SecretFields.
Variable db_proxy_endpoint : option string.

Definition getCredentials (cache : CredCache) : result DbCredentials * CredCache :=
  match cachedCredentials cache with
  | Some c => (Ok c, cache)
  | None =>
      let n := secret_requests cache in
      let sent := {| cachedCredentials := None; secret_requests := S n |} in
      match send_secret n with
      | Err e => (Err e, sent)
      | Ok None => (Err "Database credentials not found", sent)
      | Ok (Some secretString) =>
          if String.eqb secretString "" then (Err "Database credentials not found", sent)
          else
            match parse_secret secretString with
            | Err e => (Err e, sent)
            | Ok secret =>
                let c := {| host := db_proxy_endpoint; port := 5432; database := "ebsmanager";
                            username := secret_username secret;
                            password := secret_password secret |} in
                (Ok c, {| cachedCredentials := Some c; secret_requests := S n |})
            end
      end
  end.

End Credentials.

End Db.
Import Db.

(* ------------------------------------------------------------------ *)
(** ** Data of the scanner *)


(** The SQS message body ([interface ScanRequest]). *)
Record ScanRequest := {
  scanId : string;
  tenantId : string;
  accountId : string;
  roleArn : string;
  externalId : string;
  regions : list string
}.

(** A row of [SELECT id, role_arn, external_id, is_active FROM aws_accounts];
    [is_active] is a nullable column. *)
Record AccountRow := {
  row_id : string;
  role_arn : string;
  external_id : string;
  is_active : option bool
}.

(** [response.Credentials] of [AssumeRoleCommand]. *)
Record Credentials := {
  AccessKeyId : option string;
  SecretAccessKey : option string;
  SessionToken : option string
}.

Record Attachment := {
  InstanceId : option string;
  Device : option string;
  AttachTime : option Z
}.

(** The SDK's [Volume] shape of [DescribeVolumes]: every field optional;
    times are epoch milliseconds. *)
Record Ec2Volume := {
  VolumeId : option string;
  Size : option Z;
  VolumeType : option string;
  State : option string;
  Encrypted : option bool;
  KmsKeyId : option string;
  AvailabilityZone : option string;
  CreateTime : option Z;
  Iops : option Z;
  Throughput : option Z;
  Attachments : option (list Attachment);
  Tags : option (list (string * string))
}.

(** The object pushed by [scanVolumesInRegion] for each volume. *)
Record VolumeRecord := {
  rec_tenantId : string;
  rec_accountInternalId : string;
  rec_volumeId : option string;
  rec_size : Z;
  rec_volumeType : string;
  rec_state : string;
  rec_encrypted : bool;
  rec_kmsKeyId : option string;
  rec_region : string;
  rec_availabilityZone : option string;
  rec_createTime : option Z;
  rec_iops : option Z;
  rec_throughput : option Z;
  rec_instanceId : option string;
  rec_device : option string;
  rec_attachTime : option Z;
  rec_costPerMonth : Q;
  rec_tags : list (string * string);
  rec_scannedAt : Z
}.

(** [metrics] of the completion update. *)
Record Metrics := {
  volumesFound : Z;
  errors : option (list string)
}.

(* ------------------------------------------------------------------ *)
(** ** Monthly cost of a volume ([scanVolumesInRegion], the [switch]) *)

(** [x || 0] on an optional number. *)
Definition or_zero (x : option Z) : Z :=
  match x with Some n => n | None => 0 end.

(** JavaScript numbers are taken as exact rationals. *)
Definition costPerMonth (volume : Ec2Volume) : Q :=
  let gbMonth := inject_Z (or_zero (Size volume)) in
  let iops := inject_Z (or_zero (Iops volume)) in
  match VolumeType volume with
  | Some t =>
      if String.eqb t "gp3" then gbMonth * (8 # 100) + Qmax 0 (iops - 3000) * (5 # 1000)
      else if String.eqb t "gp2" then gbMonth * (10 # 100)
      else if String.eqb t "io1" then gbMonth * (125 # 1000) + iops * (65 # 1000)
      else if String.eqb t "io2" then gbMonth * (125 # 1000) + iops * (65 # 1000)
      else if String.eqb t "st1" then gbMonth * (45 # 1000)
      else if String.eqb t "sc1" then gbMonth * (25 # 1000)
      else 0
  | None => 0
  end%Q.

Definition first_attachment (volume : Ec2Volume) : option Attachment :=
  match Attachments volume with
  | Some (a :: _) => Some a
  | _ => None
  end.

Definition option_bind {A B} (o : option A) (f : A -> option B) : option B :=
  match o with Some a => f a | None => None end.

(** The record pushed for one volume; [scannedAt] is the clock reading. *)
Definition normalizeVolume (tenantId accountInternalId region : string)
    (scannedAt : Z) (volume : Ec2Volume) : VolumeRecord := {|
  rec_tenantId := tenantId;
  rec_accountInternalId := accountInternalId;
  rec_volumeId := VolumeId volume;
  rec_size := or_zero (Size volume);
  rec_volumeType := match VolumeType volume with Some t => if String.eqb t "" then "unknown" else t | None => "unknown" end;
  rec_state := match State volume with Some t => if String.eqb t "" then "unknown" else t | None => "unknown" end;
  rec_encrypted := match Encrypted volume with Some b => b | None => false end;
  rec_kmsKeyId := KmsKeyId volume;
  rec_region := region;
  rec_availabilityZone := AvailabilityZone volume;
  rec_createTime := CreateTime volume;
  rec_iops := Iops volume;
  rec_throughput := Throughput volume;
  rec_instanceId := option_bind (first_attachment volume) InstanceId;
  rec_device := option_bind (first_attachment volume) Device;
  rec_attachTime := option_bind (first_attachment volume) AttachTime;
  rec_costPerMonth := costPerMonth volume;
  rec_tags := match Tags volume with Some l => l | None => [] end;
  rec_scannedAt := scannedAt
|}.

(* ------------------------------------------------------------------ *)
(** ** External calls of the scanner and their environment *)

(** The calls the scanner makes to the database wrapper and to AWS, in the
    order they are issued. *)
Inductive call : Type :=
| CQueryAccount (tenant account : string)
    (* [db.queryWithTenant(tenantId, 'SELECT id, role_arn, external_id, is_active ...', [accountId])] *)
| CQueryInternalId (tenant account : string)
    (* [db.queryWithTenant(tenantId, 'SELECT id FROM aws_accounts ...', [accountId])] *)
| CUpdateStatus (tenant scan status : string) (error : option string) (metrics : option Metrics)
    (* [db.queryWithTenant('system', 'UPDATE scan_history ...', ...)] *)
| CAssumeRole (roleArn sessionName externalId : string) (durationSeconds : Z) (actions : list string)
    (* [sts.send(new AssumeRoleCommand(...))] *)
| CDescribeVolumes (region : string)
    (* the [DescribeVolumesCommand] pages of one region *)
| CStoreVolumes (tenant accountInternalId : string) (volumes : list VolumeRecord).
    (* [db.transactionWithTenant(tenantId, ...)] running the upserts *)

Definition is_data_mutating (c : call) : bool :=
  match c with
  | CUpdateStatus _ _ _ _ _ | CStoreVolumes _ _ _ => true
  | _ => false
  end.

Definition is_role_assumption (c : call) : bool :=
  match c with CAssumeRole _ _ _ _ _ => true | _ => false end.

(** The outside world, as seen by one Lambda invocation: the outcome of
    each call may depend on everything called before it. [env_describe]
    gives the volumes of all [NextToken] pages of a region, or the
    rejection of the first failing page; [env_clock] is [new Date()]. *)
Record Env := {
  env_secret : option string;
  env_accounts : list call -> string -> string -> result (list AccountRow);
  env_internal_ids : list call -> string -> string -> result (list string);
  env_update_status : list call -> result unit;
  env_sts : list call -> result (option Credentials);
  env_describe : list call -> string -> result (list Ec2Volume);
  env_store : list call -> string -> string -> list VolumeRecord -> result unit;
  env_clock : list call -> Z
}.

(** State-and-error monad over the history of calls. *)
Definition M (A : Type) : Type := list call -> result A * list call.

Definition ret {A} (a : A) : M A := fun h => (Ok a, h).

Definition bind {A B} (m : M A) (f : A -> M B) : M B :=
  fun h => match m h with
           | (Ok a, h1) => f a h1
           | (Err e, h1) => (Err e, h1)
           end.

Definition throw {A} (e : string) : M A := fun h => (Err e, h).

(** [try { m } catch (error) { handler(error.message) }] *)
Definition catch {A} (m : M A) (handler : string -> M A) : M A :=
  fun h => match m h with
           | (Err e, h1) => handler e h1
           | r => r
           end.

(** Issue a call: its outcome is read from the environment, given the
    history before it, and the call is appended to the history. *)
Definition perform {A} (c : call) (outcome : list call -> result A) : M A :=
  fun h => (outcome h, h ++ [c]).

Notation "x <- m ;; k" := (bind m (fun x => k))
  (at level 61, m at next level, right associativity).

Section Scanner.
Variable env : Env.

Definition validateAccountOwnership (tenantId accountId roleArn externalId : string) : M bool :=
  catch
    (results <- perform (CQueryAccount tenantId accountId)
                  (fun h => env_accounts env h tenantId accountId) ;;
     match results with
     | [] => ret false
     | account :: _ =>
         if negb (match is_active account with Some b => b | None => false end) then ret false
         else if negb (String.eqb (role_arn account) roleArn) then ret false
         else
           let expectedExternalId := generateExternalId (env_secret env) tenantId accountId in
           if negb (String.eqb (external_id account) externalId)
              || negb (String.eqb externalId expectedExternalId)
           then ret false
           else ret true
     end)
    (fun _ => ret false).

Definition updateScanStatus (scan status : string) (error : option string)
    (metrics : option Metrics) : M unit :=
  perform (CUpdateStatus "system" scan status error metrics) (env_update_status env).

Definition getAccountInternalId (tenantId accountId : string) : M string :=
  results <- perform (CQueryInternalId tenantId accountId)
               (fun h => env_internal_ids env h tenantId accountId) ;;
  match results with
  | [] => throw ("Account " ++ accountId ++ " not found")%string
  | id :: _ => ret id
  end.

Definition scanner_policy_actions : list string :=
  ["ec2:DescribeVolumes"; "ec2:DescribeSnapshots"; "ec2:DescribeInstances"].

Definition assumeRoleSecurely (roleArn externalId sessionName : string) : M Credentials :=
  if negb (regex_test_anchored roleArnPattern roleArn) then throw "Invalid role ARN format"
  else
    response <- perform (CAssumeRole roleArn ("EBSScanner-" ++ sessionName)%string externalId
                           3600 scanner_policy_actions)
                  (env_sts env) ;;
    match response with
    | None => throw "Failed to assume role"
    | Some credentials => ret credentials
    end.

Definition scanVolumesInRegion (credentials : Credentials)
    (region tenantId accountInternalId : string) : M (list VolumeRecord) :=
  volumes <- perform (CDescribeVolumes region) (fun h => env_describe env h region) ;;
  fun h => (Ok (map (normalizeVolume tenantId accountInternalId region (env_clock env h)) volumes), h).

Definition storeVolumes (volumes : list VolumeRecord) (tenantId accountInternalId : string) : M unit :=
  match volumes with
  | [] => ret tt
  | _ => perform (CStoreVolumes tenantId accountInternalId volumes)
           (fun h => env_store env h tenantId accountInternalId volumes)
  end.

(** One iteration of the region loop; [acc] holds [totalVolumes] and
    [errors].  [totalVolumes += volumes.length] runs before [storeVolumes],
    so a store that throws keeps the increment. *)
Definition scanRegion (credentials : Credentials) (tenantId accountInternalId : string)
    (acc : Z * list string) (region : string) : M (Z * list string) :=
  fun h =>
    match scanVolumesInRegion credentials region tenantId accountInternalId h with
    | (Err e, h1) => (Ok (fst acc, snd acc ++ [(region ++ ": " ++ e)%string]), h1)
    | (Ok volumes, h1) =>
        let totalVolumes := fst acc + Z.of_nat (length volumes) in
        match storeVolumes volumes tenantId accountInternalId h1 with
        | (Err e, h2) => (Ok (totalVolumes, snd acc ++ [(region ++ ": " ++ e)%string]), h2)
        | (Ok _, h2) => (Ok (totalVolumes, snd acc), h2)
        end
    end.

Fixpoint scanRegions (credentials : Credentials) (tenantId accountInternalId : string)
    (acc : Z * list string) (rs : list string) : M (Z * list string) :=
  match rs with
  | [] => ret acc
  | region :: rest =>
      acc' <- scanRegion credentials tenantId accountInternalId acc region ;;
      scanRegions credentials tenantId accountInternalId acc' rest
  end.

Definition completion_metrics (totalVolumes : Z) (errs : list string) : Metrics :=
  {| volumesFound := totalVolumes;
     errors := match errs with [] => None | _ => Some errs end |}.

Definition processScanRequest (request : ScanRequest) : M unit :=
  isValid <- validateAccountOwnership (tenantId request) (accountId request)
               (roleArn request) (externalId request) ;;
  if negb isValid then throw "Invalid account credentials or ownership"
  else
    _ <- updateScanStatus (scanId request) "in-progress" None None ;;
    accountInternalId <- getAccountInternalId (tenantId request) (accountId request) ;;
    credentials <- assumeRoleSecurely (roleArn request) (externalId request) (scanId request) ;;
    result <- scanRegions credentials (tenantId request) accountInternalId (0, []) (regions request) ;;
    updateScanStatus (scanId request) "completed" None
      (Some (completion_metrics (fst result) (snd result))).

(** The SQS handler: a failing record is marked [failed] and the error is
    rethrown, which ends the batch. *)
Fixpoint handler (records : list ScanRequest) : M unit :=
  match records with
  | [] => ret tt
  | request :: rest =>
      _ <- catch (processScanRequest request)
             (fun e => _ <- updateScanStatus (scanId request) "failed" (Some e) None ;; throw e) ;;
      handler rest
  end.

End Scanner.

(* ------------------------------------------------------------------ *)
(** ** The [ebs_volumes] upsert of [storeVolumes]

    [INSERT INTO ebs_volumes (...) VALUES ($1, ..., $19) ON CONFLICT
    (tenant_id, volume_id) DO UPDATE SET state, instance_id, device,
    attached_at, cost_per_month, tags, last_scanned_at = EXCLUDED.*,
    updated_at = NOW()], run by PostgreSQL 15 (the engine of the database
    stack) on the schema of [db-connection.ts]: [id UUID PRIMARY KEY DEFAULT
    gen_random_uuid()], [tenant_id UUID REFERENCES tenants(id)],
    [aws_account_id UUID REFERENCES aws_accounts(id)], [volume_id
    VARCHAR(255) NOT NULL], [size_gb INTEGER NOT NULL], [VARCHAR(50)] for
    [volume_type], [state], [region] (NOT NULL), [availability_zone] and
    [device], [VARCHAR(512)] for [kms_key_id], [VARCHAR(255)] for
    [instance_id], [INTEGER] for [iops] and [throughput], [TIMESTAMP] for
    [created_at], [attached_at] and [last_scanned_at], [cost_per_month
    DECIMAL(10, 2)], [tags JSONB], [UNIQUE(tenant_id, volume_id)], and the
    [BEFORE UPDATE] trigger setting [updated_at] to [CURRENT_TIMESTAMP].

    node-postgres sends each parameter as text of unspecified type, so each
    takes the type of its target column, with the length and precision of
    the column applied when the target list is computed.  The statement
    fails at the first failing step, in this order:
    - Bind, parameter by parameter: the text must be valid UTF-8 without a
      NUL byte, then pass the input function of its type ([uuid], [int4],
      [timestamp], [jsonb]; [varchar], [bool] and [numeric] input accept
      every text node-postgres sends here);
    - the target list, in table column order: the length coercion of each
      [VARCHAR(n)] column, then the [DECIMAL(10, 2)] coercion of the cost;
    - the NOT NULL constraints ([volume_id] is the only one a record can
      leave NULL);
    - the arbiter index on [(tenant_id, volume_id)]: on a conflict the row
      is updated (its foreign keys are unchanged and not checked again);
      otherwise the row is inserted, the primary key index is checked, and
      at the end of the statement the foreign keys, [tenant_id] first.
    The row-level security policy compares [tenant_id] with the setting
    [app.current_tenant_id], which [transactionWithTenant] sets to the same
    tenant text as [$1]: it holds whenever [$1] is a uuid, and is left out.

    JavaScript strings are the UTF-8 bytes node-postgres sends, JavaScript
    numbers exact rationals (the cost is rounded from its exact value), a
    [Date] its millisecond count, rendered in UTC (the Lambda time zone).
    [now] is the transaction timestamp ([NOW()] and [CURRENT_TIMESTAMP]),
    [fresh_id] the value of [gen_random_uuid()].  The tables [tenants] and
    [aws_accounts] are given by their ids and [ebs_volumes] by its list of
    rows, uuids in their canonical text. *)

(** The errors of the statement, with the message PostgreSQL reports:
    - [InvalidByteSequence i] (parameter [$i]):
      [invalid byte sequence for encoding "UTF8": 0x..];
    - [InvalidUuid i s]: [invalid input syntax for type uuid: "s"];
    - [IntegerOutOfRange i n]: [value "n" is out of range for type integer]
      (from 1e21 on JavaScript writes the number with an exponent and the
      message is the invalid-syntax one);
    - [InvalidTimestamp i]: an Invalid Date, whose NaN fields the timestamp
      input refuses;
    - [TimestampOutOfRange i]: a date before 4714-11-24 BC:
      [timestamp out of range: "..."];
    - [UnsupportedUnicodeEscape]: a tag holding U+0000, which
      [JSON.stringify] writes as an escape:
      [unsupported Unicode escape sequence];
    - [ValueTooLong n]: [value too long for type character varying(n)];
    - [NumericFieldOverflow]: [numeric field overflow];
    - [NotNullViolation c]: [null value in column "c" of relation
      "ebs_volumes" violates not-null constraint];
    - [UniqueViolation k]: [duplicate key value violates unique constraint "k"];
    - [ForeignKeyViolation k]: [insert or update on table "ebs_volumes"
      violates foreign key constraint "k"]. *)
Inductive pg_error : Type :=
| InvalidByteSequence (param : nat)
| InvalidUuid (param : nat) (text : string)
| IntegerOutOfRange (param : nat) (value : Z)
| InvalidTimestamp (param : nat)
| TimestampOutOfRange (param : nat)
| UnsupportedUnicodeEscape
| ValueTooLong (maxlen : nat)
| NumericFieldOverflow
| NotNullViolation (column : string)
| UniqueViolation (constraint_name : string)
| ForeignKeyViolation (constraint_name : string).

Inductive pg_result (A : Type) : Type :=
| PgOk (a : A)
| PgErr (e : pg_error).
Arguments PgOk {A} a.
Arguments PgErr {A} e.

Definition pg_bind {A B} (m : pg_result A) (f : A -> pg_result B) : pg_result B :=
  match m with PgOk a => f a | PgErr e => PgErr e end.

Notation "'let?' x ':=' m 'in' f" := (pg_bind m (fun x => f))
  (at level 200, x name, m at level 100, f at level 200).

Definition pg_assert (b : bool) (e : pg_error) : pg_result unit :=
  if b then PgOk tt else PgErr e.

(** Errors raised by a NOT NULL constraint (SQLSTATE 23502). *)
Definition is_not_null (e : pg_error) : bool :=
  match e with NotNullViolation _ => true | _ => false end.

(** *** Encoding: [pg_verify_mbstr] for UTF-8 *)

Definition bytes_of (s : string) : list nat := map nat_of_ascii (list_ascii_of_string s).

Definition in_range (lo hi a : nat) : bool := ((lo <=? a) && (a <=? hi))%nat.

(** [pg_utf_mblen]: the length of a character from its first byte. *)
Definition pg_utf_mblen (b : nat) : nat :=
  if (b <? 128)%nat then 1
  else if (b / 32 =? 6)%nat then 2
  else if (b / 16 =? 14)%nat then 3
  else if (b / 8 =? 30)%nat then 4
  else 1.

(** [pg_utf8_islegal] on the bytes of one character. *)
Definition pg_utf8_islegal (c : list nat) : bool :=
  match c with
  | [] => false
  | b0 :: rest =>
      (length c <=? 4)%nat &&
      forallb (in_range 128 191) (skipn 1 rest) &&
      match rest with
      | [] => true
      | a :: _ =>
          if (b0 =? 224)%nat then in_range 160 191 a
          else if (b0 =? 237)%nat then in_range 128 159 a
          else if (b0 =? 240)%nat then in_range 144 191 a
          else if (b0 =? 244)%nat then in_range 128 143 a
          else in_range 128 191 a
      end &&
      negb (in_range 128 193 b0) && (b0 <=? 244)%nat
  end.

(** The loop of [pg_utf8_verifystr] over [pg_utf8_verifychar]; a NUL
    byte is refused unless [nul_ok] (the JSON text of the tags, where
    [JSON.stringify] has escaped it). *)
Fixpoint pg_utf8_verify (nul_ok : bool) (fuel : nat) (s : list nat) : bool :=
  match fuel with
  | O => true
  | S fuel' =>
      match s with
      | [] => true
      | b :: _ =>
          if (b <? 128)%nat then (nul_ok || negb (b =? 0)%nat) && pg_utf8_verify nul_ok fuel' (tl s)
          else
            let l := pg_utf_mblen b in
            (l <=? length s)%nat && pg_utf8_islegal (firstn l s) &&
            pg_utf8_verify nul_ok fuel' (skipn l s)
      end
  end.

Definition utf8_valid (nul_ok : bool) (s : string) : bool :=
  pg_utf8_verify nul_ok (length (bytes_of s)) (bytes_of s).

Definition has_nul (s : string) : bool := existsb (Nat.eqb 0) (bytes_of s).

(** *** Input functions *)

Definition is_xdigit (c : ascii) : bool :=
  let n := nat_of_ascii c in
  (in_range 48 57 n || in_range 65 70 n || in_range 97 102 n)%bool.

Definition hex_lower (c : ascii) : ascii :=
  let n := nat_of_ascii c in if in_range 65 70 n then ascii_of_nat (n + 32) else c.

(** The byte pairs of [string_to_uuid], from pair [i] on: two hex digits
    each, then an optional [-] after an odd pair other than the last. *)
Fixpoint uuid_pairs (i remaining : nat) (s : list ascii) : option (list ascii * list ascii) :=
  match remaining with
  | O => Some ([], s)
  | S r =>
      match s with
      | c1 :: c2 :: s' =>
          if is_xdigit c1 && is_xdigit c2 then
            let s'' := match s' with
                       | c :: t => if Ascii.eqb c "-"%char && Nat.odd i && (i <? 15)%nat then t else s'
                       | [] => s'
                       end in
            match uuid_pairs (S i) r s'' with
            | Some (ds, rest) => Some (hex_lower c1 :: hex_lower c2 :: ds, rest)
            | None => None
            end
          else None
      | _ => None
      end
  end.

(** [uuid_out]: lowercase, grouped 8-4-4-4-12. *)
Definition uuid_out (ds : list ascii) : string :=
  string_of_list_ascii
    (firstn 8 ds ++ ["-"%char] ++ firstn 4 (skipn 8 ds) ++ ["-"%char] ++
     firstn 4 (skipn 12 ds) ++ ["-"%char] ++ firstn 4 (skipn 16 ds) ++ ["-"%char] ++
     skipn 20 ds).

(** [uuid_in]: [string_to_uuid] (an optional pair of braces around 16 hex
    pairs, then the end of the text), giving the canonical text. *)
Definition uuid_in (s : string) : option string :=
  let l := list_ascii_of_string s in
  let '(braces, l1) :=
    match l with
    | c :: t => if Ascii.eqb c "{"%char then (true, t) else (false, l)
    | [] => (false, l)
    end in
  match uuid_pairs 0 16 l1 with
  | Some (ds, rest) =>
      let rest' := if braces
                   then match rest with
                        | c :: t => if Ascii.eqb c "}"%char then Some t else None
                        | [] => None
                        end
                   else Some rest in
      match rest' with
      | Some [] => Some (uuid_out ds)
      | _ => None
      end
  | None => None
  end.

Definition bind_text (i : nat) (s : option string) : pg_result unit :=
  match s with
  | None => PgOk tt
  | Some s => pg_assert (utf8_valid false s) (InvalidByteSequence i)
  end.

Definition bind_uuid (i : nat) (s : string) : pg_result string :=
  let? _ := bind_text i (Some s) in
  match uuid_in s with
  | Some u => PgOk u
  | None => PgErr (InvalidUuid i s)
  end.

Definition bind_int4 (i : nat) (n : option Z) : pg_result unit :=
  match n with
  | None => PgOk tt
  | Some n => pg_assert ((- 2 ^ 31 <=? n) && (n <? 2 ^ 31)) (IntegerOutOfRange i n)
  end.

(** A [Date] holds at most 8.64e15 ms either side of the epoch; the first
    [timestamp] is 4714-11-24 00:00 BC, -210866803200000 ms. *)
Definition bind_timestamp (i : nat) (ms : option Z) : pg_result unit :=
  match ms with
  | None => PgOk tt
  | Some ms =>
      if 8640000000000000 <? Z.abs ms then PgErr (InvalidTimestamp i)
      else pg_assert (-210866803200000 <=? ms) (TimestampOutOfRange i)
  end.

(** [$18], the text of [JSON.stringify(tags)] as [jsonb]. *)
Definition bind_tags (tags : list (string * string)) : pg_result unit :=
  let texts := flat_map (fun kv => [fst kv; snd kv]) tags in
  let? _ := pg_assert (forallb (utf8_valid true) texts) (InvalidByteSequence 18) in
  pg_assert (forallb (fun s => negb (has_nul s)) texts) UnsupportedUnicodeEscape.

(** Bind of [$1] .. [$18] in order, giving the canonical tenant and
    account uuids; [$7] (boolean) and [$17] (numeric) always convert. *)
Definition bind_params (tenantId accountInternalId : string) (v : VolumeRecord)
    : pg_result (string * string) :=
  let? tid := bind_uuid 1 tenantId in
  let? aid := bind_uuid 2 accountInternalId in
  let? _ := bind_text 3 (rec_volumeId v) in
  let? _ := bind_int4 4 (Some (rec_size v)) in
  let? _ := bind_text 5 (Some (rec_volumeType v)) in
  let? _ := bind_text 6 (Some (rec_state v)) in
  let? _ := bind_text 8 (rec_kmsKeyId v) in
  let? _ := bind_text 9 (Some (rec_region v)) in
  let? _ := bind_text 10 (rec_availabilityZone v) in
  let? _ := bind_timestamp 11 (rec_createTime v) in
  let? _ := bind_int4 12 (rec_iops v) in
  let? _ := bind_int4 13 (rec_throughput v) in
  let? _ := bind_text 14 (rec_instanceId v) in
  let? _ := bind_text 15 (rec_device v) in
  let? _ := bind_timestamp 16 (rec_attachTime v) in
  let? _ := bind_tags (rec_tags v) in
  PgOk (tid, aid).

(** *** Column coercions of the target list *)

(** [pg_mbcharcliplen]: the bytes of the first [limit] characters. *)
Fixpoint mbcharcliplen (fuel : nat) (s : list nat) (limit : nat) : nat :=
  match fuel with
  | O => 0
  | S fuel' =>
      match s with
      | [] => 0
      | b :: _ =>
          if (b =? 0)%nat then 0
          else match limit with
               | O => 0
               | S limit' => let l := pg_utf_mblen b in (l + mbcharcliplen fuel' (skipn l s) limit')%nat
               end
      end
  end.

(** [varchar(text, n, false)]: a text of at most [n] bytes is kept;
    otherwise it is cut after [n] characters, and what is cut off must be
    spaces only. *)
Definition varchar_coerce (maxlen : nat) (s : string) : pg_result string :=
  let b := bytes_of s in
  if (length b <=? maxlen)%nat then PgOk s
  else
    let k := mbcharcliplen (length b) b maxlen in
    if forallb (Nat.eqb 32) (skipn k b) then PgOk (substring 0 k s)
    else PgErr (ValueTooLong maxlen).

Definition varchar_opt (maxlen : nat) (s : option string) : pg_result (option string) :=
  match s with
  | None => PgOk None
  | Some s => let? s' := varchar_coerce maxlen s in PgOk (Some s')
  end.

(** [apply_typmod] for [numeric(10, 2)]: round half away from zero to two
    decimals; the result must be below 10^8 in absolute value. *)
Definition round_cents (q : Q) : Z :=
  let a := Qnum q in
  let b := Zpos (Qden q) in
  Z.sgn a * ((200 * Z.abs a + b) / (2 * b)).

Definition numeric_10_2 (q : Q) : pg_result Q :=
  let n := round_cents q in
  if Z.abs n <? 10 ^ 10 then PgOk ((n # 100)%Q) else PgErr NumericFieldOverflow.

(** The coerced columns, in table column order. *)
Record Coerced := {
  c_volume_id : option string;
  c_volume_type : string;
  c_state : string;
  c_kms_key_id : option string;
  c_region : string;
  c_availability_zone : option string;
  c_instance_id : option string;
  c_device : option string;
  c_cost : Q
}.

Definition coerce_columns (v : VolumeRecord) : pg_result Coerced :=
  let? vid := varchar_opt 255 (rec_volumeId v) in
  let? vtype := varchar_coerce 50 (rec_volumeType v) in
  let? st := varchar_coerce 50 (rec_state v) in
  let? kms := varchar_opt 512 (rec_kmsKeyId v) in
  let? reg := varchar_coerce 50 (rec_region v) in
  let? az := varchar_opt 50 (rec_availabilityZone v) in
  let? inst := varchar_opt 255 (rec_instanceId v) in
  let? dev := varchar_opt 50 (rec_device v) in
  let? cost := numeric_10_2 (rec_costPerMonth v) in
  PgOk {| c_volume_id := vid; c_volume_type := vtype; c_state := st; c_kms_key_id := kms;
          c_region := reg; c_availability_zone := az; c_instance_id := inst;
          c_device := dev; c_cost := cost |}.

(** *** The rows *)

Record VolumeRow := {
  id : string;
  tenant_id : string;
  aws_account_id : string;
  volume_id : string;
  size_gb : Z;
  volume_type : string;
  state : string;
  encrypted : bool;
  kms_key_id : option string;
  region : string;
  availability_zone : option string;
  created_at : option Z;
  iops : option Z;
  throughput : option Z;
  instance_id : option string;
  device : option string;
  attached_at : option Z;
  cost_per_month : Q;
  utilization_percent : option Z;
  tags : list (string * string);
  last_scanned_at : Z;
  updated_at : Z
}.

(** The proposed row ([EXCLUDED]): bind, [$19], the target list, then the
    NOT NULL constraint of [volume_id]. *)
Definition excluded_row (now : Z) (fresh_id tenantId accountInternalId : string)
    (v : VolumeRecord) : pg_result VolumeRow :=
  let? ids := bind_params tenantId accountInternalId v in
  let? _ := bind_timestamp 19 (Some (rec_scannedAt v)) in
  let? c := coerce_columns v in
  match c_volume_id c with
  | None => PgErr (NotNullViolation "volume_id")
  | Some vid =>
      PgOk {|
        id := fresh_id; tenant_id := fst ids; aws_account_id := snd ids;
        volume_id := vid; size_gb := rec_size v; volume_type := c_volume_type c;
        state := c_state c; encrypted := rec_encrypted v; kms_key_id := c_kms_key_id c;
        region := c_region c; availability_zone := c_availability_zone c;
        created_at := rec_createTime v; iops := rec_iops v; throughput := rec_throughput v;
        instance_id := c_instance_id c; device := c_device c; attached_at := rec_attachTime v;
        cost_per_month := c_cost c; utilization_percent := None; tags := rec_tags v;
        last_scanned_at := rec_scannedAt v; updated_at := now
      |}
  end.

Definition row_key_is (tenantId volumeId : string) (r : VolumeRow) : bool :=
  String.eqb (tenant_id r) tenantId && String.eqb (volume_id r) volumeId.

(** The [DO UPDATE SET] list applied to the conflicting row [r], from the
    proposed row [x]; the trigger gives [updated_at] the same [now]. *)
Definition conflict_update (now : Z) (x r : VolumeRow) : VolumeRow := {|
  id := id r; tenant_id := tenant_id r; aws_account_id := aws_account_id r;
  volume_id := volume_id r; size_gb := size_gb r; volume_type := volume_type r;
  state := state x; encrypted := encrypted r; kms_key_id := kms_key_id r;
  region := region r; availability_zone := availability_zone r;
  created_at := created_at r; iops := iops r; throughput := throughput r;
  instance_id := instance_id x; device := device x; attached_at := attached_at x;
  cost_per_month := cost_per_month x; utilization_percent := utilization_percent r;
  tags := tags x; last_scanned_at := last_scanned_at x; updated_at := now
|}.

Definition upsert_volume (tenants accounts : list string) (now : Z)
    (fresh_id tenantId accountInternalId : string)
    (v : VolumeRecord) (table : list VolumeRow) : pg_result (list VolumeRow) :=
  let? x := excluded_row now fresh_id tenantId accountInternalId v in
  if existsb (row_key_is (tenant_id x) (volume_id x)) table
  then PgOk (map (fun r => if row_key_is (tenant_id x) (volume_id x) r
                           then conflict_update now x r else r) table)
  else if existsb (fun r => String.eqb (id r) (id x)) table
  then PgErr (UniqueViolation "ebs_volumes_pkey")
  else if negb (existsb (String.eqb (tenant_id x)) tenants)
  then PgErr (ForeignKeyViolation "ebs_volumes_tenant_id_fkey")
  else if negb (existsb (String.eqb (aws_account_id x)) accounts)
  then PgErr (ForeignKeyViolation "ebs_volumes_aws_account_id_fkey")
  else PgOk (table ++ [x]).

(** The loop of [storeVolumes] inside its transaction; a failing upsert
    aborts the transaction, leaving the table as it was.  Every statement
    of the transaction sees the same [now]. *)
Fixpoint upsert_volumes (tenants accounts : list string) (now : Z) (fresh_ids : list string)
    (tenantId accountInternalId : string)
    (vs : list VolumeRecord) (table : list VolumeRow) : pg_result (list VolumeRow) :=
  match vs with
  | [] => PgOk table
  | v :: rest =>
      match upsert_volume tenants accounts now (hd "" fresh_ids) tenantId accountInternalId v table with
      | PgErr e => PgErr e
      | PgOk table' => upsert_volumes tenants accounts now (tl fresh_ids) tenantId accountInternalId rest table'
      end
  end.

(** The unique constraint on [(tenant_id, volume_id)]. *)
Definition keys_unique (table : list VolumeRow) : Prop :=
  NoDup (map (fun r => (tenant_id r, volume_id r)) table).

Definition count_key (tenantId volumeId : string) (table : list VolumeRow) : nat :=
  length (filter (row_key_is tenantId volumeId) table).

(** The key the upsert stores for a tenant text and a volume id. *)
Definition tenant_key (tenantId : string) : string :=
  match uuid_in tenantId with Some u => u | None => tenantId end.

Definition volume_key (volumeId : string) : string :=
  match varchar_coerce 255 volumeId with PgOk s => s | PgErr _ => volumeId end.

Definition with_scannedAt (v : VolumeRecord) (t : Z) : VolumeRecord := {|
  rec_tenantId := rec_tenantId v; rec_accountInternalId := rec_accountInternalId v;
  rec_volumeId := rec_volumeId v; rec_size := rec_size v; rec_volumeType := rec_volumeType v;
  rec_state := rec_state v; rec_encrypted := rec_encrypted v; rec_kmsKeyId := rec_kmsKeyId v;
  rec_region := rec_region v; rec_availabilityZone := rec_availabilityZone v;
  rec_createTime := rec_createTime v; rec_iops := rec_iops v; rec_throughput := rec_throughput v;
  rec_instanceId := rec_instanceId v; rec_device := rec_device v; rec_attachTime := rec_attachTime v;
  rec_costPerMonth := rec_costPerMonth v; rec_tags := rec_tags v; rec_scannedAt := t
|}.

(** The proposed row of a record scanned again at [s]: another [id], scan
    time and [now], the same columns otherwise. *)
Definition restamp (fresh_id : string) (now s : Z) (x : VolumeRow) : VolumeRow := {|
  id := fresh_id; tenant_id := tenant_id x; aws_account_id := aws_account_id x;
  volume_id := volume_id x; size_gb := size_gb x; volume_type := volume_type x;
  state := state x; encrypted := encrypted x; kms_key_id := kms_key_id x;
  region := region x; availability_zone := availability_zone x;
  created_at := created_at x; iops := iops x; throughput := throughput x;
  instance_id := instance_id x; device := device x; attached_at := attached_at x;
  cost_per_month := cost_per_month x; utilization_percent := utilization_percent x;
  tags := tags x; last_scanned_at := s; updated_at := now
|}.

(** Columns the upsert must leave alone: the identity of the row ... *)
Definition same_identity (r1 r2 : VolumeRow) : Prop :=
  id r2 = id r1 /\ tenant_id r2 = tenant_id r1 /\ aws_account_id r2 = aws_account_id r1 /\
  volume_id r2 = volume_id r1 /\ created_at r2 = created_at r1.

(** ... and the other columns outside the [DO UPDATE SET] list. *)
Definition same_unlisted (r1 r2 : VolumeRow) : Prop :=
  size_gb r2 = size_gb r1 /\ volume_type r2 = volume_type r1 /\ encrypted r2 = encrypted r1 /\
  kms_key_id r2 = kms_key_id r1 /\ region r2 = region r1 /\
  availability_zone r2 = availability_zone r1 /\ iops r2 = iops r1 /\
  throughput r2 = throughput r1 /\ utilization_percent r2 = utilization_percent r1.

(** The observed columns, as the column types store the record's values:
    the texts after their [VARCHAR] coercion, the cost rounded to cents. *)
Definition observed_from (v : VolumeRecord) (now : Z) (r : VolumeRow) : Prop :=
  varchar_coerce 50 (rec_state v) = PgOk (state r) /\
  varchar_opt 255 (rec_instanceId v) = PgOk (instance_id r) /\
  varchar_opt 50 (rec_device v) = PgOk (device r) /\
  attached_at r = rec_attachTime v /\
  numeric_10_2 (rec_costPerMonth v) = PgOk (cost_per_month r) /\
  tags r = rec_tags v /\ last_scanned_at r = rec_scannedAt v /\ updated_at r = now.

(* ------------------------------------------------------------------ *)
(** ** Accounting of the region loop (specification side)

    What one region contributes when it is reached after the calls [h]:
    the volumes it counts, the error strings it adds, and the calls it
    issues.  The listing is answered at [h]; the records take the clock
    after the listing; the store (issued only for a non-empty listing) is
    answered after the listing.  Every outcome may depend on the earlier
    calls, as throttling does. *)

Record RegionReport := {
  rep_found : Z;
  rep_errors : list string;
  rep_calls : list call
}.

Definition region_report (env : Env) (tenantId accountInternalId : string)
    (h : list call) (region : string) : RegionReport :=
  let h1 := h ++ [CDescribeVolumes region] in
  match env_describe env h region with
  | Err e =>
      {| rep_found := 0; rep_errors := [(region ++ ": " ++ e)%string];
         rep_calls := [CDescribeVolumes region] |}
  | Ok [] =>
      {| rep_found := 0; rep_errors := []; rep_calls := [CDescribeVolumes region] |}
  | Ok vols =>
      let records := map (normalizeVolume tenantId accountInternalId region (env_clock env h1)) vols in
      {| rep_found := Z.of_nat (length vols);
         rep_errors := match env_store env h1 tenantId accountInternalId records with
                       | Err e => [(region ++ ": " ++ e)%string]
                       | Ok _ => []
                       end;
         rep_calls := [CDescribeVolumes region; CStoreVolumes tenantId accountInternalId records] |}
  end.

(** The regions in order, each reached after the calls of those before it. *)
Fixpoint regions_report (env : Env) (tenantId accountInternalId : string)
    (h : list call) (rs : list string) : RegionReport :=
  match rs with
  | [] => {| rep_found := 0; rep_errors := []; rep_calls := [] |}
  | region :: rest =>
      let r := region_report env tenantId accountInternalId h region in
      let r' := regions_report env tenantId accountInternalId (h ++ rep_calls r) rest in
      {| rep_found := rep_found r + rep_found r';
         rep_errors := rep_errors r ++ rep_errors r';
         rep_calls := rep_calls r ++ rep_calls r' |}
  end.

Definition is_region_call (c : call) : bool :=
  match c with CDescribeVolumes _ | CStoreVolumes _ _ _ => true | _ => false end.

Definition is_status_update (c : call) : bool :=
  match c with CUpdateStatus _ _ _ _ _ => true | _ => false end.

(** The calls made while processing the request [scanId] of tenant
    [tenantId]: lookups and stores under that tenant (every stored record
    carrying it), status updates of that scan under the tenant ["system"]. *)
Definition scoped_to (tenantId scanId : string) (c : call) : Prop :=
  match c with
  | CQueryAccount t _ | CQueryInternalId t _ => t = tenantId
  | CStoreVolumes t _ volumes => t = tenantId /\ Forall (fun v => rec_tenantId v = tenantId) volumes
  | CUpdateStatus t scan _ _ _ => t = "system" /\ scan = scanId
  | _ => True
  end.

(** [m] only appends calls to the history, each satisfying [P]. *)
Definition extends_with {A} (P : call -> Prop) (m : M A) : Prop :=
  forall h, exists ext, snd (m h) = h ++ ext /\ Forall P ext.

(* ------------------------------------------------------------------ *)
(** ** Concrete environments used by the examples *)

Definition sample_arn : string :=
  "arn:aws:iam::123456789012:role/EBSVolumeManager-CustomerRole".

(** Every call succeeds; the tenant has no registered account. *)
Definition env_unregistered : Env := {|
  env_secret := None;
  env_accounts := fun _ _ _ => Ok [];
  env_internal_ids := fun _ _ _ => Ok [];
  env_update_status := fun _ => Ok tt;
  env_sts := fun _ => Ok None;
  env_describe := fun _ _ => Ok [];
  env_store := fun _ _ _ _ => Ok tt;
  env_clock := fun _ => 0
|}.

Definition request_1 : ScanRequest := {|
  scanId := "scan-1";
  tenantId := "tenant-a";
  accountId := "123456789012";
  roleArn := sample_arn;
  externalId := generateExternalId None "tenant-a" "123456789012";
  regions := ["r1"; "r2"]
|}.

(** A gp3 volume of 100 GiB with the given provisioned IOPS. *)
Definition gp3_volume (iops : Z) : Ec2Volume := {|
  VolumeId := Some "vol-1"; Size := Some 100; VolumeType := Some "gp3"; State := Some "available";
  Encrypted := Some true; KmsKeyId := None; AvailabilityZone := Some "r1a"; CreateTime := Some 0;
  Iops := Some iops; Throughput := Some 125; Attachments := None; Tags := None
|}.

(** A gp2 volume of 50 GiB. *)
Definition gp2_volume (volumeId : string) : Ec2Volume := {|
  VolumeId := Some volumeId; Size := Some 50; VolumeType := Some "gp2"; State := Some "in-use";
  Encrypted := Some false; KmsKeyId := None; AvailabilityZone := Some "r1a"; CreateTime := Some 0;
  Iops := Some 150; Throughput := None;
  Attachments := Some [{| InstanceId := Some "i-1"; Device := Some "/dev/xvda"; AttachTime := Some 0 |}];
  Tags := Some [("Name", "root")]
|}.

Definition three_volumes : list Ec2Volume :=
  [gp2_volume "vol-a"; gp2_volume "vol-b"; gp2_volume "vol-c"].

(** The registered row of [request_1]'s account. *)
Definition account_row_1 : AccountRow := {|
  row_id := "acc-uuid-1";
  role_arn := sample_arn;
  external_id := generateExternalId None "tenant-a" "123456789012";
  is_active := Some true
|}.

Definition sample_credentials : Credentials := {|
  AccessKeyId := Some "ASIAEXAMPLE"; SecretAccessKey := Some "secret"; SessionToken := Some "token"
|}.

Definition sample_now : Z := 1700000000000.

(** The account of [request_1] is registered and role assumption succeeds;
    region listings follow [D] and volume stores follow [S]. *)
Definition env_regions (D : string -> result (list Ec2Volume))
    (S : list VolumeRecord -> result unit) : Env := {|
  env_secret := None;
  env_accounts := fun _ _ _ => Ok [account_row_1];
  env_internal_ids := fun _ _ _ => Ok ["acc-uuid-1"];
  env_update_status := fun _ => Ok tt;
  env_sts := fun _ => Ok (Some sample_credentials);
  env_describe := fun _ region => D region;
  env_store := fun _ _ _ volumes => S volumes;
  env_clock := fun _ => sample_now
|}.

Definition is_listing (c : call) : bool :=
  match c with CDescribeVolumes _ => true | _ => false end.

(** Listings are throttled: the first listing of the run returns three
    volumes, every later one is refused with a rate limit; the clock
    advances with every call. *)
Definition env_throttled : Env := {|
  env_secret := None;
  env_accounts := fun _ _ _ => Ok [account_row_1];
  env_internal_ids := fun _ _ _ => Ok ["acc-uuid-1"];
  env_update_status := fun _ => Ok tt;
  env_sts := fun _ => Ok (Some sample_credentials);
  env_describe := fun h _ => if existsb is_listing h then Err "Rate exceeded" else Ok three_volumes;
  env_store := fun _ _ _ _ => Ok tt;
  env_clock := fun h => sample_now + Z.of_nat (length h)
|}.

(** "r1" lists three volumes, every other region times out. *)
Definition describe_r1_ok_r2_fails (region : string) : result (list Ec2Volume) :=
  if String.eqb region "r1" then Ok three_volumes else Err "Request timed out".

(** "r1" lists three volumes, every other region none. *)
Definition describe_r1_three (region : string) : result (list Ec2Volume) :=
  if String.eqb region "r1" then Ok three_volumes else Ok [].

Definition store_ok (volumes : list VolumeRecord) : result unit := Ok tt.

Definition store_fails (volumes : list VolumeRecord) : result unit := Err "connection refused".

(** Tenants and AWS accounts of the upsert fixtures, by canonical uuid. *)
Definition tenant_a : string := "6f1c2d3e-4a5b-4c6d-8e7f-0a1b2c3d4e5f".
Definition tenant_b : string := "7a2b3c4d-5e6f-4a7b-9c8d-1e2f3a4b5c6d".
Definition account_a : string := "8b3c4d5e-6f7a-4b8c-9d0e-2f3a4b5c6d7e".
Definition account_b : string := "9c4d5e6f-7a8b-4c9d-8e0f-3a4b5c6d7e8f".
Definition known_tenants : list string := [tenant_a; tenant_b].
Definition known_accounts : list string := [account_a; account_b].

(** The record [scanVolumesInRegion] builds for "vol-a" of tenant_a. *)
Definition sample_record : VolumeRecord :=
  normalizeVolume tenant_a account_a "r1" sample_now (gp2_volume "vol-a").

(** [ebs_volumes] after earlier scans at time 0: "vol-a" of tenant_a, and
    a volume with the same id under tenant_b. *)
Definition earlier_table : list VolumeRow :=
  match upsert_volumes known_tenants known_accounts 0 ["a0000000-0000-4000-8000-000000000000"]
          tenant_a account_a [normalizeVolume tenant_a account_a "r1" 0 (gp2_volume "vol-a")] [] with
  | PgOk t1 =>
      match upsert_volumes known_tenants known_accounts 0 ["a0000000-0000-4000-8000-000000000009"]
              tenant_b account_b [normalizeVolume tenant_b account_b "r1" 0 (gp2_volume "vol-a")] t1 with
      | PgOk t2 => t2
      | PgErr _ => []
      end
  | PgErr _ => []
  end.

(** The account of [request_1] passes validation but the lookup of its
    internal id returns no row. *)
Definition env_missing_internal_id : Env := {|
  env_secret := None;
  env_accounts := fun _ _ _ => Ok [account_row_1];
  env_internal_ids := fun _ _ _ => Ok [];
  env_update_status := fun _ => Ok tt;
  env_sts := fun _ => Ok (Some sample_credentials);
  env_describe := fun _ _ => Ok [];
  env_store := fun _ _ _ _ => Ok tt;
  env_clock := fun _ => sample_now
|}.

(** The account of [request_1] is registered, and STS answers with the
    outcome [sts]. *)
Definition env_sts_answers (sts : result (option Credentials)) : Env := {|
  env_secret := None;
  env_accounts := fun _ _ _ => Ok [account_row_1];
  env_internal_ids := fun _ _ _ => Ok ["acc-uuid-1"];
  env_update_status := fun _ => Ok tt;
  env_sts := fun _ => sts;
  env_describe := fun _ _ => Ok [];
  env_store := fun _ _ _ _ => Ok tt;
  env_clock := fun _ => sample_now
|}.

(** Every connection and statement succeeds and returns no rows. *)
Definition db_all_ok : list event -> request -> result (list string) := fun _ _ => Ok [].

(** A created pool with no client yet. *)
(** The server refuses every data statement (for instance a violated
    constraint) and accepts everything else. *)
Definition db_data_fails : list event -> request -> result (list string) :=
  fun _ r => match r with
             | OpExec (Data _) => Err "duplicate key value violates unique constraint"
             | _ => Ok []
             end.

Definition db_ready : DbState := {|
  pool_created := true; sessions := fun _ => fresh_session; idle := [];
  next_conn := 0; log := []
|}.

(** Secrets Manager answers every request with the same secret string. *)
Definition secret_sent (n : nat) : result (option string) := Ok (Some "secret-1").

(** The parsed secret of the application user. *)
Definition parse_app_secret (secretString : string) : result SecretFields :=
  Ok {| secret_username := Some "app"; secret_password := Some "pw" |}.

Definition app_credentials : DbCredentials := {|
  username := Some "app"; password := Some "pw"; host := Some "proxy.local";
  port := 5432; database := "ebsmanager"
|}.

(** A cold Lambda container: nothing cached, nothing requested. *)
Definition fresh_cache : CredCache := {| cachedCredentials := None; secret_requests := 0 |}.

(** A later scan of tenant_a: "vol-a" again and a new volume "vol-b". *)
Definition rescan_records : list VolumeRecord :=
  [sample_record; normalizeVolume tenant_a account_a "r1" sample_now (gp2_volume "vol-b")].

Definition rescan_ids : list string :=
  ["a0000000-0000-4000-8000-000000000001"; "a0000000-0000-4000-8000-000000000002"].

(** [ebs_volumes] after [rescan_records] is stored over [earlier_table]. *)
Definition rescanned_table : list VolumeRow :=
  match upsert_volumes known_tenants known_accounts sample_now rescan_ids tenant_a account_a
          rescan_records earlier_table with
  | PgOk table => table
  | PgErr _ => []
  end.

(** The record built for a volume that EC2 lists without a [VolumeId]. *)
Definition idless_record : VolumeRecord :=
  normalizeVolume tenant_a account_a "r1" sample_now {|
    VolumeId := None; Size := Some 50; VolumeType := Some "gp2"; State := Some "available";
    Encrypted := Some false; KmsKeyId := None; AvailabilityZone := Some "r1a"; CreateTime := Some 0;
    Iops := Some 150; Throughput := None; Attachments := None; Tags := None
  |}.

(* ================================================================== *)
(** * Proofs *)

(** *** Test vectors of the hash (FIPS 180-2, RFC 4231) *)

Example sha256_abc_vector :
  hex_of_bytes (Sha256.digest (bytes_of_string "abc"))
  = "ba7816bf8f01cfea414140de5dae2223b00361a396177a9cb410ff61f20015ad".
Proof. vm_compute. reflexivity. Qed.

Example hmac_sha256_rfc4231_case2 :
  hmac_sha256_hex "Jefe" "what do ya want for nothing?"
  = "5bdcc146bf60754e6a042426089575c75a003f089d2739839dec58b964ec3843".
Proof. vm_compute. reflexivity. Qed.

Example hmac_sha256_rfc4231_case6 :
  hex_of_bytes (Sha256.hmac (repeat 170 131)
    (bytes_of_string "Test Using Larger Than Block-Size Key - Hash Key First"))
  = "60e431591ee0b67f0d8a26aacbf5b77f8e0bc6213728c5140546040f0ee37f54".
Proof. vm_compute. reflexivity. Qed.

(** *** Shape of [generateExternalId] *)

Lemma round_length (s : list Z) (kw : Z * Z) :
  length (Sha256.round s kw) = length s.
Proof.
  unfold Sha256.round.
  destruct s as [|? [|? [|? [|? [|? [|? [|? [|? [|? ?]]]]]]]]]; reflexivity.
Qed.

Lemma fold_round_length (kws : list (Z * Z)) (s : list Z) :
  length (fold_left Sha256.round kws s) = length s.
Proof.
  revert s; induction kws as [|kw kws IH]; intros s; simpl; auto.
  rewrite IH. apply round_length.
Qed.

Lemma compress_length (hv block : list Z) :
  length (Sha256.compress hv block) = length hv.
Proof.
  unfold Sha256.compress. rewrite length_map, length_combine, fold_round_length.
  apply Nat.min_id.
Qed.

Lemma fold_compress_length (blocks : list (list Z)) (hv : list Z) :
  length (fold_left Sha256.compress blocks hv) = length hv.
Proof.
  revert hv; induction blocks as [|b blocks IH]; intros hv; simpl; auto.
  rewrite IH. apply compress_length.
Qed.

Lemma be_bytes_length (n : nat) (x : Z) : length (Sha256.be_bytes n x) = n.
Proof.
  revert x; induction n as [|n IH]; intros x; simpl; auto.
  rewrite length_app, IH. simpl. lia.
Qed.

Lemma be_bytes_range (n : nat) (x : Z) :
  Forall (fun b => 0 <= b < 256) (Sha256.be_bytes n x).
Proof.
  revert x; induction n as [|n IH]; intros x; simpl; auto.
  apply Forall_app; split; auto.
  constructor; auto. apply Z.mod_pos_bound. lia.
Qed.

Lemma flat_map_be_bytes_length (ws : list Z) :
  length (flat_map (Sha256.be_bytes 4) ws) = (4 * length ws)%nat.
Proof.
  induction ws as [|w ws IH]; [reflexivity|]. cbn [flat_map length].
  rewrite length_app, be_bytes_length, IH. lia.
Qed.

Lemma digest_length (msg : list Z) : length (Sha256.digest msg) = 32%nat.
Proof.
  unfold Sha256.digest.
  rewrite flat_map_be_bytes_length, fold_compress_length. reflexivity.
Qed.

Lemma digest_range (msg : list Z) :
  Forall (fun b => 0 <= b < 256) (Sha256.digest msg).
Proof.
  unfold Sha256.digest.
  induction (fold_left Sha256.compress _ _) as [|w ws IH]; [constructor|].
  cbn [flat_map]. apply Forall_app; split; auto. apply be_bytes_range.
Qed.

Lemma hmac_length (key msg : list Z) : length (Sha256.hmac key msg) = 32%nat.
Proof. unfold Sha256.hmac. apply digest_length. Qed.

Lemma hmac_range (key msg : list Z) :
  Forall (fun b => 0 <= b < 256) (Sha256.hmac key msg).
Proof. unfold Sha256.hmac. apply digest_range. Qed.

Lemma length_string_of_list_ascii (l : list ascii) :
  String.length (string_of_list_ascii l) = length l.
Proof. induction l as [|c l IH]; simpl; auto. Qed.

Lemma hex_of_bytes_length (b : list Z) :
  String.length (hex_of_bytes b) = (2 * length b)%nat.
Proof.
  unfold hex_of_bytes. rewrite length_string_of_list_ascii.
  induction b as [|x b IH]; simpl; auto. rewrite IH. lia.
Qed.

Lemma hex_char_ok (n : Z) : 0 <= n < 16 -> is_hex_char (hex_char n) = true.
Proof.
  intros Hn.
  assert (Hall : forallb (fun k => is_hex_char (hex_char k)) (map Z.of_nat (seq 0 16)) = true)
    by reflexivity.
  rewrite forallb_forall in Hall. apply Hall, in_map_iff.
  exists (Z.to_nat n). split; [apply Z2Nat.id; lia|]. apply in_seq. lia.
Qed.

Lemma hex_of_bytes_chars (b : list Z) :
  Forall (fun x => 0 <= x < 256) b ->
  Forall (fun c => is_hex_char c = true) (list_ascii_of_string (hex_of_bytes b)).
Proof.
  unfold hex_of_bytes. rewrite list_ascii_of_string_of_list_ascii.
  induction 1 as [|x b Hx Hb IH]; simpl; auto.
  constructor; [apply hex_char_ok | constructor; [apply hex_char_ok | exact IH]].
  - split; [apply Z.div_pos; lia | apply Z.div_lt_upper_bound; lia].
  - apply Z.mod_pos_bound; lia.
Qed.

Lemma substring_prefix_length (n : nat) (s : string) :
  (n <= String.length s)%nat -> String.length (substring 0 n s) = n.
Proof.
  revert n; induction s as [|c s IH]; intros n Hn; destruct n; simpl in *; auto; try lia.
  rewrite IH; auto. lia.
Qed.

Lemma substring_prefix_chars (n : nat) (s : string) (P : ascii -> Prop) :
  Forall P (list_ascii_of_string s) ->
  Forall P (list_ascii_of_string (substring 0 n s)).
Proof.
  revert n; induction s as [|c s IH]; intros n Hs; destruct n; simpl in *; auto.
  inversion Hs; subst. constructor; auto.
Qed.

(** *** The role ARN matcher *)

Lemma list_ascii_of_string_app (a b : string) :
  list_ascii_of_string (a ++ b)%string = list_ascii_of_string a ++ list_ascii_of_string b.
Proof. induction a as [|c a IH]; simpl; congruence. Qed.

Lemma list_ascii_of_string_inj (a b : string) :
  list_ascii_of_string a = list_ascii_of_string b -> a = b.
Proof.
  intros H. rewrite <- (string_of_list_ascii_of_string a), <- (string_of_list_ascii_of_string b).
  now rewrite H.
Qed.

Lemma length_list_ascii_of_string (s : string) :
  length (list_ascii_of_string s) = String.length s.
Proof. induction s as [|c s IH]; simpl; auto. Qed.

Lemma regex_lit_match (p : string) (s : list ascii) (k : list ascii -> bool) :
  regex_match (regex_lit p) s k = true <->
  exists rest, s = list_ascii_of_string p ++ rest /\ k rest = true.
Proof.
  revert s; induction p as [|c p IH]; intros s; simpl.
  - split; [intros H; now exists s | intros (rest & -> & H); exact H].
  - destruct s as [|x s]; simpl.
    + split; [discriminate | intros (rest & H & _); discriminate].
    + rewrite andb_true_iff, Ascii.eqb_eq, IH. split.
      * intros (-> & rest & -> & Hk). now exists rest.
      * intros (rest & Hs & Hk). injection Hs as -> ->. split; [reflexivity|]. now exists rest.
Qed.

Lemma repeat_digit_match (n : nat) (s : list ascii) (k : list ascii -> bool) :
  regex_match (RRepeat n RDigit) s k = true <->
  exists d rest, length d = n /\ Forall (fun c => is_digit c = true) d /\
                 s = d ++ rest /\ k rest = true.
Proof.
  revert s; induction n as [|n IH]; intros s.
  - simpl. split.
    + intros H. exists [], s. repeat split; auto.
    + intros ([|? ?] & rest & Hl & _ & -> & Hk); [exact Hk | discriminate].
  - change (regex_match (RRepeat (S n) RDigit) s k)
      with (regex_match RDigit s (fun s' => regex_match (RRepeat n RDigit) s' k)).
    destruct s as [|x s].
    + split; [discriminate|].
      intros ([|? ?] & rest & Hl & _ & H & _); discriminate.
    + change (regex_match RDigit (x :: s) ?k') with (is_digit x && k' s).
      rewrite andb_true_iff, IH. split.
      * intros (Hx & d & rest & Hl & Hd & -> & Hk).
        exists (x :: d), rest. repeat split; simpl; auto.
      * intros ([|y d] & rest & Hl & Hd & Hs & Hk); [discriminate|].
        injection Hs as -> ->. inversion Hd; subst.
        split; auto. exists d, rest. simpl in Hl. repeat split; auto.
Qed.

Lemma roleArnPattern_test_iff (arn : string) :
  regex_test_anchored roleArnPattern arn = true <-> arn_conforms arn.
Proof.
  unfold regex_test_anchored, roleArnPattern, arn_conforms.
  set (kend := fun rest : list ascii => match rest with [] => true | _ => false end).
  change (regex_match (RSeq (regex_lit "arn:aws:iam::") ?r2) ?l kend)
    with (regex_match (regex_lit "arn:aws:iam::") l (fun s' => regex_match r2 s' kend)).
  rewrite regex_lit_match. split.
  - intros (rest1 & Hl & H1).
    change (regex_match (RRepeat 12 RDigit) rest1
              (fun s'' => regex_match (regex_lit ":role/EBSVolumeManager-CustomerRole") s'' kend)
            = true) in H1.
    apply repeat_digit_match in H1 as (d & rest2 & Hlen & Hd & -> & H2).
    apply regex_lit_match in H2 as (rest3 & -> & H3).
    destruct rest3; [|discriminate].
    exists (string_of_list_ascii d). repeat split.
    + rewrite <- length_list_ascii_of_string, list_ascii_of_string_of_list_ascii. exact Hlen.
    + rewrite list_ascii_of_string_of_list_ascii. exact Hd.
    + apply list_ascii_of_string_inj.
      rewrite Hl, !list_ascii_of_string_app, list_ascii_of_string_of_list_ascii, app_nil_r.
      reflexivity.
  - intros (account & Hlen & Hd & ->).
    exists (list_ascii_of_string (account ++ ":role/EBSVolumeManager-CustomerRole")%string).
    split; [now rewrite list_ascii_of_string_app|].
    change (regex_match (RRepeat 12 RDigit)
              (list_ascii_of_string (account ++ ":role/EBSVolumeManager-CustomerRole")%string)
              (fun s'' => regex_match (regex_lit ":role/EBSVolumeManager-CustomerRole") s'' kend)
            = true).
    apply repeat_digit_match.
    exists (list_ascii_of_string account),
           (list_ascii_of_string ":role/EBSVolumeManager-CustomerRole").
    rewrite length_list_ascii_of_string. refine (conj Hlen (conj Hd (conj _ _))).
    + apply list_ascii_of_string_app.
    + apply regex_lit_match. exists []. rewrite app_nil_r. split; reflexivity.
Qed.

Example arn_test_ok :
  regex_test_anchored roleArnPattern "arn:aws:iam::123456789012:role/EBSVolumeManager-CustomerRole" = true.
Proof. reflexivity. Qed.
Example arn_test_bad :
  regex_test_anchored roleArnPattern "arn:aws:iam::12345678901:role/EBSVolumeManager-CustomerRole" = false.
Proof. reflexivity. Qed.

(** *** Credential validation *)

Ltac run_validate :=
  unfold validateAccountOwnership, catch, bind, perform, ret; simpl.

(** C1: the validator accepts exactly when the tenant-scoped lookup of the
    account returns a row that is active, whose role ARN is string-equal to
    the claimed one, and whose stored external id as well as the claimed
    external id equal the one recomputed from (tenantId, accountId); an
    empty or failed lookup gives false. *)
Theorem validateAccountOwnership_iff (env : Env) (tenantId accountId roleArn externalId : string)
    (h : list call) :
  fst (validateAccountOwnership env tenantId accountId roleArn externalId h) = Ok true <->
  exists account rest,
    env_accounts env h tenantId accountId = Ok (account :: rest) /\
    is_active account = Some true /\
    role_arn account = roleArn /\
    external_id account = generateExternalId (env_secret env) tenantId accountId /\
    externalId = generateExternalId (env_secret env) tenantId accountId.
Proof.
  run_validate.
  destruct (env_accounts env h tenantId accountId) as [[|account rest]|e]; simpl;
    [ split; [discriminate | intros (? & ? & H & _); discriminate] | |
      split; [discriminate | intros (? & ? & H & _); discriminate] ].
  destruct (is_active account) as [[|]|] eqn:Hact; simpl;
    [ | split; [discriminate| intros (a' & r' & Heq & H1 & _); injection Heq as <- <-; congruence]
      | split; [discriminate| intros (a' & r' & Heq & H1 & _); injection Heq as <- <-; congruence] ].
  destruct (String.eqb_spec (role_arn account) roleArn) as [Harn|Harn]; simpl;
    [ | split; [discriminate| intros (a' & r' & Heq & H1 & H2 & _); injection Heq as <- <-; congruence] ].
  destruct (String.eqb_spec (external_id account) externalId) as [Hs|Hs];
    destruct (String.eqb_spec externalId (generateExternalId (env_secret env) tenantId accountId))
      as [Hc|Hc]; simpl.
  - split; [intros _ | reflexivity].
    exists account, rest. repeat split; auto. congruence.
  - split; [discriminate|]. intros (a' & r' & Heq & H1 & H2 & H3 & H4). congruence.
  - split; [discriminate|]. intros (a' & r' & Heq & H1 & H2 & H3 & H4).
    injection Heq as <- <-. congruence.
  - split; [discriminate|]. intros (a' & r' & Heq & H1 & H2 & H3 & H4). congruence.
Qed.

Lemma validateAccountOwnership_trace (env : Env) (tenantId accountId roleArn externalId : string)
    (h : list call) :
  exists b, validateAccountOwnership env tenantId accountId roleArn externalId h
            = (Ok b, h ++ [CQueryAccount tenantId accountId]).
Proof.
  run_validate.
  destruct (env_accounts env h tenantId accountId) as [[|account rest]|e]; simpl; eauto.
  destruct (match is_active account with Some b => b | None => false end); simpl; eauto.
  destruct (String.eqb (role_arn account) roleArn); simpl; eauto.
  destruct (_ || _); simpl; eauto.
Qed.

(** C10: the validator never rejects: whatever the lookup does, it resolves
    to a boolean after issuing only the account lookup; a failed lookup
    (a thrown database error) resolves to false, and the scan then aborts
    with the invalid-credentials error, not with the database error. *)
Theorem validation_never_throws (env : Env) (request : ScanRequest) (h : list call) :
  (exists b, validateAccountOwnership env (tenantId request) (accountId request)
               (roleArn request) (externalId request) h
             = (Ok b, h ++ [CQueryAccount (tenantId request) (accountId request)])) /\
  (forall e, env_accounts env h (tenantId request) (accountId request) = Err e ->
     validateAccountOwnership env (tenantId request) (accountId request)
       (roleArn request) (externalId request) h
     = (Ok false, h ++ [CQueryAccount (tenantId request) (accountId request)]) /\
     processScanRequest env request h
     = (Err "Invalid account credentials or ownership",
        h ++ [CQueryAccount (tenantId request) (accountId request)])).
Proof.
  split; [apply validateAccountOwnership_trace|].
  intros e He.
  assert (Hv : validateAccountOwnership env (tenantId request) (accountId request)
                 (roleArn request) (externalId request) h
               = (Ok false, h ++ [CQueryAccount (tenantId request) (accountId request)]))
    by (run_validate; rewrite He; reflexivity).
  split; [exact Hv|].
  unfold processScanRequest. unfold bind at 1. rewrite Hv. reflexivity.
Qed.

(** *** The scan gate *)

Lemma processScanRequest_rejected (env : Env) (request : ScanRequest) (h : list call) :
  fst (validateAccountOwnership env (tenantId request) (accountId request)
         (roleArn request) (externalId request) h) = Ok false ->
  processScanRequest env request h
  = (Err "Invalid account credentials or ownership",
     h ++ [CQueryAccount (tenantId request) (accountId request)]).
Proof.
  intros Hfalse.
  destruct (validateAccountOwnership_trace env (tenantId request) (accountId request)
              (roleArn request) (externalId request) h) as [b Hv].
  rewrite Hv in Hfalse. simpl in Hfalse. injection Hfalse as ->.
  unfold processScanRequest. unfold bind at 1. rewrite Hv. reflexivity.
Qed.

(** C3 (amended): when the validator answers false, the scan aborts before
    role assumption: [processScanRequest] issues nothing but the account
    lookup, and the handler then issues exactly one more call, the update of
    the scan record to [failed] with the invalid-credentials message; no
    role assumption, no volume store and no [in-progress] update occur. The
    handler rethrows the invalid-credentials error, unless the [failed]
    update itself throws: that error then propagates in its place. *)
Theorem rejected_scan_writes_only_failed_status (env : Env) (request : ScanRequest)
    (rest : list ScanRequest) (h : list call) :
  fst (validateAccountOwnership env (tenantId request) (accountId request)
         (roleArn request) (externalId request) h) = Ok false ->
  processScanRequest env request h
  = (Err "Invalid account credentials or ownership",
     h ++ [CQueryAccount (tenantId request) (accountId request)]) /\
  handler env (request :: rest) h
  = (match env_update_status env (h ++ [CQueryAccount (tenantId request) (accountId request)]) with
     | Ok _ => Err "Invalid account credentials or ownership"
     | Err e => Err e
     end,
     h ++ [CQueryAccount (tenantId request) (accountId request);
           CUpdateStatus "system" (scanId request) "failed"
             (Some "Invalid account credentials or ownership") None]).
Proof.
  intros Hfalse.
  pose proof (processScanRequest_rejected env request h Hfalse) as Hp.
  split; [exact Hp|].
  simpl. unfold bind at 1, catch. rewrite Hp.
  unfold bind, updateScanStatus, perform, throw.
  rewrite <- app_assoc. simpl.
  destruct (env_update_status env _); reflexivity.
Qed.

Lemma rejected_scan_writes_only_failed_status_witness :
  fst (validateAccountOwnership env_unregistered (tenantId request_1) (accountId request_1)
         (roleArn request_1) (externalId request_1) []) = Ok false /\
  (processScanRequest env_unregistered request_1 []
   = (Err "Invalid account credentials or ownership",
      [] ++ [CQueryAccount (tenantId request_1) (accountId request_1)]) /\
   handler env_unregistered [request_1] []
   = (match env_update_status env_unregistered
              ([] ++ [CQueryAccount (tenantId request_1) (accountId request_1)]) with
      | Ok _ => Err "Invalid account credentials or ownership"
      | Err e => Err e
      end,
      [] ++ [CQueryAccount (tenantId request_1) (accountId request_1);
             CUpdateStatus "system" (scanId request_1) "failed"
               (Some "Invalid account credentials or ownership") None])).
Proof.
  assert (H : fst (validateAccountOwnership env_unregistered (tenantId request_1)
                     (accountId request_1) (roleArn request_1) (externalId request_1) [])
              = Ok false) by reflexivity.
  split; [exact H|].
  exact (rejected_scan_writes_only_failed_status env_unregistered request_1 [] [] H).
Defined.

(** C3 (as claimed, refuted): with an unregistered account the validator
    answers false, yet the handler issues a data-mutating call (the update
    of the scan record to [failed]). *)
Lemma rejected_scan_mutates_counterexample :
  fst (validateAccountOwnership env_unregistered (tenantId request_1) (accountId request_1)
         (roleArn request_1) (externalId request_1) []) = Ok false /\
  existsb is_data_mutating (snd (handler env_unregistered [request_1] [])) = true.
Proof. split; vm_compute; reflexivity. Qed.

(** *** Role assumption *)

(** C7: [assumeRoleSecurely] rejects an ARN outside the allow-listed shape
    [arn:aws:iam::<12 digits>:role/EBSVolumeManager-CustomerRole] with the
    format error before any call is issued; a conforming ARN is the only
    case in which the [AssumeRoleCommand] is sent. *)
Theorem assumeRoleSecurely_gate (env : Env) (roleArn externalId sessionName : string)
    (h : list call) :
  (~ arn_conforms roleArn ->
   assumeRoleSecurely env roleArn externalId sessionName h = (Err "Invalid role ARN format", h)) /\
  (arn_conforms roleArn ->
   snd (assumeRoleSecurely env roleArn externalId sessionName h)
   = h ++ [CAssumeRole roleArn ("EBSScanner-" ++ sessionName)%string externalId
             3600 scanner_policy_actions]).
Proof.
  unfold assumeRoleSecurely.
  destruct (regex_test_anchored roleArnPattern roleArn) eqn:E; simpl.
  - apply roleArnPattern_test_iff in E. split; [intros Hn; contradiction|].
    intros _. unfold bind, perform.
    destruct (env_sts env h) as [[c|]|e]; reflexivity.
  - split; [reflexivity|].
    intros Hc. apply roleArnPattern_test_iff in Hc. congruence.
Qed.

(** *** Cost of a scanned volume *)

(** C6: the monthly cost stored in each scanned volume record follows the
    volume type: gp3 is size * 0.08 plus 0.005 per IOPS above the 3000 free
    IOPS (nothing at or below 3000), gp2 size * 0.10, io1 and io2
    size * 0.125 + iops * 0.065, st1 size * 0.045, sc1 size * 0.025, and any
    other or missing type 0.  Missing size or IOPS count as 0. *)
Theorem costPerMonth_by_type (tenantId accountInternalId region : string) (scannedAt : Z)
    (volume : Ec2Volume) :
  let cost := rec_costPerMonth (normalizeVolume tenantId accountInternalId region scannedAt volume) in
  let size := inject_Z (or_zero (Size volume)) in
  let iops := inject_Z (or_zero (Iops volume)) in
  (VolumeType volume = Some "gp3" ->
     cost = (size * (8 # 100) + Qmax 0 (iops - 3000) * (5 # 1000))%Q) /\
  (VolumeType volume = Some "gp3" -> (iops <= 3000)%Q -> (cost == size * (8 # 100))%Q) /\
  (VolumeType volume = Some "gp2" -> cost = (size * (10 # 100))%Q) /\
  (VolumeType volume = Some "io1" \/ VolumeType volume = Some "io2" ->
     cost = (size * (125 # 1000) + iops * (65 # 1000))%Q) /\
  (VolumeType volume = Some "st1" -> cost = (size * (45 # 1000))%Q) /\
  (VolumeType volume = Some "sc1" -> cost = (size * (25 # 1000))%Q) /\
  (forall t, VolumeType volume = Some t -> ~ In t ["gp3"; "gp2"; "io1"; "io2"; "st1"; "sc1"] ->
     cost = 0%Q) /\
  (VolumeType volume = None -> cost = 0%Q).
Proof.
  cbv zeta. unfold normalizeVolume, rec_costPerMonth, costPerMonth.
  repeat split.
  - intros ->. reflexivity.
  - intros -> Hle. simpl.
    rewrite (Q.max_l 0 (inject_Z (or_zero (Iops volume)) - 3000)).
    + ring.
    + apply (Qplus_le_l _ _ 3000). ring_simplify. exact Hle.
  - intros ->. reflexivity.
  - intros [-> | ->]; reflexivity.
  - intros ->. reflexivity.
  - intros ->. reflexivity.
  - intros t -> Hnin. simpl in Hnin.
    destruct (String.eqb_spec t "gp3"); [subst; tauto|].
    destruct (String.eqb_spec t "gp2"); [subst; tauto|].
    destruct (String.eqb_spec t "io1"); [subst; tauto|].
    destruct (String.eqb_spec t "io2"); [subst; tauto|].
    destruct (String.eqb_spec t "st1"); [subst; tauto|].
    destruct (String.eqb_spec t "sc1"); [subst; tauto|].
    reflexivity.
  - intros ->. reflexivity.
Qed.

Example gp3_cost_at_threshold : costPerMonth (gp3_volume 3000) == 8.
Proof. reflexivity. Qed.

Example gp3_cost_above_threshold : costPerMonth (gp3_volume 3500) == 8 + 500 * (5 # 1000).
Proof. reflexivity. Qed.

(** *** The region loop *)

Section RegionLoop.
Variables (env : Env) (credentials : Credentials) (tenantId accountInternalId : string).

Lemma scanRegion_report (tot : Z) (errs : list string) (region : string) (h : list call) :
  let r := region_report env tenantId accountInternalId h region in
  scanRegion env credentials tenantId accountInternalId (tot, errs) region h
  = (Ok (tot + rep_found r, errs ++ rep_errors r), h ++ rep_calls r).
Proof.
  cbv zeta. unfold scanRegion, scanVolumesInRegion, region_report, bind, perform.
  destruct (env_describe env h region) as [vols|e].
  - unfold storeVolumes. destruct vols as [|v vs].
    + simpl. rewrite Z.add_0_r, app_nil_r. reflexivity.
    + cbn [map fst snd]. unfold perform.
      destruct (env_store env _ _ _ _) as [u|e]; simpl; rewrite <- app_assoc;
        rewrite ?app_nil_r, ?length_map; reflexivity.
  - simpl. rewrite Z.add_0_r. reflexivity.
Qed.

Lemma scanRegions_report (rs : list string) :
  forall (tot : Z) (errs : list string) (h : list call),
  let r := regions_report env tenantId accountInternalId h rs in
  scanRegions env credentials tenantId accountInternalId (tot, errs) rs h
  = (Ok (tot + rep_found r, errs ++ rep_errors r), h ++ rep_calls r).
Proof.
  induction rs as [|region rs IH]; intros tot errs h; cbv zeta.
  - simpl. rewrite Z.add_0_r, !app_nil_r. reflexivity.
  - simpl scanRegions. unfold bind at 1. rewrite scanRegion_report.
    rewrite IH. simpl. rewrite <- !app_assoc, Z.add_assoc. reflexivity.
Qed.

End RegionLoop.

Lemma region_report_calls env t aid h region :
  forallb is_region_call (rep_calls (region_report env t aid h region)) = true.
Proof.
  unfold region_report. destruct (env_describe env h region) as [[|v vs]|e]; reflexivity.
Qed.

Lemma regions_report_calls env t aid rs :
  forall h, forallb is_region_call (rep_calls (regions_report env t aid h rs)) = true.
Proof.
  induction rs as [|region rs IH]; intros h; [reflexivity|].
  simpl. rewrite forallb_app, region_report_calls, IH. reflexivity.
Qed.

(** *** The scan orchestrator *)

(** C4 (amended): once validation, the [in-progress] update, the account id
    lookup and role assumption succeed, and with status updates succeeding,
    region failures are absorbed: every region is attempted in order, the
    scan resolves, and its last call is the [completed] update.  Its
    [volumesFound] adds the volumes of every region whose listing succeeded
    (also when storing them then failed) and its [errors] lists, in region
    order, ["<region>: <message>"] for each region whose listing or store
    threw, and is absent when there is none ([regions_report]).  Listing and
    store outcomes may depend on the earlier calls (throttling).  The handler
    issues no [failed] update for the request. *)
Theorem scan_region_failures_are_not_fatal (env : Env) (request : ScanRequest) (h : list call)
    (accountInternalId : string) (ids : list string) (credentials : Credentials) :
  let pre := [CQueryAccount (tenantId request) (accountId request);
              CUpdateStatus "system" (scanId request) "in-progress" None None;
              CQueryInternalId (tenantId request) (accountId request);
              CAssumeRole (roleArn request) ("EBSScanner-" ++ scanId request)%string
                (externalId request) 3600 scanner_policy_actions] in
  fst (validateAccountOwnership env (tenantId request) (accountId request)
         (roleArn request) (externalId request) h) = Ok true ->
  (forall h', env_update_status env h' = Ok tt) ->
  env_internal_ids env (h ++ firstn 2 pre) (tenantId request) (accountId request)
  = Ok (accountInternalId :: ids) ->
  arn_conforms (roleArn request) ->
  env_sts env (h ++ firstn 3 pre) = Ok (Some credentials) ->
  let report := regions_report env (tenantId request) accountInternalId (h ++ pre) (regions request) in
  processScanRequest env request h
  = (Ok tt,
     h ++ pre ++ rep_calls report
       ++ [CUpdateStatus "system" (scanId request) "completed" None
             (Some (completion_metrics (rep_found report) (rep_errors report)))]) /\
  forallb is_region_call (rep_calls report) = true /\
  handler env [request] h = processScanRequest env request h.
Proof.
  intros pre Hval Hupd Hids Harn Hsts report.
  unfold pre in Hids, Hsts. cbn [firstn] in Hids, Hsts.
  destruct (validateAccountOwnership_trace env (tenantId request) (accountId request)
              (roleArn request) (externalId request) h) as [b Hv].
  rewrite Hv in Hval. simpl in Hval. injection Hval as ->.
  apply roleArnPattern_test_iff in Harn.
  assert (Hp : processScanRequest env request h
    = (Ok tt,
       h ++ pre ++ rep_calls report
         ++ [CUpdateStatus "system" (scanId request) "completed" None
               (Some (completion_metrics (rep_found report) (rep_errors report)))])).
  { unfold report, pre. clear report pre.
    unfold processScanRequest. unfold bind at 1. rewrite Hv. cbn [negb].
    unfold updateScanStatus at 1, bind at 1, perform at 1. rewrite Hupd.
    unfold getAccountInternalId, bind at 1 2, perform at 1.
    rewrite <- app_assoc. cbn [app]. rewrite Hids. cbn iota beta.
    unfold ret at 1. unfold assumeRoleSecurely. rewrite Harn. cbn [negb].
    unfold bind at 1 2, perform at 1. rewrite <- app_assoc. cbn [app]. rewrite Hsts.
    unfold ret at 1. rewrite <- !app_assoc. cbn [app].
    unfold bind at 1. rewrite scanRegions_report. rewrite Z.add_0_l. cbn [app].
    unfold updateScanStatus, perform. rewrite Hupd.
    rewrite <- !app_assoc. reflexivity. }
  split; [exact Hp|]. split; [apply regions_report_calls|].
  simpl. unfold bind at 1, catch. rewrite Hp. reflexivity.
Qed.

(** Under throttling, "r1" is listed and counted and "r2" is refused; the
    records of "r1" carry the clock after its listing. *)
Lemma scan_region_failures_are_not_fatal_witness :
  let pre := [CQueryAccount (tenantId request_1) (accountId request_1);
              CUpdateStatus "system" (scanId request_1) "in-progress" None None;
              CQueryInternalId (tenantId request_1) (accountId request_1);
              CAssumeRole (roleArn request_1) ("EBSScanner-" ++ scanId request_1)%string
                (externalId request_1) 3600 scanner_policy_actions] in
  let report := regions_report env_throttled (tenantId request_1) "acc-uuid-1" ([] ++ pre) (regions request_1) in
  (processScanRequest env_throttled request_1 []
   = (Ok tt,
      [] ++ pre ++ rep_calls report
        ++ [CUpdateStatus "system" (scanId request_1) "completed" None
              (Some (completion_metrics (rep_found report) (rep_errors report)))]) /\
   forallb is_region_call (rep_calls report) = true /\
   handler env_throttled [request_1] [] = processScanRequest env_throttled request_1 []) /\
  rep_found report = 3 /\ rep_errors report = ["r2: Rate exceeded"].
Proof.
  assert (Hval : fst (validateAccountOwnership env_throttled
                        (tenantId request_1) (accountId request_1) (roleArn request_1)
                        (externalId request_1) []) = Ok true) by (vm_compute; reflexivity).
  assert (Harn : arn_conforms (roleArn request_1)).
  { exists "123456789012". split; [reflexivity|]. split; [repeat constructor|reflexivity]. }
  split.
  - exact (scan_region_failures_are_not_fatal env_throttled request_1 []
             "acc-uuid-1" [] sample_credentials
             Hval (fun _ => eq_refl) eq_refl Harn eq_refl).
  - split; vm_compute; reflexivity.
Defined.

(** Scenario: "r1" lists three volumes and "r2" times out; the scan
    completes with three volumes found and one error, for "r2". *)
Example scan_r1_ok_r2_fails :
  let run := processScanRequest (env_regions describe_r1_ok_r2_fails store_ok) request_1 [] in
  fst run = Ok tt /\
  last (snd run) (CDescribeVolumes "")
  = CUpdateStatus "system" "scan-1" "completed" None
      (Some {| volumesFound := 3; errors := Some ["r2: Request timed out"] |}).
Proof. split; vm_compute; reflexivity. Qed.

(** C4 (as claimed, refuted): "r1" lists three volumes but storing them
    fails, "r2" lists none.  The scan completes with "r1" among the failed
    regions in [errors], yet its three volumes are counted in
    [volumesFound] (the claim counts only successfully scanned regions,
    here none, so 0). *)
Lemma store_failure_counted_counterexample :
  let run := processScanRequest (env_regions describe_r1_three store_fails) request_1 [] in
  fst run = Ok tt /\
  last (snd run) (CDescribeVolumes "")
  = CUpdateStatus "system" "scan-1" "completed" None
      (Some {| volumesFound := 3; errors := Some ["r1: connection refused"] |}).
Proof. split; vm_compute; reflexivity. Qed.

(** *** The volume upsert *)

(** Inverting a chain of [let?] that succeeded. *)
Ltac pg_ok_steps H :=
  repeat match type of H with
  | pg_bind ?m _ = PgOk _ =>
      let E := fresh "E" in
      destruct m eqn:E; cbn [pg_bind] in H; [|discriminate H]
  end.

Example uuid_in_canonical :
  uuid_in "{6F1C2D3E4A5B-4C6D-8E7F-0A1B2C3D4E5F}" = Some "6f1c2d3e-4a5b-4c6d-8e7f-0a1b2c3d4e5f".
Proof. vm_compute. reflexivity. Qed.

Example uuid_in_refuses_label : uuid_in "tenant-a" = None.
Proof. vm_compute. reflexivity. Qed.

(** An sc1 volume of 1 GiB costs 0.025 a month and is stored as 0.03. *)
Example sc1_one_gib_cost_stored : numeric_10_2 (25 # 1000) = PgOk (3 # 100).
Proof. vm_compute. reflexivity. Qed.

Example varchar_truncates_spaces_only :
  varchar_coerce 3 "ab   " = PgOk "ab " /\ varchar_coerce 3 "abcd" = PgErr (ValueTooLong 3).
Proof. split; vm_compute; reflexivity. Qed.

Lemma bind_uuid_ok i s u : bind_uuid i s = PgOk u -> uuid_in s = Some u.
Proof.
  unfold bind_uuid, pg_bind. destruct (bind_text i (Some s)); [|discriminate].
  destruct (uuid_in s); congruence.
Qed.

Lemma bind_params_ok t aid v ids :
  bind_params t aid v = PgOk ids -> uuid_in t = Some (fst ids).
Proof.
  unfold bind_params. intros H. pg_ok_steps H.
  injection H as <-. simpl. eapply bind_uuid_ok. eassumption.
Qed.

Lemma varchar_opt_some n s s' : varchar_opt n (Some s) = PgOk (Some s') -> varchar_coerce n s = PgOk s'.
Proof.
  unfold varchar_opt, pg_bind. destruct (varchar_coerce n s); [|discriminate].
  intros H. injection H as ->. reflexivity.
Qed.

Lemma varchar_opt_none n s : varchar_opt n s = PgOk None -> s = None.
Proof.
  unfold varchar_opt, pg_bind. destruct s as [s|]; [|reflexivity].
  destruct (varchar_coerce n s); discriminate.
Qed.

Lemma coerce_columns_ok v c :
  coerce_columns v = PgOk c ->
  varchar_opt 255 (rec_volumeId v) = PgOk (c_volume_id c) /\
  varchar_coerce 50 (rec_state v) = PgOk (c_state c) /\
  varchar_opt 255 (rec_instanceId v) = PgOk (c_instance_id c) /\
  varchar_opt 50 (rec_device v) = PgOk (c_device c) /\
  numeric_10_2 (rec_costPerMonth v) = PgOk (c_cost c).
Proof.
  unfold coerce_columns. intros H. pg_ok_steps H.
  injection H as <-. simpl. repeat split; assumption.
Qed.

Lemma excluded_row_inv now fid t aid v x :
  excluded_row now fid t aid v = PgOk x ->
  exists ids c vid,
    bind_params t aid v = PgOk ids /\ coerce_columns v = PgOk c /\ c_volume_id c = Some vid /\
    x = {|
      id := fid; tenant_id := fst ids; aws_account_id := snd ids;
      volume_id := vid; size_gb := rec_size v; volume_type := c_volume_type c;
      state := c_state c; encrypted := rec_encrypted v; kms_key_id := c_kms_key_id c;
      region := c_region c; availability_zone := c_availability_zone c;
      created_at := rec_createTime v; iops := rec_iops v; throughput := rec_throughput v;
      instance_id := c_instance_id c; device := c_device c; attached_at := rec_attachTime v;
      cost_per_month := c_cost c; utilization_percent := None; tags := rec_tags v;
      last_scanned_at := rec_scannedAt v; updated_at := now
    |}.
Proof.
  unfold excluded_row. intros H. pg_ok_steps H.
  destruct (c_volume_id _) as [vid|] eqn:Ev; [|discriminate H].
  injection H as <-. eauto 10.
Qed.

(** The proposed row carries the canonical tenant uuid and the stored
    volume id, and the observed columns as stored. *)
Lemma excluded_row_key now fid t aid v x :
  excluded_row now fid t aid v = PgOk x ->
  tenant_id x = tenant_key t /\
  exists vid, rec_volumeId v = Some vid /\ volume_id x = volume_key vid.
Proof.
  intros H. destruct (excluded_row_inv now fid t aid v x H) as (ids & c & vid & Hb & Hc & Hv & ->).
  simpl. split.
  - unfold tenant_key. rewrite (bind_params_ok t aid v ids Hb). reflexivity.
  - destruct (coerce_columns_ok v c Hc) as (Hid & _).
    rewrite Hv in Hid. destruct (rec_volumeId v) as [raw|] eqn:Er; [|discriminate Hid].
    exists raw. split; [reflexivity|]. unfold volume_key.
    rewrite (varchar_opt_some 255 raw vid Hid). reflexivity.
Qed.

Lemma excluded_row_observed now fid t aid v x :
  excluded_row now fid t aid v = PgOk x -> observed_from v now x.
Proof.
  intros H. destruct (excluded_row_inv now fid t aid v x H) as (ids & c & vid & Hb & Hc & Hv & ->).
  destruct (coerce_columns_ok v c Hc) as (_ & Hs & Hi & Hd & Hq).
  unfold observed_from; simpl. repeat split; assumption.
Qed.

(** The same record scanned again at an acceptable time [s] proposes the
    same row with the new [id], scan time and [now]. *)
Lemma excluded_row_rescan now1 now2 fid1 fid2 t aid v s x :
  excluded_row now1 fid1 t aid v = PgOk x ->
  bind_timestamp 19 (Some s) = PgOk tt ->
  excluded_row now2 fid2 t aid (with_scannedAt v s) = PgOk (restamp fid2 now2 s x).
Proof.
  unfold excluded_row.
  change (bind_params t aid (with_scannedAt v s)) with (bind_params t aid v).
  change (coerce_columns (with_scannedAt v s)) with (coerce_columns v).
  change (rec_scannedAt (with_scannedAt v s)) with s.
  intros H Hs.
  destruct (bind_params t aid v) as [ids|e]; cbn [pg_bind] in H |- *; [|discriminate H].
  destruct (bind_timestamp 19 (Some (rec_scannedAt v))) as [[]|e]; cbn [pg_bind] in H; [|discriminate H].
  rewrite Hs. cbn [pg_bind].
  destruct (coerce_columns v) as [c|e]; cbn [pg_bind] in H |- *; [|discriminate H].
  destruct (c_volume_id c) as [vid|]; [|discriminate H].
  injection H as <-. reflexivity.
Qed.

Lemma row_key_is_conflict_update (t vid : string) (now : Z) (x r : VolumeRow) :
  row_key_is t vid (conflict_update now x r) = row_key_is t vid r.
Proof. reflexivity. Qed.

Lemma filter_key_map_update (t vid : string) (now : Z) (x : VolumeRow) (table : list VolumeRow) :
  filter (row_key_is t vid)
    (map (fun r => if row_key_is t vid r then conflict_update now x r else r) table)
  = map (conflict_update now x) (filter (row_key_is t vid) table).
Proof.
  induction table as [|r table IH]; simpl; auto.
  destruct (row_key_is t vid r) eqn:E; simpl; rewrite ?row_key_is_conflict_update, ?E, IH; auto.
Qed.

Lemma filter_other_map_update (t vid : string) (now : Z) (x : VolumeRow) (table : list VolumeRow) :
  filter (fun r => negb (row_key_is t vid r))
    (map (fun r => if row_key_is t vid r then conflict_update now x r else r) table)
  = filter (fun r => negb (row_key_is t vid r)) table.
Proof.
  induction table as [|r table IH]; simpl; auto.
  destruct (row_key_is t vid r) eqn:E; simpl; rewrite ?row_key_is_conflict_update, ?E, IH; auto.
Qed.

Lemma row_key_is_spec (t vid : string) (r : VolumeRow) :
  row_key_is t vid r = true <-> (tenant_id r, volume_id r) = (t, vid).
Proof.
  unfold row_key_is. rewrite andb_true_iff, !String.eqb_eq. split.
  - intros [-> ->]. reflexivity.
  - intros H. injection H as -> ->. auto.
Qed.

Lemma key_in_keys (t vid : string) (table : list VolumeRow) (y : VolumeRow) :
  In y table -> row_key_is t vid y = true ->
  In (t, vid) (map (fun r => (tenant_id r, volume_id r)) table).
Proof.
  intros Hy Ey. apply row_key_is_spec in Ey. rewrite <- Ey.
  apply (in_map (fun r => (tenant_id r, volume_id r))). exact Hy.
Qed.

Lemma filter_key_unique (t vid : string) (table : list VolumeRow) (r : VolumeRow) :
  keys_unique table -> In r table -> row_key_is t vid r = true ->
  filter (row_key_is t vid) table = [r].
Proof.
  unfold keys_unique. induction table as [|x table IH]; intros Hnd Hin Hr; [destruct Hin|].
  simpl in Hnd. inversion Hnd as [|? ? Hnotin Hnd']; subst.
  destruct Hin as [<- | Hin].
  - simpl. rewrite Hr. f_equal.
    apply row_key_is_spec in Hr. rewrite Hr in Hnotin.
    destruct (filter (row_key_is t vid) table) as [|y ys] eqn:Ef; auto.
    exfalso. apply Hnotin.
    assert (Hy : In y (filter (row_key_is t vid) table)) by (rewrite Ef; left; reflexivity).
    apply filter_In in Hy as [Hy Ey]. exact (key_in_keys t vid table y Hy Ey).
  - simpl. destruct (row_key_is t vid x) eqn:Ex.
    + exfalso. apply Hnotin. apply row_key_is_spec in Ex. rewrite Ex.
      exact (key_in_keys t vid table r Hin Hr).
    + exact (IH Hnd' Hin Hr).
Qed.

Lemma filter_key_absent (t vid : string) (table : list VolumeRow) :
  existsb (row_key_is t vid) table = false -> filter (row_key_is t vid) table = [].
Proof.
  induction table as [|x table IH]; simpl; auto.
  destruct (row_key_is t vid x); simpl; [discriminate | exact IH].
Qed.

Lemma filter_other_absent (t vid : string) (table : list VolumeRow) :
  existsb (row_key_is t vid) table = false ->
  filter (fun r => negb (row_key_is t vid r)) table = table.
Proof.
  induction table as [|x table IH]; simpl; auto.
  destruct (row_key_is t vid x); simpl; [discriminate | intros H; rewrite IH; auto].
Qed.

Lemma existsb_key_filter (t vid : string) (table : list VolumeRow) :
  existsb (row_key_is t vid) table = negb (match filter (row_key_is t vid) table with [] => true | _ => false end).
Proof.
  induction table as [|x table IH]; simpl; auto.
  destruct (row_key_is t vid x); simpl; auto.
Qed.

Lemma row_key_is_self (x : VolumeRow) : row_key_is (tenant_id x) (volume_id x) x = true.
Proof. unfold row_key_is. rewrite !String.eqb_refl. reflexivity. Qed.

Lemma conflict_update_contract (now : Z) (x r : VolumeRow) :
  same_identity r (conflict_update now x r) /\ same_unlisted r (conflict_update now x r).
Proof. unfold same_identity, same_unlisted; simpl; repeat split. Qed.

Lemma observed_from_update (v : VolumeRecord) (now0 now : Z) (x r : VolumeRow) :
  observed_from v now0 x -> observed_from v now (conflict_update now x r).
Proof.
  unfold observed_from; simpl. intros (? & ? & ? & ? & ? & ? & ? & _). repeat split; assumption.
Qed.

(** The upsert at a conflict on the key of the proposed row [x]. *)
Lemma upsert_volume_conflict tenants accounts now fid t aid v table x r :
  excluded_row now fid t aid v = PgOk x ->
  filter (row_key_is (tenant_id x) (volume_id x)) table = [r] ->
  exists table',
    upsert_volume tenants accounts now fid t aid v table = PgOk table' /\
    filter (row_key_is (tenant_id x) (volume_id x)) table' = [conflict_update now x r] /\
    filter (fun y => negb (row_key_is (tenant_id x) (volume_id x) y)) table'
    = filter (fun y => negb (row_key_is (tenant_id x) (volume_id x) y)) table.
Proof.
  intros Hx Hf. unfold upsert_volume. rewrite Hx. cbn [pg_bind].
  rewrite existsb_key_filter, Hf. simpl.
  eexists. split; [reflexivity|]. split.
  - rewrite filter_key_map_update, Hf. reflexivity.
  - apply filter_other_map_update.
Qed.

(** A successful upsert leaves one row [r1] for the key of its proposed
    row [x], holding the observed columns of [x], and no other key touched. *)
Lemma upsert_volume_ok_inv tenants accounts now fid t aid v table table1 :
  keys_unique table ->
  upsert_volume tenants accounts now fid t aid v table = PgOk table1 ->
  exists x r1,
    excluded_row now fid t aid v = PgOk x /\
    filter (row_key_is (tenant_id x) (volume_id x)) table1 = [r1] /\
    state r1 = state x /\ instance_id r1 = instance_id x /\ device r1 = device x /\
    attached_at r1 = attached_at x /\ cost_per_month r1 = cost_per_month x /\
    tags r1 = tags x /\ last_scanned_at r1 = last_scanned_at x /\
    filter (fun y => negb (row_key_is (tenant_id x) (volume_id x) y)) table1
    = filter (fun y => negb (row_key_is (tenant_id x) (volume_id x) y)) table.
Proof.
  intros Hu H. pose proof H as H0. unfold upsert_volume in H.
  destruct (excluded_row now fid t aid v) as [x|e] eqn:Ex; cbn [pg_bind] in H; [|discriminate H].
  exists x.
  destruct (existsb (row_key_is (tenant_id x) (volume_id x)) table) eqn:Eb.
  - apply existsb_exists in Eb as [r [Hin Hr]].
    pose proof (filter_key_unique _ _ table r Hu Hin Hr) as Hf.
    destruct (upsert_volume_conflict tenants accounts now fid t aid v table x r Ex Hf)
      as (table' & H1 & H2 & H3).
    rewrite H0 in H1. injection H1 as <-.
    exists (conflict_update now x r). repeat split; auto.
  - destruct (existsb (fun r => String.eqb (id r) (id x)) table); [discriminate H|].
    destruct (negb (existsb (String.eqb (tenant_id x)) tenants)); [discriminate H|].
    destruct (negb (existsb (String.eqb (aws_account_id x)) accounts)); [discriminate H|].
    injection H as <-. exists x.
    rewrite !filter_app, filter_key_absent, filter_other_absent by exact Eb. simpl.
    rewrite row_key_is_self. simpl. repeat split; auto. apply app_nil_r.
Qed.

(** C5: an upsert that reaches the conflict check (its parameters and
    columns were accepted, giving the proposed row [x], keyed by the
    canonical tenant uuid and the stored volume id) and finds a row [r] of
    that key updates it: one row remains for the key, with the identity
    columns (id, tenant, account, volume id, creation time) and every
    column outside the [DO UPDATE SET] list kept, and the observed columns
    (state, attachment columns, cost, tags, last_scanned_at) set to the
    record's values as the columns store them (texts after their VARCHAR
    coercion, the cost rounded to cents), updated_at to the transaction
    time; rows of other keys are untouched.  Once a record was stored,
    applying it again with an acceptable later scan time leaves one row
    for the key, with the same identity and observed values, and only
    last_scanned_at and updated_at refreshed. *)
Theorem volume_upsert_contract (tenants accounts : list string) (now1 now2 s2 : Z)
    (fid1 fid2 t aid : string) (v : VolumeRecord) (x : VolumeRow) (table table1 : list VolumeRow) :
  keys_unique table ->
  (excluded_row now1 fid1 t aid v = PgOk x ->
   tenant_id x = tenant_key t /\
   (exists vid, rec_volumeId v = Some vid /\ volume_id x = volume_key vid) /\
   forall r, In r table -> row_key_is (tenant_id x) (volume_id x) r = true ->
     exists table' r',
       upsert_volume tenants accounts now1 fid1 t aid v table = PgOk table' /\
       filter (row_key_is (tenant_id x) (volume_id x)) table' = [r'] /\
       same_identity r r' /\ same_unlisted r r' /\ observed_from v now1 r' /\
       filter (fun y => negb (row_key_is (tenant_id x) (volume_id x) y)) table'
       = filter (fun y => negb (row_key_is (tenant_id x) (volume_id x) y)) table) /\
  (upsert_volume tenants accounts now1 fid1 t aid v table = PgOk table1 ->
   bind_timestamp 19 (Some s2) = PgOk tt ->
   exists y r1 table2 r2,
     excluded_row now1 fid1 t aid v = PgOk y /\
     filter (row_key_is (tenant_id y) (volume_id y)) table1 = [r1] /\
     upsert_volume tenants accounts now2 fid2 t aid (with_scannedAt v s2) table1 = PgOk table2 /\
     filter (row_key_is (tenant_id y) (volume_id y)) table2 = [r2] /\
     same_identity r1 r2 /\ same_unlisted r1 r2 /\
     state r2 = state r1 /\ instance_id r2 = instance_id r1 /\ device r2 = device r1 /\
     attached_at r2 = attached_at r1 /\ cost_per_month r2 = cost_per_month r1 /\
     tags r2 = tags r1 /\ last_scanned_at r2 = s2 /\ updated_at r2 = now2 /\
     filter (fun z => negb (row_key_is (tenant_id y) (volume_id y) z)) table2
     = filter (fun z => negb (row_key_is (tenant_id y) (volume_id y) z)) table1).
Proof.
  intros Hu. split.
  - intros Hx. destruct (excluded_row_key now1 fid1 t aid v x Hx) as (Ht & Hv).
    split; [exact Ht|]. split; [exact Hv|].
    intros r Hin Hr.
    pose proof (filter_key_unique _ _ table r Hu Hin Hr) as Hf.
    destruct (upsert_volume_conflict tenants accounts now1 fid1 t aid v table x r Hx Hf)
      as (table' & H1 & H2 & H3).
    destruct (conflict_update_contract now1 x r) as (Hi & Hn).
    exists table', (conflict_update now1 x r).
    split; [exact H1|]. split; [exact H2|]. split; [exact Hi|]. split; [exact Hn|].
    split; [|exact H3].
    apply (observed_from_update v now1). exact (excluded_row_observed now1 fid1 t aid v x Hx).
  - intros H1 Hs.
    destruct (upsert_volume_ok_inv tenants accounts now1 fid1 t aid v table table1 Hu H1)
      as (y & r1 & Hy & Hf1 & Hst & Hin & Hdv & Hat & Hc & Htg & Hls & _).
    pose proof (excluded_row_rescan now1 now2 fid1 fid2 t aid v s2 y Hy Hs) as Hy2.
    assert (Hf1' : filter (row_key_is (tenant_id (restamp fid2 now2 s2 y)) (volume_id (restamp fid2 now2 s2 y))) table1 = [r1])
      by exact Hf1.
    destruct (upsert_volume_conflict tenants accounts now2 fid2 t aid (with_scannedAt v s2) table1
                (restamp fid2 now2 s2 y) r1 Hy2 Hf1') as (table2 & H2 & Hf2 & Hn2).
    destruct (conflict_update_contract now2 (restamp fid2 now2 s2 y) r1) as (Hi & Hn).
    exists y, r1, table2, (conflict_update now2 (restamp fid2 now2 s2 y) r1).
    simpl in Hf2, Hn2. simpl.
    repeat split; auto.
Qed.

Lemma volume_upsert_contract_witness :
  keys_unique earlier_table /\
  exists x table1,
    excluded_row sample_now "a0000000-0000-4000-8000-000000000001" tenant_a account_a sample_record = PgOk x /\
    upsert_volume known_tenants known_accounts sample_now "a0000000-0000-4000-8000-000000000001"
      tenant_a account_a sample_record earlier_table = PgOk table1 /\
    bind_timestamp 19 (Some (sample_now + 1000)) = PgOk tt /\
    (exists r, In r earlier_table /\ row_key_is (tenant_id x) (volume_id x) r = true) /\
    (forall r, In r earlier_table -> row_key_is (tenant_id x) (volume_id x) r = true ->
       exists table' r',
         upsert_volume known_tenants known_accounts sample_now "a0000000-0000-4000-8000-000000000001"
           tenant_a account_a sample_record earlier_table = PgOk table' /\
         filter (row_key_is (tenant_id x) (volume_id x)) table' = [r'] /\
         same_identity r r' /\ same_unlisted r r' /\ observed_from sample_record sample_now r') /\
    (exists y r1 table2 r2,
       excluded_row sample_now "a0000000-0000-4000-8000-000000000001" tenant_a account_a sample_record = PgOk y /\
       filter (row_key_is (tenant_id y) (volume_id y)) table1 = [r1] /\
       upsert_volume known_tenants known_accounts (sample_now + 1000) "a0000000-0000-4000-8000-000000000003"
         tenant_a account_a (with_scannedAt sample_record (sample_now + 1000)) table1 = PgOk table2 /\
       filter (row_key_is (tenant_id y) (volume_id y)) table2 = [r2] /\
       same_identity r1 r2 /\ same_unlisted r1 r2 /\ last_scanned_at r2 = sample_now + 1000).
Proof.
  assert (Hu : keys_unique earlier_table).
  { vm_compute. constructor; [intros [H|[]]; discriminate H|constructor; [intros []|constructor]]. }
  split; [exact Hu|].
  destruct (excluded_row sample_now "a0000000-0000-4000-8000-000000000001" tenant_a account_a sample_record)
    as [x|e] eqn:Hx; [|vm_compute in Hx; discriminate Hx].
  destruct (upsert_volume known_tenants known_accounts sample_now "a0000000-0000-4000-8000-000000000001"
              tenant_a account_a sample_record earlier_table) as [table1|e] eqn:H1;
    [|vm_compute in H1; discriminate H1].
  exists x, table1.
  assert (Hs : bind_timestamp 19 (Some (sample_now + 1000)) = PgOk tt) by (vm_compute; reflexivity).
  destruct (volume_upsert_contract known_tenants known_accounts sample_now (sample_now + 1000)
              (sample_now + 1000) "a0000000-0000-4000-8000-000000000001"
              "a0000000-0000-4000-8000-000000000003" tenant_a account_a sample_record x
              earlier_table table1 Hu) as [P1 P2].
  split; [reflexivity|]. split; [reflexivity|]. split; [exact Hs|].
  split.
  { pose proof Hx as Hx1. vm_compute in Hx1. injection Hx1 as Hxv.
    exists (hd x earlier_table). rewrite <- Hxv. split; vm_compute; [left|]; reflexivity. }
  split.
  - intros r Hin Hr. destruct (P1 Hx) as (_ & _ & P).
    destruct (P r Hin Hr) as (table' & r' & ? & ? & ? & ? & ? & _).
    exists table', r'. split; [|split; [|split; [|split]]]; first [assumption|congruence].
  - destruct (P2 H1 Hs) as (y & r1 & table2 & r2 & ? & ? & ? & ? & ? & ? & _ & _ & _ & _ & _ & _ & ? & _).
    exists y, r1, table2, r2.
    split; [|split; [|split; [|split; [|split; [|split]]]]]; first [assumption|congruence].
Defined.

(** *** The tenant-scoped connection *)

Lemma client_frame_refl c s : client_frame c s s.
Proof. repeat split; auto. Qed.

Lemma client_frame_trans c s1 s2 s3 :
  client_frame c s1 s2 -> client_frame c s2 s3 -> client_frame c s1 s3.
Proof.
  intros (A1 & B1 & C1 & D1) (A2 & B2 & C2 & D2).
  repeat split; try congruence.
  intros n Hn. rewrite D2, D1; auto.
Qed.

Lemma exec_inv answer c st s :
  let (r, s') := exec answer c st s in
  client_frame c s s' /\
  exists ok, log s' = log s ++ [Exec c st (current_tenant (sessions s c)) ok] /\
    match r with Ok _ => ok = true | Err _ => ok = false end /\
    sessions s' c = (if ok then apply_stmt st (sessions s c) else fail_stmt st (sessions s c)).
Proof.
  unfold exec. cbv zeta.
  destruct (if accepts (sessions s c) st then answer (log s) (OpExec st) else Err aborted_error)
    as [rows|e]; simpl.
  - split.
    + repeat split; simpl; auto. intros n Hn.
      apply Nat.eqb_neq in Hn. rewrite Hn. reflexivity.
    + exists true. rewrite Nat.eqb_refl. auto.
  - split.
    + repeat split; simpl; auto. intros n Hn.
      apply Nat.eqb_neq in Hn. rewrite Hn. reflexivity.
    + exists false. rewrite Nat.eqb_refl. auto.
Qed.

Lemma exec_ok answer c st s rows s' :
  exec answer c st s = (Ok rows, s') ->
  accepts (sessions s c) st = true /\ answer (log s) (OpExec st) = Ok rows.
Proof.
  unfold exec. cbv zeta. destruct (accepts (sessions s c) st); [|discriminate].
  destruct (answer (log s) (OpExec st)); intros H; inversion H; auto.
Qed.

Lemma fail_data_current ss : current_tenant (fail_data ss) = current_tenant ss.
Proof. destruct ss as [cur [t0|] ab]; reflexivity. Qed.

Lemma fail_data_idem ss : fail_data (fail_data ss) = fail_data ss.
Proof. destruct ss as [cur [t0|] ab]; reflexivity. Qed.

Lemma run_body_inv answer c body s :
  let (r, s') := run_body answer c body s in
  client_frame c s s' /\
  exists evs, log s' = log s ++ evs /\
    Forall (fun e => exists q ok, e = Exec c (Data q) (current_tenant (sessions s c)) ok) evs /\
    sessions s' c = (if forallb event_ok evs then sessions s c else fail_data (sessions s c)).
Proof.
  revert s. induction body as [v|e|q k IH]; intros s; simpl.
  - split; [apply client_frame_refl|]. exists []. rewrite app_nil_r. auto.
  - split; [apply client_frame_refl|]. exists []. rewrite app_nil_r. auto.
  - pose proof (exec_inv answer c (Data q) s) as Hx.
    destruct (exec answer c (Data q) s) as [r1 s1].
    destruct Hx as (Hf1 & ok & Hl1 & _ & Hs1).
    assert (Hc : current_tenant (sessions s1 c) = current_tenant (sessions s c))
      by (rewrite Hs1; destruct ok; [reflexivity|apply fail_data_current]).
    specialize (IH r1 s1).
    destruct (run_body answer c (k r1) s1) as [r2 s2].
    destruct IH as (Hf2 & evs & Hl2 & Hevs & Hs2).
    split; [eapply client_frame_trans; eauto|].
    exists (Exec c (Data q) (current_tenant (sessions s c)) ok :: evs).
    split; [rewrite Hl2, Hl1, <- app_assoc; reflexivity|].
    split; [constructor; [eauto|]; rewrite Hc in Hevs; exact Hevs|].
    rewrite Hs2, Hs1. destruct ok; simpl; [reflexivity|].
    destruct (forallb event_ok evs); [reflexivity|apply fail_data_idem].
Qed.

Lemma held_frame c s s' : held c s -> client_frame c s s' -> held c s'.
Proof.
  intros (Hnd & Hc & Hlt & Hidle) (_ & Hi & Hn & Hs).
  unfold held. rewrite Hi, Hn. repeat split; auto.
  - apply Hidle; auto.
  - rewrite Hs by (intros ->; contradiction). apply Hidle; auto.
Qed.

Lemma connect_inv answer s :
  match connect answer s with
  | (Ok c, s0) => log s0 = log s ++ [Acquire c] /\ pool_created s0 = pool_created s /\
                  (pool_clean s -> held c s0)
  | (Err _, s0) => s0 = s
  end.
Proof.
  unfold connect. destruct (answer (log s) OpConnect) as [v|e]; [|reflexivity].
  destruct (idle s) as [|c rest] eqn:Hidle; simpl.
  - split; [reflexivity|split; [reflexivity|]]. intros _. unfold held; simpl.
    split; [constructor|]. split; [tauto|]. split; [lia|]. intros n [].
  - split; [reflexivity|split; [reflexivity|]]. intros (Hnd & Hcl). rewrite Hidle in Hnd, Hcl.
    inversion Hnd as [|? ? Hnotin Hnd']; subst.
    unfold held; simpl. split; [exact Hnd'|]. split; [exact Hnotin|].
    split; [apply Hcl; left; reflexivity|].
    intros m Hm. apply Hcl. right; exact Hm.
Qed.

Lemma finally_inv answer c s :
  let (r, s') := reset_and_release answer c s in
  (exists tail, log s' = log s ++ tail /\ reset_then_release c tail) /\
  (held c s -> pool_clean s') /\ pool_created s' = pool_created s.
Proof.
  unfold reset_and_release, dbind. pose proof (exec_inv answer c ResetTenant s) as Hx.
  destruct (exec answer c ResetTenant s) as [[v|e] s1];
    destruct Hx as ((Hp & Hi & Hn & Hs) & ok & Hl & Hok & Hsc); subst ok.
  - unfold release; simpl. split; [|split; [|assumption]].
    + exists [Exec c ResetTenant (current_tenant (sessions s c)) true; Release c].
      split; [rewrite Hl, <- app_assoc; reflexivity|].
      exists (current_tenant (sessions s c)), true. reflexivity.
    + intros (Hnd & Hcin & Hlt & Hidle). rewrite Hi, Hn. split.
      * constructor; assumption.
      * intros n [Heq|Hin]; [subst n; split; [assumption|cbn [sessions]; rewrite Hsc; reflexivity]|].
        cbn [sessions]; rewrite Hs by (intros ->; contradiction). apply Hidle; assumption.
  - split; [|split; [|assumption]].
    + exists [Exec c ResetTenant (current_tenant (sessions s c)) false].
      split; [exact Hl|]. exists (current_tenant (sessions s c)), false. reflexivity.
    + intros Hh. destruct (held_frame c s s1 Hh (conj Hp (conj Hi (conj Hn Hs))))
        as (Hnd & _ & _ & Hidle). split; [exact Hnd|]. intros n Hin. apply Hidle; exact Hin.
Qed.

Lemma query_try_inv answer c t q s :
  let (r, s') := query_try answer c t q s in
  client_frame c s s' /\
  exists seen1 ok1 ok2,
    log s' = log s ++ [Exec c (SetTenant t) seen1 ok1] ++
             (if ok1 then [Exec c (Data q) t ok2] else []).
Proof.
  unfold query_try, dbind.
  pose proof (exec_inv answer c (SetTenant t) s) as Hx1.
  destruct (exec answer c (SetTenant t) s) as [[v1|e1] s1];
    destruct Hx1 as (Hf1 & ok1 & Hl1 & Hok1 & Hs1); subst ok1.
  - pose proof (exec_inv answer c (Data q) s1) as Hx2.
    destruct (exec answer c (Data q) s1) as [r2 s2].
    destruct Hx2 as (Hf2 & ok2 & Hl2 & _ & _).
    split; [eapply client_frame_trans; eauto|].
    exists (current_tenant (sessions s c)), true, ok2.
    rewrite Hl2, Hl1, Hs1, <- app_assoc. reflexivity.
  - split; [exact Hf1|]. exists (current_tenant (sessions s c)), false, true.
    rewrite Hl1, app_nil_r. reflexivity.
Qed.

Lemma queryWithTenant_inv answer t q s :
  let (r, s') := queryWithTenant answer t q s in
  (pool_clean s -> pool_clean s') /\
  (log s' = log s \/
   exists c seen1 ok1 ok2 tail,
     log s' = log s ++ [Acquire c; Exec c (SetTenant t) seen1 ok1] ++
              (if ok1 then [Exec c (Data q) t ok2] else []) ++ tail /\
     reset_then_release c tail).
Proof.
  unfold queryWithTenant, dbind, getPool.
  destruct (pool_created s) eqn:Hp; [|split; auto].
  pose proof (connect_inv answer s) as Hc.
  destruct (connect answer s) as [[c|e] s0]; [|subst; split; auto].
  destruct Hc as (Hl0 & Hp0 & Hh0).
  unfold dfinally.
  pose proof (query_try_inv answer c t q s0) as Hx1.
  destruct (query_try answer c t q s0) as [r1 s1].
  destruct Hx1 as (Hf1 & seen1 & ok1 & ok2 & Hl1).
  pose proof (finally_inv answer c s1) as Hx2.
  destruct (reset_and_release answer c s1) as [[v2|e2] s2];
    destruct Hx2 as ((tail & Hl2 & Htail) & Hclean & _);
    (split; [intros Hs; apply Hclean; eapply held_frame; eauto|]);
    right; exists c, seen1, ok1, ok2, tail; split; auto;
    rewrite Hl2, Hl1, Hl0; repeat rewrite <- app_assoc; reflexivity.
Qed.

Lemma transaction_try_inv answer c t body s :
  let (r, s') := transaction_try answer c t body s in
  client_frame c s s' /\
  exists seen0 ok0 rest,
    log s' = log s ++ Exec c Begin seen0 ok0 :: rest /\
    if ok0 then
      exists seen1 ok1 rest1,
        rest = Exec c (SetTenant t) seen1 ok1 :: rest1 /\
        if ok1 then Forall (on_client c) rest1 /\ data_sees t rest1 else rest1 = []
    else rest = [].
Proof.
  unfold transaction_try, dbind.
  pose proof (exec_inv answer c Begin s) as Hx0.
  destruct (exec answer c Begin s) as [[v0|e0] s0];
    destruct Hx0 as (Hf0 & ok0 & Hl0 & Hok0 & Hs0); subst ok0;
    [|split; [exact Hf0|]; exists (current_tenant (sessions s c)), false, []; auto].
  pose proof (exec_inv answer c (SetTenant t) s0) as Hx1.
  destruct (exec answer c (SetTenant t) s0) as [[v1|e1] s1];
    destruct Hx1 as (Hf1 & ok1 & Hl1 & Hok1 & Hs1); subst ok1;
    [|split; [eapply client_frame_trans; eauto|];
      exists (current_tenant (sessions s c)), true, [Exec c (SetTenant t) (current_tenant (sessions s0 c)) false];
      split; [rewrite Hl1, Hl0, <- app_assoc; reflexivity|];
      exists (current_tenant (sessions s0 c)), false, []; auto].
  pose proof (run_body_inv answer c body s1) as Hx2.
  destruct (run_body answer c body s1) as [[v2|e2] s2];
    destruct Hx2 as (Hf2 & evs & Hl2 & Hevs & Hs2).
  - pose proof (exec_inv answer c Commit s2) as Hx3.
    destruct (exec answer c Commit s2) as [r3 s3].
    destruct Hx3 as (Hf3 & ok3 & Hl3 & _ & _).
    destruct r3 as [v3|e3]; [unfold dret|]; cbv beta iota;
    (split; [eapply client_frame_trans; [exact Hf0|]; eapply client_frame_trans; [exact Hf1|]; eapply client_frame_trans; [exact Hf2|exact Hf3]|]);
    exists (current_tenant (sessions s c)), true,
      (Exec c (SetTenant t) (current_tenant (sessions s0 c)) true :: evs ++
       [Exec c Commit (current_tenant (sessions s2 c)) ok3]);
    (split; [rewrite Hl3, Hl2, Hl1, Hl0; repeat rewrite <- app_assoc; reflexivity|]);
    exists (current_tenant (sessions s0 c)), true, (evs ++ [Exec c Commit (current_tenant (sessions s2 c)) ok3]);
    (split; [reflexivity|]); (split;
    [ apply Forall_app; split;
      [ eapply Forall_impl; [|exact Hevs]; intros e (q & ok & ->); do 3 eexists; reflexivity
      | apply Forall_cons; [do 3 eexists; reflexivity|apply Forall_nil] ]
    | intros c' q seen ok Hin; apply in_app_or in Hin as [Hin|[Heq|[]]]; [|discriminate];
      rewrite Forall_forall in Hevs; destruct (Hevs _ Hin) as (q' & ok' & Heq);
      injection Heq as -> _ -> _; rewrite Hs1; reflexivity ]).
  - split; [eapply client_frame_trans; [exact Hf0|]; eapply client_frame_trans; [exact Hf1|exact Hf2]|].
    exists (current_tenant (sessions s c)), true,
      (Exec c (SetTenant t) (current_tenant (sessions s0 c)) true :: evs).
    split; [rewrite Hl2, Hl1, Hl0; repeat rewrite <- app_assoc; reflexivity|].
    exists (current_tenant (sessions s0 c)), true, evs.
    split; [reflexivity|]. split.
    + eapply Forall_impl; [|exact Hevs]. intros e (q & ok & ->). do 3 eexists; reflexivity.
    + intros c' q seen ok Hin.
      rewrite Forall_forall in Hevs. destruct (Hevs _ Hin) as (q' & ok' & Heq).
      injection Heq as -> _ -> _. rewrite Hs1. reflexivity.
Qed.

Lemma transaction_try_body_throws answer c t body s e :
  body_throws answer c t body s e -> fst (transaction_try answer c t body s) = Err e.
Proof.
  intros (r1 & s1 & r2 & s2 & s3 & H1 & H2 & H3).
  unfold transaction_try, dbind. rewrite H1, H2, H3. reflexivity.
Qed.

Lemma transactionWithTenant_inv answer t body s :
  let (r, s') := transactionWithTenant answer t body s in
  (pool_clean s -> pool_clean s') /\
  (log s' = log s \/
   exists c s0,
     pool_created s = true /\ connect answer s = (Ok c, s0) /\ log s0 = log s ++ [Acquire c] /\
     let (rt, s1) := transaction_try answer c t body s0 in
     exists tail, log s' = log s1 ++ tail /\
       match rt with
       | Ok _ => reset_then_release c tail
       | Err _ => exists seen okb tail',
                    tail = Exec c Rollback seen okb :: tail' /\ reset_then_release c tail'
       end).
Proof.
  unfold transactionWithTenant, dbind, getPool.
  destruct (pool_created s) eqn:Hp; [|split; auto].
  pose proof (connect_inv answer s) as Hc.
  destruct (connect answer s) as [[c|e] s0] eqn:Hcon; [|subst; split; auto].
  destruct Hc as (Hl0 & Hp0 & Hh0).
  unfold dfinally, dcatch.
  pose proof (transaction_try_inv answer c t body s0) as Hx1.
  destruct (transaction_try answer c t body s0) as [[v1|e1] s1] eqn:Htry;
    destruct Hx1 as (Hf1 & _).
  - pose proof (finally_inv answer c s1) as Hx2.
    destruct (reset_and_release answer c s1) as [[v2|e2] s2];
      destruct Hx2 as ((tail & Hl2 & Htail) & Hclean & _);
      (split; [intros Hs; apply Hclean; eapply held_frame; eauto|]);
      right; exists c, s0; (split; [reflexivity|]); (split; [reflexivity|]); (split; [exact Hl0|]);
      rewrite Htry; exists tail; auto.
  - unfold dbind.
    pose proof (exec_inv answer c Rollback s1) as Hx2.
    destruct (exec answer c Rollback s1) as [[v2|e2] s2];
      destruct Hx2 as (Hf2 & ok2 & Hl2 & Hok2 & _); subst ok2; unfold dthrow;
      pose proof (finally_inv answer c s2) as Hx3;
      (destruct (reset_and_release answer c s2) as [[v3|e3] s3];
       destruct Hx3 as ((tail & Hl3 & Htail) & Hclean & _);
       (split; [intros Hs; apply Hclean; eapply held_frame;
                [eapply held_frame; [eauto|exact Hf1]|exact Hf2]|]);
       right; exists c, s0; (split; [reflexivity|]); (split; [reflexivity|]); (split; [exact Hl0|]);
       rewrite Htry; eexists; (split;
       [rewrite Hl3, Hl2, <- app_assoc; reflexivity
       |do 3 eexists; split; [reflexivity|exact Htail]])).
Qed.

Lemma try_events_props (c : nat) (t seen0 : string) (ok0 : bool) (rest : list event) :
  (if ok0 then
     exists seen1 ok1 rest1,
       rest = Exec c (SetTenant t) seen1 ok1 :: rest1 /\
       if ok1 then Forall (on_client c) rest1 /\ data_sees t rest1 else rest1 = []
   else rest = []) ->
  Forall (on_client c) (Exec c Begin seen0 ok0 :: rest) /\
  data_sees t (Exec c Begin seen0 ok0 :: rest).
Proof.
  intros H. destruct ok0.
  - destruct H as (seen1 & ok1 & rest1 & -> & H1).
    destruct ok1.
    + destruct H1 as (Hon & Hsees). split.
      * repeat constructor; try (do 3 eexists; reflexivity). exact Hon.
      * intros c' q seen ok [Heq|[Heq|Hin]]; try discriminate. eapply Hsees; eauto.
    + subst rest1. split.
      * repeat constructor; do 3 eexists; reflexivity.
      * intros c' q seen ok [Heq|[Heq|[]]]; discriminate.
  - subst rest. split.
    + repeat constructor; do 3 eexists; reflexivity.
    + intros c' q seen ok [Heq|[]]; discriminate.
Qed.

Lemma on_client_rollback c seen okb : on_client c (Exec c Rollback seen okb).
Proof. do 3 eexists; reflexivity. Qed.

Lemma data_sees_app t l1 l2 : data_sees t l1 -> data_sees t l2 -> data_sees t (l1 ++ l2).
Proof.
  intros H1 H2 c q seen ok Hin. apply in_app_or in Hin as [Hin|Hin]; eauto.
Qed.

Lemma data_sees_rollback t c seen okb : data_sees t [Exec c Rollback seen okb].
Proof. intros c' q seen' ok [Heq|[]]; discriminate. Qed.

Lemma data_sees_tail t e l : data_sees t (e :: l) -> data_sees t l.
Proof. intros H c q seen ok Hin. eapply H. right; exact Hin. Qed.

Lemma no_data_rollback c seen okb : no_data_statement [Exec c Rollback seen okb].
Proof. repeat constructor. Qed.

(** C2: for a pool whose idle clients carry an empty tenant setting, every
    call of [queryWithTenant] or [transactionWithTenant], whatever the
    server answers, either acquires no client or acquires one, runs
    statements on it alone with every data statement seeing the call's
    tenant, then runs the reset, and releases the client right after the
    reset and only when the reset succeeded; the pool keeps only clients
    with an empty setting, so the next call on a pooled client starts from
    the empty setting.  In [transactionWithTenant], when the body throws
    after [BEGIN] and the binding, [ROLLBACK] runs immediately before the
    reset and the release. *)
Theorem tenant_context_reset_on_every_exit answer t q body s :
  pool_clean s ->
  (forall r s', queryWithTenant answer t q s = (r, s') ->
     pool_clean s' /\ exists ev, log s' = log s ++ ev /\ one_call t ev) /\
  (forall r s', transactionWithTenant answer t body s = (r, s') ->
     pool_clean s' /\
     exists ev, log s' = log s ++ ev /\ one_call t ev /\
       forall c s0 e,
         pool_created s = true -> connect answer s = (Ok c, s0) ->
         body_throws answer c t body s0 e ->
         exists pre seen okb tail,
           ev = pre ++ Exec c Rollback seen okb :: tail /\ reset_then_release c tail).
Proof.
  intros Hclean. split.
  - intros r s' Hrun.
    pose proof (queryWithTenant_inv answer t q s) as Hx. rewrite Hrun in Hx.
    destruct Hx as (Hcl & [Hl | (c & seen1 & ok1 & ok2 & tail & Hl & Htail)]).
    + split; [auto|]. exists []. split; [rewrite app_nil_r; exact Hl|]. left; reflexivity.
    + split; [auto|].
      exists (Acquire c :: (Exec c (SetTenant t) seen1 ok1 :: (if ok1 then [Exec c (Data q) t ok2] else [])) ++ tail).
      split; [rewrite Hl; reflexivity|].
      right. do 3 eexists. split; [reflexivity|]. split; [|split; [|exact Htail]].
      * destruct ok1; repeat constructor; do 3 eexists; reflexivity.
      * intros c' q' seen ok Hin. destruct ok1; simpl in Hin; intuition congruence.
  - intros r s' Hrun.
    pose proof (transactionWithTenant_inv answer t body s) as Hx. rewrite Hrun in Hx.
    destruct Hx as (Hcl & [Hl | (c & s0 & Hp & Hcon & Hl0 & Hx)]).
    + split; [auto|]. exists []. split; [rewrite app_nil_r; exact Hl|]. split; [left; reflexivity|].
      intros c s0 e Hp. unfold transactionWithTenant, dbind, getPool in Hrun.
      rewrite Hp in Hrun. intros Hcon. rewrite Hcon in Hrun.
      pose proof (connect_inv answer s) as Hc. rewrite Hcon in Hc. destruct Hc as (Hl0 & _).
      pose proof (transaction_try_inv answer c t body s0) as Hy.
      unfold dfinally, dcatch in Hrun.
      destruct (transaction_try answer c t body s0) as [rt s1].
      destruct Hy as (_ & seen0 & ok0 & rest & Hl1 & _).
      exfalso. assert (Hlen : (length (log s') > length (log s))%nat).
      { revert Hrun. destruct rt as [v|e'].
        - pose proof (finally_inv answer c s1) as Hz.
          destruct (reset_and_release answer c s1) as [[? | ?] s2];
            destruct Hz as ((tail & Hl2 & _) & _); intros Hrun; injection Hrun as _ <-;
            rewrite Hl2, Hl1, Hl0; repeat rewrite length_app; simpl; lia.
        - unfold dbind. pose proof (exec_inv answer c Rollback s1) as Hw.
          destruct (exec answer c Rollback s1) as [[?|?] s2]; destruct Hw as (_ & ? & Hl2 & _);
          unfold dthrow; pose proof (finally_inv answer c s2) as Hz;
          destruct (reset_and_release answer c s2) as [[? | ?] s3];
            destruct Hz as ((tail & Hl3 & _) & _); intros Hrun; injection Hrun as _ <-;
            rewrite Hl3, Hl2, Hl1, Hl0; repeat rewrite length_app; simpl; lia. }
      rewrite Hl in Hlen. lia.
    + pose proof (transaction_try_inv answer c t body s0) as Hy.
      pose proof (transaction_try_body_throws answer c t body s0) as Hthrow.
      destruct (transaction_try answer c t body s0) as [rt s1].
      destruct Hy as (_ & seen0 & ok0 & rest & Hl1 & Hrest).
      destruct (try_events_props c t seen0 ok0 rest Hrest) as (Hon & Hsees).
      destruct Hx as (tail & Hl2 & Htail).
      split; [auto|].
      destruct rt as [v|e'].
      * exists (Acquire c :: (Exec c Begin seen0 ok0 :: rest) ++ tail).
        split; [rewrite Hl2, Hl1, Hl0; repeat rewrite <- app_assoc; reflexivity|].
        split; [right; do 3 eexists; split; [reflexivity|]; auto|].
        intros c' s0' e Hp' Hcon' Hbt. rewrite Hcon in Hcon'. injection Hcon' as <- <-.
        specialize (Hthrow e Hbt). discriminate.
      * destruct Htail as (seen & okb & tail' & -> & Htail').
        exists (Acquire c :: ((Exec c Begin seen0 ok0 :: rest) ++ [Exec c Rollback seen okb]) ++ tail').
        split; [rewrite Hl2, Hl1, Hl0; simpl; repeat rewrite <- app_assoc; reflexivity|].
        split.
        { right; do 3 eexists; split; [reflexivity|]. split; [|split; [|exact Htail']].
          - apply Forall_app; split; [exact Hon|]. constructor; [apply on_client_rollback|constructor].
          - apply data_sees_app; [exact Hsees|apply data_sees_rollback]. }
        intros c' s0' e Hp' Hcon' Hbt. rewrite Hcon in Hcon'. injection Hcon' as <- <-.
        exists (Acquire c :: Exec c Begin seen0 ok0 :: rest), seen, okb, tail'.
        split; [simpl; rewrite <- app_assoc; reflexivity|exact Htail'].
Qed.

(** C8 (amended): in [queryWithTenant] the tenant binding is the first
    statement after the client is acquired; in [transactionWithTenant] the
    first statement is [BEGIN] and the binding is the second once [BEGIN]
    succeeded.  In both, no data statement runs unless the binding
    succeeded, every data statement sees the call's tenant, the reset is
    the last statement on the client, and the release follows it directly
    (only when the reset succeeded). *)
Theorem tenant_binding_order answer t q body s :
  (forall r s', queryWithTenant answer t q s = (r, s') ->
     exists ev, log s' = log s ++ ev /\
       (ev = [] \/
        exists c seen1 ok1 mid tail,
          ev = Acquire c :: Exec c (SetTenant t) seen1 ok1 :: mid ++ tail /\
          (ok1 = false -> no_data_statement mid) /\
          data_sees t mid /\ Forall (on_client c) mid /\ reset_then_release c tail)) /\
  (forall r s', transactionWithTenant answer t body s = (r, s') ->
     exists ev, log s' = log s ++ ev /\
       (ev = [] \/
        exists c seen0 ok0 mid tail,
          ev = Acquire c :: Exec c Begin seen0 ok0 :: mid ++ tail /\
          (ok0 = true ->
             exists seen1 ok1 mid', mid = Exec c (SetTenant t) seen1 ok1 :: mid' /\
                                    (ok1 = false -> no_data_statement mid')) /\
          (ok0 = false -> no_data_statement mid) /\
          data_sees t mid /\ Forall (on_client c) mid /\ reset_then_release c tail)).
Proof.
  split.
  - intros r s' Hrun.
    pose proof (queryWithTenant_inv answer t q s) as Hx. rewrite Hrun in Hx.
    destruct Hx as (_ & [Hl | (c & seen1 & ok1 & ok2 & tail & Hl & Htail)]).
    + exists []. split; [rewrite app_nil_r; exact Hl|]. left; reflexivity.
    + exists (Acquire c :: Exec c (SetTenant t) seen1 ok1 ::
              (if ok1 then [Exec c (Data q) t ok2] else []) ++ tail).
      split; [rewrite Hl; reflexivity|].
      right. exists c, seen1, ok1, (if ok1 then [Exec c (Data q) t ok2] else []), tail.
      split; [reflexivity|]. split; [intros ->; constructor|].
      split; [|split; [|exact Htail]].
      * intros c' q' seen ok Hin. destruct ok1; simpl in Hin; intuition congruence.
      * destruct ok1; repeat constructor; do 3 eexists; reflexivity.
  - intros r s' Hrun.
    pose proof (transactionWithTenant_inv answer t body s) as Hx. rewrite Hrun in Hx.
    destruct Hx as (_ & [Hl | (c & s0 & Hp & Hcon & Hl0 & Hx)]).
    + exists []. split; [rewrite app_nil_r; exact Hl|]. left; reflexivity.
    + pose proof (transaction_try_inv answer c t body s0) as Hy.
      destruct (transaction_try answer c t body s0) as [rt s1].
      destruct Hy as (_ & seen0 & ok0 & rest & Hl1 & Hrest).
      destruct (try_events_props c t seen0 ok0 rest Hrest) as (Hon & Hsees).
      apply Forall_inv_tail in Hon. apply data_sees_tail in Hsees.
      destruct Hx as (tail & Hl2 & Htail).
      destruct rt as [v|e'].
      * exists (Acquire c :: Exec c Begin seen0 ok0 :: rest ++ tail).
        split; [rewrite Hl2, Hl1, Hl0; repeat rewrite <- app_assoc; reflexivity|].
        right. exists c, seen0, ok0, rest, tail. split; [reflexivity|].
        split; [|split; [|auto]].
        { intros ->. destruct Hrest as (seen1 & ok1 & rest1 & -> & Hrest1).
          exists seen1, ok1, rest1. split; [reflexivity|]. intros ->. subst rest1. constructor. }
        { intros ->. subst rest. constructor. }
      * destruct Htail as (seen & okb & tail' & -> & Htail').
        exists (Acquire c :: Exec c Begin seen0 ok0 :: (rest ++ [Exec c Rollback seen okb]) ++ tail').
        split; [rewrite Hl2, Hl1, Hl0; simpl; repeat rewrite <- app_assoc; reflexivity|].
        right. exists c, seen0, ok0, (rest ++ [Exec c Rollback seen okb]), tail'.
        split; [reflexivity|].
        split; [|split; [|split; [|split; [|exact Htail']]]].
        { intros ->. destruct Hrest as (seen1 & ok1 & rest1 & -> & Hrest1).
          exists seen1, ok1, (rest1 ++ [Exec c Rollback seen okb]). split; [reflexivity|].
          intros ->. subst rest1. apply no_data_rollback. }
        { intros ->. subst rest. apply no_data_rollback. }
        { apply data_sees_app; [exact Hsees|apply data_sees_rollback]. }
        { apply Forall_app; split; [exact Hon|]. constructor; [apply on_client_rollback|constructor]. }
Qed.

(** C8 (as claimed, refuted): with a created pool and a server accepting
    every statement, [transactionWithTenant] runs [BEGIN] as the first
    statement after acquiring the client, before the tenant binding. *)
Lemma transaction_binding_not_first :
  log (snd (transactionWithTenant db_all_ok "tenant-a" (BReturn []) db_ready)) =
    [Acquire 0; Exec 0 Begin "" true; Exec 0 (SetTenant "tenant-a") "" true;
     Exec 0 Commit "tenant-a" true; Exec 0 ResetTenant "tenant-a" true; Release 0] /\
  ~ (exists c seen ok rest,
       log (snd (transactionWithTenant db_all_ok "tenant-a" (BReturn []) db_ready)) =
         Acquire c :: Exec c (SetTenant "tenant-a") seen ok :: rest).
Proof.
  split; [reflexivity|].
  intros (c & seen & ok & rest & H). vm_compute in H. discriminate.
Qed.

Lemma tenant_context_reset_on_every_exit_witness :
  pool_clean db_ready /\
  ((forall r s', queryWithTenant db_all_ok "tenant-a" "SELECT 1" db_ready = (r, s') ->
     pool_clean s' /\ exists ev, log s' = log db_ready ++ ev /\ one_call "tenant-a" ev) /\
  (forall r s', transactionWithTenant db_all_ok "tenant-a" (BThrow "boom") db_ready = (r, s') ->
     pool_clean s' /\
     exists ev, log s' = log db_ready ++ ev /\ one_call "tenant-a" ev /\
       forall c s0 e,
         pool_created db_ready = true -> connect db_all_ok db_ready = (Ok c, s0) ->
         body_throws db_all_ok c "tenant-a" (BThrow "boom") s0 e ->
         exists pre seen okb tail,
           ev = pre ++ Exec c Rollback seen okb :: tail /\ reset_then_release c tail)).
Proof.
  assert (H : pool_clean db_ready) by (split; [constructor|intros c []]).
  split; [exact H|].
  apply (tenant_context_reset_on_every_exit db_all_ok "tenant-a" "SELECT 1" (BThrow "boom") db_ready H).
Defined.

(** Two sequential calls for different tenants reuse client 0; the second
    call's data statement sees only its own tenant. *)
Example two_tenants_share_a_client :
  let s1 := snd (queryWithTenant db_all_ok "tenant-a" "SELECT 1" db_ready) in
  log (snd (queryWithTenant db_all_ok "tenant-b" "SELECT 2" s1)) =
    [Acquire 0; Exec 0 (SetTenant "tenant-a") "" true; Exec 0 (Data "SELECT 1") "tenant-a" true;
     Exec 0 ResetTenant "tenant-a" true; Release 0;
     Acquire 0; Exec 0 (SetTenant "tenant-b") "" true; Exec 0 (Data "SELECT 2") "tenant-b" true;
     Exec 0 ResetTenant "tenant-b" true; Release 0].
Proof. reflexivity. Qed.

(** *** The external id *)

(** C9 (amended): for every secret setting, tenant and account, the
    external id is the HMAC-SHA256, under the resolved secret, of the
    tenant id, a colon and the account id, as lowercase hex cut to its
    first 32 characters: a 32-character hex string that depends on the
    secret setting only through the resolved secret. *)
Theorem external_id_is_truncated_hmac (env_secret : option string) (tenantId accountId : string) :
  generateExternalId env_secret tenantId accountId
  = substring 0 32
      (hmac_sha256_hex (external_id_secret env_secret) (tenantId ++ ":" ++ accountId)%string) /\
  String.length (generateExternalId env_secret tenantId accountId) = 32%nat /\
  Forall (fun c => is_hex_char c = true)
    (list_ascii_of_string (generateExternalId env_secret tenantId accountId)) /\
  (forall env_secret',
     external_id_secret env_secret' = external_id_secret env_secret ->
     generateExternalId env_secret' tenantId accountId
     = generateExternalId env_secret tenantId accountId).
Proof.
  split; [reflexivity|]. split; [|split].
  - unfold generateExternalId, hmac_sha256_hex. apply substring_prefix_length.
    rewrite hex_of_bytes_length, hmac_length. lia.
  - unfold generateExternalId, hmac_sha256_hex. apply substring_prefix_chars.
    apply hex_of_bytes_chars, hmac_range.
  - intros env_secret' Hs. unfold generateExternalId. rewrite Hs. reflexivity.
Qed.

(** C9 (as claimed, refuted): the external id is not the truncated HMAC of
    the plain concatenation of tenant id and account id. *)
Lemma external_id_plain_concat_counterexample :
  generateExternalId None "tenant-a" "123456789012"
  <> substring 0 32
       (hmac_sha256_hex (external_id_secret None) ("tenant-a" ++ "123456789012")%string).
Proof. intro H. vm_compute in H. discriminate. Qed.

(* ------------------------------------------------------------------ *)
(** ** Further properties of the scanner and the connection *)

Lemma close_ok_no_pool ended s0 s :
  close ended s0 = (Ok tt, s) -> pool_created s = false.
Proof.
  unfold close. destruct (pool_created s0) eqn:Hp.
  - destruct ended; intros H; inversion H; reflexivity.
  - intros H. inversion H; subst. exact Hp.
Qed.

Lemma run_db_calls_no_pool answer cs s :
  pool_created s = false ->
  run_db_calls answer cs s
  = (map (fun c => if is_close c then Ok [] else Err "getCredentials is not defined") cs, s).
Proof.
  intros Hp. induction cs as [|c cs IH]; [reflexivity|].
  simpl. destruct c as [t q|t body|ended]; simpl;
    unfold queryWithTenant, transactionWithTenant, dbind, getPool, close, dret;
    rewrite Hp; rewrite IH; reflexivity.
Qed.

(** X1 ([getPool], [close]): while the connection has no pool (the fresh
    singleton, or after a successful [close]), every [queryWithTenant] and
    [transactionWithTenant] rejects with the [ReferenceError] of the
    unqualified [getCredentials()] call before acquiring a client, so no
    statement is ever sent and the connection state stays as it is, for any
    sequence of calls. *)
Theorem no_pool_every_call_rejects answer cs s0 ended s :
  (s = db_singleton \/ close ended s0 = (Ok tt, s)) ->
  run_db_calls answer cs s
  = (map (fun c => if is_close c then Ok [] else Err "getCredentials is not defined") cs, s).
Proof.
  intros [->|Hc].
  - apply run_db_calls_no_pool. reflexivity.
  - apply run_db_calls_no_pool. exact (close_ok_no_pool ended s0 s Hc).
Qed.

Lemma no_pool_every_call_rejects_witness :
  (db_singleton = db_singleton \/ close (Ok tt) db_ready = (Ok tt, db_singleton)) /\
  run_db_calls db_all_ok [DQuery "tenant-a" "SELECT 1"; DClose (Ok tt); DTransaction "tenant-a" (BReturn [])] db_singleton
  = ([Err "getCredentials is not defined"; Ok []; Err "getCredentials is not defined"], db_singleton).
Proof.
  assert (H : db_singleton = db_singleton \/ close (Ok tt) db_ready = (Ok tt, db_singleton)) by (right; reflexivity).
  split; [exact H|].
  exact (no_pool_every_call_rejects db_all_ok _ db_ready (Ok tt) db_singleton H).
Defined.

(** X2 ([getCredentials]): once a call resolves, the credentials are cached
    and every later call resolves with the very same credentials without
    another Secrets Manager request, whatever the secret, the parser or the
    endpoint are by then. *)
Theorem credentials_cached_after_success send parse ep cache c cache1 :
  getCredentials send parse ep cache = (Ok c, cache1) ->
  cachedCredentials cache1 = Some c /\
  (secret_requests cache1 <= S (secret_requests cache))%nat /\
  forall send' parse' ep', getCredentials send' parse' ep' cache1 = (Ok c, cache1).
Proof.
  unfold getCredentials.
  destruct (cachedCredentials cache) as [c0|] eqn:Hc.
  - intros H. inversion H; subst. rewrite Hc. repeat split; auto.
  - destruct (send (secret_requests cache)) as [[str|]|e]; try discriminate.
    destruct (String.eqb str ""); try discriminate.
    destruct (parse str) as [sec|e]; try discriminate.
    intros H. inversion H; subst; simpl. repeat split; auto.
Qed.

Lemma credentials_cached_after_success_witness :
  getCredentials secret_sent parse_app_secret (Some "proxy.local") fresh_cache
  = (Ok app_credentials, {| cachedCredentials := Some app_credentials; secret_requests := 1 |}) /\
  cachedCredentials {| cachedCredentials := Some app_credentials; secret_requests := 1 |} = Some app_credentials /\
  (secret_requests {| cachedCredentials := Some app_credentials; secret_requests := 1 |}
   <= S (secret_requests fresh_cache))%nat /\
  (forall send' parse' ep',
     getCredentials send' parse' ep' {| cachedCredentials := Some app_credentials; secret_requests := 1 |}
     = (Ok app_credentials, {| cachedCredentials := Some app_credentials; secret_requests := 1 |})).
Proof.
  assert (H : getCredentials secret_sent parse_app_secret (Some "proxy.local") fresh_cache
              = (Ok app_credentials, {| cachedCredentials := Some app_credentials; secret_requests := 1 |}))
    by reflexivity.
  split; [exact H|].
  exact (credentials_cached_after_success secret_sent parse_app_secret (Some "proxy.local") fresh_cache
           app_credentials _ H).
Defined.

(** X3 ([getCredentials]): a rejected call caches nothing and has sent one
    Secrets Manager request (so the next call asks again); when the secret
    has no [SecretString] or an empty one, the error is 'Database
    credentials not found'. *)
Theorem credentials_failure_not_cached send parse ep cache e cache1 :
  getCredentials send parse ep cache = (Err e, cache1) ->
  cachedCredentials cache = None /\ cachedCredentials cache1 = None /\
  secret_requests cache1 = S (secret_requests cache) /\
  (send (secret_requests cache) = Ok None \/ send (secret_requests cache) = Ok (Some "") ->
   e = "Database credentials not found").
Proof.
  unfold getCredentials.
  destruct (cachedCredentials cache) as [c0|] eqn:Hc; [discriminate|].
  destruct (send (secret_requests cache)) as [[str|]|e0] eqn:Hs.
  - destruct (String.eqb str "") eqn:He.
    + intros H. inversion H; subst. repeat split; auto.
    + destruct (parse str) as [sec|e1]; [discriminate|].
      intros H. inversion H; subst. repeat split; auto.
      intros [H1|H1]; [discriminate|]. injection H1 as ->. discriminate.
  - intros H. inversion H; subst. repeat split; auto.
  - intros H. inversion H; subst. repeat split; auto.
    intros [H1|H1]; discriminate.
Qed.

Lemma credentials_failure_not_cached_witness :
  getCredentials (fun _ => Ok (Some "")) parse_app_secret None fresh_cache
  = (Err "Database credentials not found", {| cachedCredentials := None; secret_requests := 1 |}) /\
  cachedCredentials fresh_cache = None /\
  cachedCredentials {| cachedCredentials := None; secret_requests := 1 |} = None /\
  secret_requests {| cachedCredentials := None; secret_requests := 1 |} = S (secret_requests fresh_cache) /\
  ((fun _ : nat => Ok (Some "")) (secret_requests fresh_cache) = Ok None \/
   (fun _ : nat => Ok (Some "")) (secret_requests fresh_cache) = Ok (Some "") ->
   "Database credentials not found" = "Database credentials not found").
Proof.
  assert (H : getCredentials (fun _ => Ok (Some "")) parse_app_secret None fresh_cache
              = (Err "Database credentials not found", {| cachedCredentials := None; secret_requests := 1 |}))
    by reflexivity.
  split; [exact H|].
  exact (credentials_failure_not_cached (fun _ => Ok (Some "")) parse_app_secret None fresh_cache _ _ H).
Defined.

Lemma connect_outside answer s :
  idle_outside_transactions s ->
  forall c s0, connect answer s = (Ok c, s0) -> saved_at_begin (sessions s0 c) = None.
Proof.
  intros Hout c s0. unfold connect.
  destruct (answer (log s) OpConnect); [|discriminate].
  destruct (idle s) as [|c' rest] eqn:Hidle; intros H; inversion H; subst; clear H; cbn.
  - rewrite Nat.eqb_refl. reflexivity.
  - apply Hout. rewrite Hidle. left; reflexivity.
Qed.

Lemma reset_and_release_ok answer c s s' :
  reset_and_release answer c s = (Ok tt, s') ->
  log s' = log s ++ [Exec c ResetTenant (current_tenant (sessions s c)) true; Release c] /\
  hd_error (idle s') = Some c /\ current_tenant (sessions s' c) = "".
Proof.
  unfold reset_and_release, dbind.
  pose proof (exec_inv answer c ResetTenant s) as Hx.
  destruct (exec answer c ResetTenant s) as [[v|e] s1];
    destruct Hx as (_ & ok & Hl & Hok & Hs); subst ok; [|discriminate].
  unfold release. intros H. inversion H; subst s'; clear H. cbn [log idle sessions].
  rewrite Hl, <- app_assoc, Hs. auto.
Qed.

(** X4 ([queryWithTenant]): a call that resolves has acquired one client
    and sent, in this order, the tenant binding, the caller's statement
    (seeing the tenant), the reset and the release, all successful; it
    resolves with the rows the server returned for the statement, and the
    client is back in the pool, first in line, with an empty tenant
    setting. *)
Theorem queryWithTenant_resolves answer t q s rows s' :
  queryWithTenant answer t q s = (Ok rows, s') ->
  exists c seen,
    log s' = log s ++ [Acquire c; Exec c (SetTenant t) seen true; Exec c (Data q) t true;
                       Exec c ResetTenant t true; Release c] /\
    answer (log s ++ [Acquire c; Exec c (SetTenant t) seen true]) (OpExec (Data q)) = Ok rows /\
    hd_error (idle s') = Some c /\ current_tenant (sessions s' c) = "".
Proof.
  unfold queryWithTenant, dbind, getPool.
  destruct (pool_created s); [|discriminate].
  pose proof (connect_inv answer s) as Hc.
  destruct (connect answer s) as [[c|e] s0]; [|discriminate].
  destruct Hc as (Hl0 & _ & _).
  unfold dfinally, query_try, dbind.
  pose proof (exec_inv answer c (SetTenant t) s0) as Hx1.
  destruct (exec answer c (SetTenant t) s0) as [[v1|e1] s1];
    destruct Hx1 as (_ & ok1 & Hl1 & Hok1 & Hs1); subst ok1.
  2:{ destruct (reset_and_release answer c s1) as [[|] ?]; discriminate. }
  pose proof (exec_inv answer c (Data q) s1) as Hx2.
  pose proof (exec_ok answer c (Data q) s1) as Hok2.
  destruct (exec answer c (Data q) s1) as [[rows2|e2] s2];
    destruct Hx2 as (_ & ok2 & Hl2 & Hok2' & Hs2); subst ok2.
  2:{ destruct (reset_and_release answer c s2) as [[|] ?]; discriminate. }
  destruct (Hok2 rows2 s2 eq_refl) as [_ Ha]. clear Hok2.
  pose proof (reset_and_release_ok answer c s2) as Hr.
  destruct (reset_and_release answer c s2) as [[[]|e3] s3]; [|discriminate].
  intros H. inversion H; subst rows2 s'. clear H.
  destruct (Hr s3 eq_refl) as (Hl3 & Hi3 & Hs3). clear Hr.
  rewrite Hs2, Hs1 in Hl3. rewrite Hs1 in Hl2. cbn in Hl2, Hl3.
  exists c, (current_tenant (sessions s0 c)).
  split; [|split; [|split; assumption]].
  - rewrite Hl3, Hl2, Hl1, Hl0. rewrite <- !app_assoc. reflexivity.
  - rewrite Hl1, Hl0, <- app_assoc in Ha. exact Ha.
Qed.

(** X5 ([transactionWithTenant]): when no idle client is inside a
    transaction block, a call that resolves ran, on one client, BEGIN, the
    tenant binding, only data statements of the callback (each seeing the
    tenant), COMMIT, the reset and the release, with no ROLLBACK statement.
    The transaction committed exactly when every data statement succeeded,
    and the reset then sees the tenant.  If one of them failed (the callback
    caught the error), COMMIT performed a rollback, and the reset sees the
    setting from before BEGIN.  The client is back in the pool, first in
    line, with an empty tenant setting. *)
Theorem transactionWithTenant_resolves answer t body s v s' :
  idle_outside_transactions s ->
  transactionWithTenant answer t body s = (Ok v, s') ->
  exists c seen mid,
    log s' = log s ++ [Acquire c; Exec c Begin seen true; Exec c (SetTenant t) seen true] ++ mid ++
             [Exec c Commit t true;
              Exec c ResetTenant (if forallb event_ok mid then t else seen) true; Release c] /\
    Forall (fun e => exists q ok, e = Exec c (Data q) t ok) mid /\
    hd_error (idle s') = Some c /\ current_tenant (sessions s' c) = "".
Proof.
  intros Hout.
  unfold transactionWithTenant, dbind, getPool.
  destruct (pool_created s); [|discriminate].
  pose proof (connect_inv answer s) as Hc.
  pose proof (connect_outside answer s Hout) as Hsv.
  destruct (connect answer s) as [[c|e] s0]; [|discriminate].
  destruct Hc as (Hl0 & _ & _). specialize (Hsv c s0 eq_refl).
  unfold dfinally, dcatch.
  destruct (transaction_try answer c t body s0) as [[v1|e1] s4] eqn:Ht.
  2:{ unfold dbind, dthrow. destruct (exec answer c Rollback s4) as [[|] s5];
      destruct (reset_and_release answer c s5) as [[|] ?]; intros H; inversion H. }
  pose proof (reset_and_release_ok answer c s4) as Hr.
  destruct (reset_and_release answer c s4) as [[[]|e5] s5]; [|discriminate].
  intros H. inversion H; subst v1 s'; clear H.
  destruct (Hr s5 eq_refl) as (Hl5 & Hi5 & Hs5). clear Hr.
  unfold transaction_try, dbind in Ht.
  pose proof (exec_inv answer c Begin s0) as Hx1.
  pose proof (exec_ok answer c Begin s0) as HB.
  destruct (exec answer c Begin s0) as [[v1|e1] s1];
    destruct Hx1 as (_ & ok1 & Hl1 & Hok1 & Hs1); subst ok1; [|discriminate].
  destruct (HB v1 s1 eq_refl) as [Hacc _]. clear HB.
  pose proof (exec_inv answer c (SetTenant t) s1) as Hx2.
  destruct (exec answer c (SetTenant t) s1) as [[v2|e2] s2];
    destruct Hx2 as (_ & ok2 & Hl2 & Hok2 & Hs2); subst ok2; [|discriminate].
  pose proof (run_body_inv answer c body s2) as Hb.
  destruct (run_body answer c body s2) as [[v3|e3] s3];
    destruct Hb as (_ & mid & Hl3 & Hmid & Hs3); [|discriminate].
  pose proof (exec_inv answer c Commit s3) as Hx4.
  destruct (exec answer c Commit s3) as [[v4|e4] s4'];
    destruct Hx4 as (_ & ok4 & Hl4 & Hok4 & Hs4); subst ok4; [|discriminate].
  unfold dret in Ht. inversion Ht; subst s4' v; clear Ht.
  destruct (sessions s0 c) as [cur0 sav0 ab0]. cbn in Hsv. subst sav0.
  destruct ab0; [discriminate Hacc|].
  rewrite Hs2, Hs1 in Hmid. cbn in Hmid.
  rewrite Hs3, Hs2, Hs1 in Hl4. rewrite Hs1 in Hl2. cbn in Hl2.
  rewrite Hs4, Hs3, Hs2, Hs1 in Hl5.
  exists c, cur0, mid.
  split; [|split; [exact Hmid|split; assumption]].
  rewrite Hl5, Hl4, Hl3, Hl2, Hl1, Hl0.
  destruct (forallb event_ok mid); cbn; rewrite <- !app_assoc; reflexivity.
Qed.

Lemma queryWithTenant_resolves_witness :
  queryWithTenant db_all_ok "tenant-a" "SELECT 1" db_ready
  = (Ok [], snd (queryWithTenant db_all_ok "tenant-a" "SELECT 1" db_ready)) /\
  exists c seen,
    log (snd (queryWithTenant db_all_ok "tenant-a" "SELECT 1" db_ready))
    = log db_ready ++ [Acquire c; Exec c (SetTenant "tenant-a") seen true; Exec c (Data "SELECT 1") "tenant-a" true;
                       Exec c ResetTenant "tenant-a" true; Release c] /\
    db_all_ok (log db_ready ++ [Acquire c; Exec c (SetTenant "tenant-a") seen true]) (OpExec (Data "SELECT 1")) = Ok [] /\
    hd_error (idle (snd (queryWithTenant db_all_ok "tenant-a" "SELECT 1" db_ready))) = Some c /\
    current_tenant (sessions (snd (queryWithTenant db_all_ok "tenant-a" "SELECT 1" db_ready)) c) = "".
Proof.
  assert (H : queryWithTenant db_all_ok "tenant-a" "SELECT 1" db_ready
              = (Ok [], snd (queryWithTenant db_all_ok "tenant-a" "SELECT 1" db_ready))) by reflexivity.
  split; [exact H|].
  exact (queryWithTenant_resolves db_all_ok "tenant-a" "SELECT 1" db_ready [] _ H).
Defined.

Lemma transactionWithTenant_resolves_witness :
  idle_outside_transactions db_ready /\
  transactionWithTenant db_data_fails "tenant-a" (BQuery "INSERT" (fun _ => BReturn ["ok"])) db_ready
  = (Ok ["ok"], snd (transactionWithTenant db_data_fails "tenant-a" (BQuery "INSERT" (fun _ => BReturn ["ok"])) db_ready)) /\
  exists c seen mid,
    log (snd (transactionWithTenant db_data_fails "tenant-a" (BQuery "INSERT" (fun _ => BReturn ["ok"])) db_ready))
    = log db_ready ++ [Acquire c; Exec c Begin seen true; Exec c (SetTenant "tenant-a") seen true] ++ mid ++
      [Exec c Commit "tenant-a" true;
       Exec c ResetTenant (if forallb event_ok mid then "tenant-a" else seen) true; Release c] /\
    Forall (fun e => exists q ok, e = Exec c (Data q) "tenant-a" ok) mid /\
    hd_error (idle (snd (transactionWithTenant db_data_fails "tenant-a" (BQuery "INSERT" (fun _ => BReturn ["ok"])) db_ready))) = Some c /\
    current_tenant (sessions (snd (transactionWithTenant db_data_fails "tenant-a" (BQuery "INSERT" (fun _ => BReturn ["ok"])) db_ready)) c) = "".
Proof.
  assert (H0 : idle_outside_transactions db_ready) by (intros c []).
  assert (H : transactionWithTenant db_data_fails "tenant-a" (BQuery "INSERT" (fun _ => BReturn ["ok"])) db_ready
              = (Ok ["ok"], snd (transactionWithTenant db_data_fails "tenant-a" (BQuery "INSERT" (fun _ => BReturn ["ok"])) db_ready)))
    by reflexivity.
  split; [exact H0|]. split; [exact H|].
  exact (transactionWithTenant_resolves db_data_fails "tenant-a" (BQuery "INSERT" (fun _ => BReturn ["ok"])) db_ready ["ok"] _ H0 H).
Defined.

(** The callback above catches the failure of its INSERT: the call
    resolves, but its COMMIT rolled the transaction back and the reset
    sees the setting from before BEGIN. *)
Example swallowed_failure_rolls_back :
  log (snd (transactionWithTenant db_data_fails "tenant-a" (BQuery "INSERT" (fun _ => BReturn ["ok"])) db_ready)) =
    [Acquire 0; Exec 0 Begin "" true; Exec 0 (SetTenant "tenant-a") "" true;
     Exec 0 (Data "INSERT") "tenant-a" false; Exec 0 Commit "tenant-a" true;
     Exec 0 ResetTenant "" true; Release 0].
Proof. reflexivity. Qed.


Lemma extends_with_ret {A} P (a : A) : extends_with P (ret a).
Proof. intros h. exists []. rewrite app_nil_r. split; [reflexivity|constructor]. Qed.

Lemma extends_with_throw {A} P e : extends_with P (@throw A e).
Proof. intros h. exists []. rewrite app_nil_r. split; [reflexivity|constructor]. Qed.

Lemma extends_with_perform {A} (P : call -> Prop) c (o : list call -> result A) :
  P c -> extends_with P (perform c o).
Proof. intros Hc h. exists [c]. split; [reflexivity|constructor; [exact Hc|constructor]]. Qed.

Lemma extends_with_bind {A B} P (m : M A) (f : A -> M B) :
  extends_with P m -> (forall a, extends_with P (f a)) -> extends_with P (bind m f).
Proof.
  intros Hm Hf h. unfold bind.
  destruct (Hm h) as (ext1 & H1 & F1).
  destruct (m h) as [[a|e] h1]; simpl in H1; subst h1.
  - destruct (Hf a (h ++ ext1)) as (ext2 & H2 & F2).
    exists (ext1 ++ ext2). rewrite H2, app_assoc. split; [reflexivity|apply Forall_app; auto].
  - exists ext1. auto.
Qed.

Lemma extends_with_catch {A} P (m : M A) (k : string -> M A) :
  extends_with P m -> (forall e, extends_with P (k e)) -> extends_with P (catch m k).
Proof.
  intros Hm Hk h. unfold catch.
  destruct (Hm h) as (ext1 & H1 & F1).
  destruct (m h) as [[a|e] h1]; simpl in H1; subst h1.
  - exists ext1. auto.
  - destruct (Hk e (h ++ ext1)) as (ext2 & H2 & F2).
    exists (ext1 ++ ext2). rewrite H2, app_assoc. split; [reflexivity|apply Forall_app; auto].
Qed.

Lemma extends_with_if {A} P (b : bool) (m1 m2 : M A) :
  extends_with P m1 -> extends_with P m2 -> extends_with P (if b then m1 else m2).
Proof. destruct b; auto. Qed.


Section Scoped.
Variable env : Env.
Variable request : ScanRequest.
Let P := scoped_to (tenantId request) (scanId request).

Lemma validate_scoped a r x :
  extends_with P (validateAccountOwnership env (tenantId request) a r x).
Proof.
  unfold validateAccountOwnership. apply extends_with_catch; [|intros; apply extends_with_ret].
  apply extends_with_bind; [apply extends_with_perform; reflexivity|].
  intros [|account rest]; [apply extends_with_ret|].
  repeat apply extends_with_if; apply extends_with_ret.
Qed.

Lemma update_scoped status err metrics :
  extends_with P (updateScanStatus env (scanId request) status err metrics).
Proof. apply extends_with_perform. split; reflexivity. Qed.

Lemma internal_id_scoped a :
  extends_with P (getAccountInternalId env (tenantId request) a).
Proof.
  unfold getAccountInternalId.
  apply extends_with_bind; [apply extends_with_perform; reflexivity|].
  intros [|i rest]; [apply extends_with_throw|apply extends_with_ret].
Qed.

Lemma assume_scoped arn ext sid :
  extends_with P (assumeRoleSecurely env arn ext sid).
Proof.
  unfold assumeRoleSecurely. apply extends_with_if; [apply extends_with_throw|].
  apply extends_with_bind; [apply extends_with_perform; exact I|].
  intros [c|]; [apply extends_with_ret|apply extends_with_throw].
Qed.

Lemma scanRegion_scoped cr aid acc region :
  extends_with P (scanRegion env cr (tenantId request) aid acc region).
Proof.
  intros h. unfold scanRegion, scanVolumesInRegion, bind, perform.
  destruct (env_describe env h region) as [vols|e]; simpl.
  - set (recs := map (normalizeVolume (tenantId request) aid region (env_clock env (h ++ [CDescribeVolumes region]))) vols).
    assert (Hrecs : Forall (fun v => rec_tenantId v = tenantId request) recs).
    { unfold recs. apply Forall_forall. intros v Hv. apply in_map_iff in Hv as (x & <- & _). reflexivity. }
    unfold storeVolumes. destruct recs as [|r0 rs] eqn:Er.
    + exists [CDescribeVolumes region]. split; [reflexivity|repeat constructor].
    + unfold perform.
      destruct (env_store env (h ++ [CDescribeVolumes region]) (tenantId request) aid (r0 :: rs));
        exists [CDescribeVolumes region; CStoreVolumes (tenantId request) aid (r0 :: rs)];
        (split; [rewrite <- app_assoc; reflexivity|]);
        (apply Forall_cons; [exact I|apply Forall_cons; [split; [reflexivity|exact Hrecs]|apply Forall_nil]]).
  - exists [CDescribeVolumes region]. split; [reflexivity|repeat constructor].
Qed.

Lemma scanRegions_scoped cr aid rs :
  forall acc, extends_with P (scanRegions env cr (tenantId request) aid acc rs).
Proof.
  induction rs as [|r rs IH]; intros acc; simpl.
  - apply extends_with_ret.
  - apply extends_with_bind; [apply scanRegion_scoped|exact IH].
Qed.

Lemma processScanRequest_scoped :
  extends_with P (processScanRequest env request).
Proof.
  unfold processScanRequest.
  apply extends_with_bind; [apply validate_scoped|intros b].
  apply extends_with_if; [apply extends_with_throw|].
  apply extends_with_bind; [apply update_scoped|intros _].
  apply extends_with_bind; [apply internal_id_scoped|intros aid].
  apply extends_with_bind; [apply assume_scoped|intros cr].
  apply extends_with_bind; [apply scanRegions_scoped|intros res].
  apply update_scoped.
Qed.

End Scoped.

(** X6 ([handler], [processScanRequest], [updateScanStatus]): the handler
    only appends calls, and the calls made for each processed record
    belong to it: account lookups and volume stores use the record's
    tenant (every stored record carrying that tenant), and every status
    update is made under tenant 'system' for the record's scan id. *)
Theorem handler_calls_scoped env records h :
  exists exts,
    snd (handler env records h) = h ++ concat exts /\
    Forall2 (fun request ext => Forall (scoped_to (tenantId request) (scanId request)) ext)
      (firstn (length exts) records) exts.
Proof.
  revert h. induction records as [|r rest IH]; intros h.
  - exists []. simpl. rewrite app_nil_r. split; [reflexivity|constructor].
  - simpl. unfold bind at 1.
    assert (Hm : extends_with (scoped_to (tenantId r) (scanId r))
                   (catch (processScanRequest env r)
                      (fun e => _ <- updateScanStatus env (scanId r) "failed" (Some e) None ;; throw e))).
    { apply extends_with_catch; [apply processScanRequest_scoped|intros e].
      apply extends_with_bind; [apply update_scoped|intros _; apply extends_with_throw]. }
    destruct (Hm h) as (ext1 & H1 & F1).
    destruct (catch _ _ h) as [[u|e] h1]; simpl in H1; subst h1.
    + destruct (IH (h ++ ext1)) as (exts & H2 & F2).
      exists (ext1 :: exts). simpl. rewrite H2, <- app_assoc.
      split; [reflexivity|constructor; assumption].
    + exists [ext1]. simpl. rewrite app_nil_r. split; [reflexivity|].
      constructor; [exact F1|constructor].
Qed.

(** X7 ([handler]): when a record's scan rejects, the handler makes exactly
    one more call, the update of that scan to 'failed' with the error, and
    rejects with the scan's error (or with the update's error when that
    update fails); the records after it are never processed. *)
Theorem handler_stops_at_failed_record env request rest h e h1 :
  processScanRequest env request h = (Err e, h1) ->
  handler env (request :: rest) h
  = (match env_update_status env h1 with Ok _ => Err e | Err e' => Err e' end,
     h1 ++ [CUpdateStatus "system" (scanId request) "failed" (Some e) None]).
Proof.
  intros Hp. simpl. unfold bind at 1, catch. rewrite Hp.
  unfold updateScanStatus, bind, perform, throw.
  destruct (env_update_status env h1); reflexivity.
Qed.

Lemma handler_stops_at_failed_record_witness :
  processScanRequest env_unregistered request_1 []
  = (Err "Invalid account credentials or ownership", [CQueryAccount "tenant-a" "123456789012"]) /\
  handler env_unregistered [request_1; request_1] []
  = (match env_update_status env_unregistered [CQueryAccount "tenant-a" "123456789012"] with
     | Ok _ => Err "Invalid account credentials or ownership" | Err e' => Err e' end,
     [CQueryAccount "tenant-a" "123456789012"] ++
     [CUpdateStatus "system" (scanId request_1) "failed" (Some "Invalid account credentials or ownership") None]).
Proof.
  assert (H : processScanRequest env_unregistered request_1 []
              = (Err "Invalid account credentials or ownership", [CQueryAccount "tenant-a" "123456789012"]))
    by reflexivity.
  split; [exact H|].
  exact (handler_stops_at_failed_record env_unregistered request_1 [request_1] [] _ _ H).
Defined.

Lemma validated_prefix env request h :
  fst (validateAccountOwnership env (tenantId request) (accountId request)
         (roleArn request) (externalId request) h) = Ok true ->
  validateAccountOwnership env (tenantId request) (accountId request)
    (roleArn request) (externalId request) h
  = (Ok true, h ++ [CQueryAccount (tenantId request) (accountId request)]).
Proof.
  intros Ht.
  destruct (validateAccountOwnership_trace env (tenantId request) (accountId request)
              (roleArn request) (externalId request) h) as [b Hv].
  rewrite Hv in Ht |- *. simpl in Ht. injection Ht as ->. reflexivity.
Qed.

(** X8 ([getAccountInternalId], [processScanRequest]): when the account
    passes validation but the internal-id lookup returns no row, the scan
    rejects with 'Account <accountId> not found' right after the lookup,
    having marked the scan in-progress and made no role assumption. *)
Theorem missing_internal_id_fails_scan env request h :
  fst (validateAccountOwnership env (tenantId request) (accountId request)
         (roleArn request) (externalId request) h) = Ok true ->
  env_update_status env (h ++ [CQueryAccount (tenantId request) (accountId request)]) = Ok tt ->
  env_internal_ids env (h ++ [CQueryAccount (tenantId request) (accountId request);
                              CUpdateStatus "system" (scanId request) "in-progress" None None])
    (tenantId request) (accountId request) = Ok [] ->
  processScanRequest env request h
  = (Err ("Account " ++ accountId request ++ " not found"),
     h ++ [CQueryAccount (tenantId request) (accountId request);
           CUpdateStatus "system" (scanId request) "in-progress" None None;
           CQueryInternalId (tenantId request) (accountId request)]).
Proof.
  intros Hv Hu Hi. apply validated_prefix in Hv.
  unfold processScanRequest. unfold bind at 1. rewrite Hv. cbv beta iota. change (negb true) with false. cbv beta iota.
  unfold updateScanStatus, getAccountInternalId, bind, perform. rewrite Hu.
  rewrite <- app_assoc. simpl app. rewrite Hi.
  unfold throw. rewrite <- app_assoc. reflexivity.
Qed.

Lemma missing_internal_id_fails_scan_witness :
  fst (validateAccountOwnership env_missing_internal_id "tenant-a" "123456789012"
         sample_arn (generateExternalId None "tenant-a" "123456789012") []) = Ok true /\
  processScanRequest env_missing_internal_id request_1 []
  = (Err ("Account " ++ "123456789012" ++ " not found"),
     [] ++ [CQueryAccount "tenant-a" "123456789012";
            CUpdateStatus "system" "scan-1" "in-progress" None None;
            CQueryInternalId "tenant-a" "123456789012"]).
Proof.
  assert (Hv : fst (validateAccountOwnership env_missing_internal_id "tenant-a" "123456789012"
                 sample_arn (generateExternalId None "tenant-a" "123456789012") []) = Ok true)
    by (vm_compute; reflexivity).
  split; [exact Hv|].
  exact (missing_internal_id_fails_scan env_missing_internal_id request_1 [] Hv eq_refl eq_refl).
Defined.

(** X9 ([assumeRoleSecurely], [processScanRequest]): after the in-progress
    update and the internal-id lookup, a stored role ARN that fails the
    pattern aborts the scan with 'Invalid role ARN format' without calling
    STS; an STS rejection, or an answer without credentials ('Failed to
    assume role'), aborts it right after the AssumeRole call.  No region is
    scanned and no completion is written. *)
Theorem role_failure_fails_scan env request h aid ids :
  let pre := [CQueryAccount (tenantId request) (accountId request);
              CUpdateStatus "system" (scanId request) "in-progress" None None;
              CQueryInternalId (tenantId request) (accountId request)] in
  fst (validateAccountOwnership env (tenantId request) (accountId request)
         (roleArn request) (externalId request) h) = Ok true ->
  env_update_status env (h ++ [CQueryAccount (tenantId request) (accountId request)]) = Ok tt ->
  env_internal_ids env (h ++ [CQueryAccount (tenantId request) (accountId request);
                              CUpdateStatus "system" (scanId request) "in-progress" None None])
    (tenantId request) (accountId request) = Ok (aid :: ids) ->
  (regex_test_anchored roleArnPattern (roleArn request) = false ->
   processScanRequest env request h = (Err "Invalid role ARN format", h ++ pre)) /\
  (regex_test_anchored roleArnPattern (roleArn request) = true ->
   forall e, (env_sts env (h ++ pre) = Ok None /\ e = "Failed to assume role") \/
             env_sts env (h ++ pre) = Err e ->
   processScanRequest env request h
   = (Err e, h ++ pre ++ [CAssumeRole (roleArn request) ("EBSScanner-" ++ scanId request)
                            (externalId request) 3600 scanner_policy_actions])).
Proof.
  intros pre Hv Hu Hi. apply validated_prefix in Hv.
  assert (Hpre : forall k : string -> M unit,
    (_ <- updateScanStatus env (scanId request) "in-progress" None None ;;
     accountInternalId <- getAccountInternalId env (tenantId request) (accountId request) ;;
     k accountInternalId) (h ++ [CQueryAccount (tenantId request) (accountId request)])
    = k aid (h ++ pre)).
  { intros k. unfold updateScanStatus, getAccountInternalId, bind, perform. rewrite Hu.
    rewrite <- app_assoc. simpl app. rewrite Hi.
    unfold ret. rewrite <- app_assoc. reflexivity. }
  assert (Hp : processScanRequest env request h
    = (credentials <- assumeRoleSecurely env (roleArn request) (externalId request) (scanId request) ;;
       result <- scanRegions env credentials (tenantId request) aid (0, []) (regions request) ;;
       updateScanStatus env (scanId request) "completed" None
         (Some (completion_metrics (fst result) (snd result)))) (h ++ pre)).
  { unfold processScanRequest. unfold bind at 1. rewrite Hv. cbv beta iota.
    change (negb true) with false. cbv beta iota. apply Hpre. }
  rewrite Hp. clear Hp. split.
  - intros Hr. unfold bind at 1, assumeRoleSecurely. rewrite Hr. reflexivity.
  - intros Hr e He. unfold bind at 1, assumeRoleSecurely. rewrite Hr.
    change (negb true) with false. cbv beta iota.
    unfold bind, perform.
    destruct He as [[Hs ->]|Hs]; rewrite Hs; unfold throw; rewrite <- app_assoc; reflexivity.
Qed.

Lemma role_failure_fails_scan_witness :
  fst (validateAccountOwnership (env_sts_answers (Ok None)) (tenantId request_1) (accountId request_1)
         (roleArn request_1) (externalId request_1) []) = Ok true /\
  processScanRequest (env_sts_answers (Ok None)) request_1 []
  = (Err "Failed to assume role",
     [] ++ [CQueryAccount (tenantId request_1) (accountId request_1);
            CUpdateStatus "system" (scanId request_1) "in-progress" None None;
            CQueryInternalId (tenantId request_1) (accountId request_1)] ++
     [CAssumeRole (roleArn request_1) ("EBSScanner-" ++ scanId request_1)
        (externalId request_1) 3600 scanner_policy_actions]).
Proof.
  assert (Hv : fst (validateAccountOwnership (env_sts_answers (Ok None)) (tenantId request_1) (accountId request_1)
                 (roleArn request_1) (externalId request_1) []) = Ok true)
    by (vm_compute; reflexivity).
  assert (Hr : regex_test_anchored roleArnPattern (roleArn request_1) = true)
    by (vm_compute; reflexivity).
  split; [exact Hv|].
  destruct (role_failure_fails_scan (env_sts_answers (Ok None)) request_1 [] "acc-uuid-1" []
              Hv eq_refl eq_refl) as [_ H].
  exact (H Hr "Failed to assume role" (or_introl (conj eq_refl eq_refl))).
Defined.

Lemma Qmax_0_nonneg (x : Q) : (0 <= Qmax 0 x)%Q.
Proof. apply Q.le_max_l. Qed.

Lemma inject_Z_nonneg (n : Z) : 0 <= n -> (0 <= inject_Z n)%Q.
Proof. intros H. change 0%Q with (inject_Z 0). rewrite <- Zle_Qle. exact H. Qed.

Lemma Qplus_nonneg_compat (x y : Q) : (0 <= x)%Q -> (0 <= y)%Q -> (0 <= x + y)%Q.
Proof. intros Hx Hy. rewrite <- (Qplus_0_l 0). apply Qplus_le_compat; assumption. Qed.

(** X10 ([scanVolumesInRegion], the cost [switch]): a volume with
    nonnegative size and IOPS never gets a negative monthly cost, whatever
    its type. *)
Theorem costPerMonth_nonneg (volume : Ec2Volume) :
  0 <= or_zero (Size volume) -> 0 <= or_zero (Iops volume) -> (0 <= costPerMonth volume)%Q.
Proof.
  intros Hs Hi. apply inject_Z_nonneg in Hs, Hi.
  unfold costPerMonth. cbv zeta.
  destruct (VolumeType volume) as [t|]; [|apply Qle_refl].
  repeat match goal with |- context [if ?b then _ else _] => destruct b end;
    repeat match goal with
    | |- (0 <= 0)%Q => apply Qle_refl
    | |- (0 <= _ + _)%Q => apply Qplus_nonneg_compat
    | |- (0 <= _ * _)%Q => apply Qmult_le_0_compat
    | |- (0 <= Qmax 0 _)%Q => apply Q.le_max_l
    | |- (0 <= Z.pos _ # _)%Q => unfold Qle; simpl; lia
    | |- (0 <= inject_Z _)%Q => assumption
    end.
Qed.

Lemma costPerMonth_nonneg_witness :
  0 <= or_zero (Size (gp3_volume 3500)) /\ 0 <= or_zero (Iops (gp3_volume 3500)) /\
  (0 <= costPerMonth (gp3_volume 3500))%Q.
Proof.
  assert (H1 : 0 <= or_zero (Size (gp3_volume 3500))) by (simpl; lia).
  assert (H2 : 0 <= or_zero (Iops (gp3_volume 3500))) by (simpl; lia).
  split; [exact H1|split; [exact H2|]].
  exact (costPerMonth_nonneg (gp3_volume 3500) H1 H2).
Defined.

Lemma Qmult_le_pos_r (x y c : Q) : (x <= y)%Q -> (0 <= c)%Q -> (x * c <= y * c)%Q.
Proof.
  intros Hxy Hc. destruct (Qle_lt_or_eq 0 c Hc) as [Hlt|Heq].
  - apply Qmult_le_compat_r; assumption.
  - rewrite <- Heq, !Qmult_0_r. apply Qle_refl.
Qed.

(** X11 ([scanVolumesInRegion], the cost [switch]): for volumes of the same
    type, a size and IOPS count at least as large never give a lower
    monthly cost. *)
Theorem costPerMonth_monotone (v1 v2 : Ec2Volume) :
  VolumeType v1 = VolumeType v2 ->
  or_zero (Size v1) <= or_zero (Size v2) -> or_zero (Iops v1) <= or_zero (Iops v2) ->
  (costPerMonth v1 <= costPerMonth v2)%Q.
Proof.
  intros Ht Hs Hi. rewrite Zle_Qle in Hs, Hi.
  unfold costPerMonth. cbv zeta. rewrite Ht.
  destruct (VolumeType v2) as [t|]; [|apply Qle_refl].
  repeat match goal with |- context [if ?b then _ else _] => destruct b end;
    repeat match goal with
    | |- (0 <= 0)%Q => apply Qle_refl
    | |- (0 <= Z.pos _ # _)%Q => unfold Qle; simpl; lia
    | |- (_ + _ <= _ + _)%Q => apply Qplus_le_compat
    | |- (_ * _ <= _ * _)%Q => apply Qmult_le_pos_r
    | |- (Qmax 0 _ <= Qmax 0 _)%Q => apply Q.max_le_compat_l
    | |- (inject_Z _ <= inject_Z _)%Q => assumption
    | |- (_ - _ <= _ - _)%Q => unfold Qminus
    | |- (?x <= ?x)%Q => apply Qle_refl
    end.
Qed.

Lemma costPerMonth_monotone_witness :
  VolumeType (gp3_volume 3000) = VolumeType (gp3_volume 3500) /\
  or_zero (Size (gp3_volume 3000)) <= or_zero (Size (gp3_volume 3500)) /\
  or_zero (Iops (gp3_volume 3000)) <= or_zero (Iops (gp3_volume 3500)) /\
  (costPerMonth (gp3_volume 3000) <= costPerMonth (gp3_volume 3500))%Q.
Proof.
  assert (H1 : VolumeType (gp3_volume 3000) = VolumeType (gp3_volume 3500)) by reflexivity.
  assert (H2 : or_zero (Size (gp3_volume 3000)) <= or_zero (Size (gp3_volume 3500))) by (simpl; lia).
  assert (H3 : or_zero (Iops (gp3_volume 3000)) <= or_zero (Iops (gp3_volume 3500))) by (simpl; lia).
  split; [exact H1|split; [exact H2|split; [exact H3|]]].
  exact (costPerMonth_monotone (gp3_volume 3000) (gp3_volume 3500) H1 H2 H3).
Defined.



Lemma keys_map_update (t vid : string) (now : Z) (x : VolumeRow) (table : list VolumeRow) :
  map (fun r => (tenant_id r, volume_id r))
    (map (fun r => if row_key_is t vid r then conflict_update now x r else r) table)
  = map (fun r => (tenant_id r, volume_id r)) table.
Proof.
  induction table as [|r table IH]; simpl; auto.
  rewrite IH. destruct (row_key_is t vid r); reflexivity.
Qed.

Lemma NoDup_snoc {A} (l : list A) (x : A) : NoDup l -> ~ In x l -> NoDup (l ++ [x]).
Proof.
  induction l as [|a l IH]; intros Hnd Hx; simpl.
  - constructor; [intros []|constructor].
  - inversion Hnd as [|? ? Ha Hnd']; subst. constructor.
    + rewrite in_app_iff. intros [H|[H|[]]]; [contradiction|]. apply Hx. left. symmetry. exact H.
    + apply IH; [exact Hnd'|]. intros H. apply Hx. right. exact H.
Qed.

Lemma key_absent (t vid : string) (table : list VolumeRow) :
  existsb (row_key_is t vid) table = false ->
  ~ In (t, vid) (map (fun r => (tenant_id r, volume_id r)) table).
Proof.
  intros He Hin. apply in_map_iff in Hin as (y & Hy & Hiny).
  assert (Ey : row_key_is t vid y = true) by (apply row_key_is_spec; exact Hy).
  assert (existsb (row_key_is t vid) table = true) by (apply existsb_exists; eauto).
  congruence.
Qed.

Lemma upsert_volume_keys tenants accounts now fid t aid v table table' :
  keys_unique table ->
  upsert_volume tenants accounts now fid t aid v table = PgOk table' ->
  keys_unique table' /\
  incl (map (fun r => (tenant_id r, volume_id r)) table) (map (fun r => (tenant_id r, volume_id r)) table') /\
  (forall vid, rec_volumeId v = Some vid ->
     In (tenant_key t, volume_key vid) (map (fun r => (tenant_id r, volume_id r)) table')).
Proof.
  unfold keys_unique. intros Hu H. unfold upsert_volume in H.
  destruct (excluded_row now fid t aid v) as [x|e] eqn:Ex; cbn [pg_bind] in H; [|discriminate H].
  destruct (excluded_row_key now fid t aid v x Ex) as (Ht & vid0 & Hv0 & Hvid).
  assert (Hk : forall vid, rec_volumeId v = Some vid ->
                 (tenant_key t, volume_key vid) = (tenant_id x, volume_id x)).
  { intros vid Hv. rewrite Hv0 in Hv. injection Hv as <-. rewrite Ht, Hvid. reflexivity. }
  destruct (existsb (row_key_is (tenant_id x) (volume_id x)) table) eqn:Eb.
  - injection H as <-. rewrite keys_map_update. split; [exact Hu|split; [apply incl_refl|]].
    intros vid Hv. rewrite (Hk vid Hv).
    apply existsb_exists in Eb as (y & Hy & Ey). exact (key_in_keys _ _ table y Hy Ey).
  - destruct (existsb (fun r => String.eqb (id r) (id x)) table); [discriminate H|].
    destruct (negb (existsb (String.eqb (tenant_id x)) tenants)); [discriminate H|].
    destruct (negb (existsb (String.eqb (aws_account_id x)) accounts)); [discriminate H|].
    injection H as <-. rewrite map_app. simpl.
    split; [apply NoDup_snoc; [exact Hu|apply key_absent; exact Eb]|].
    split; [apply incl_appl, incl_refl|].
    intros vid Hv. rewrite (Hk vid Hv). apply in_or_app. right. left. reflexivity.
Qed.

Lemma upsert_volumes_keys tenants accounts now t aid vs :
  forall fids table table',
  keys_unique table -> upsert_volumes tenants accounts now fids t aid vs table = PgOk table' ->
  keys_unique table' /\
  incl (map (fun r => (tenant_id r, volume_id r)) table) (map (fun r => (tenant_id r, volume_id r)) table') /\
  (forall v vid, In v vs -> rec_volumeId v = Some vid ->
     In (tenant_key t, volume_key vid) (map (fun r => (tenant_id r, volume_id r)) table')).
Proof.
  induction vs as [|v rest IH]; intros fids table table' Hu H; cbn [upsert_volumes] in H.
  - injection H as <-. split; [exact Hu|split; [apply incl_refl|intros ? ? []]].
  - destruct (upsert_volume tenants accounts now (hd "" fids) t aid v table) as [table1|e] eqn:H1;
      [|discriminate H].
    destruct (upsert_volume_keys tenants accounts now (hd "" fids) t aid v table table1 Hu H1)
      as (Hu1 & Hi1 & Hk1).
    destruct (IH (tl fids) table1 table' Hu1 H) as (Hu2 & Hi2 & Hk2).
    split; [exact Hu2|split; [eapply incl_tran; eauto|]].
    intros w wid [<-|Hw] Hwid.
    + apply Hi2. exact (Hk1 wid Hwid).
    + exact (Hk2 w wid Hw Hwid).
Qed.

Lemma count_key_one (t vid : string) (table : list VolumeRow) :
  keys_unique table -> In (t, vid) (map (fun r => (tenant_id r, volume_id r)) table) ->
  count_key t vid table = 1%nat.
Proof.
  intros Hu Hin. apply in_map_iff in Hin as (y & Hy & Hiny).
  unfold count_key. rewrite (filter_key_unique t vid table y Hu Hiny) by (apply row_key_is_spec; exact Hy).
  reflexivity.
Qed.

(** X12 ([storeVolumes], the upsert loop): a batch that commits keeps
    [(tenant_id, volume_id)] unique, removes no row (every earlier key still
    has exactly one row), and leaves exactly one row for every stored
    record, under the tenant's canonical uuid and the volume id as the
    column stores it. *)
Theorem upsert_volumes_one_row_per_key tenants accounts now fids t aid vs table table' :
  keys_unique table -> upsert_volumes tenants accounts now fids t aid vs table = PgOk table' ->
  keys_unique table' /\
  (forall r, In r table -> count_key (tenant_id r) (volume_id r) table' = 1%nat) /\
  (forall v vid, In v vs -> rec_volumeId v = Some vid ->
     count_key (tenant_key t) (volume_key vid) table' = 1%nat).
Proof.
  intros Hu H.
  destruct (upsert_volumes_keys tenants accounts now t aid vs fids table table' Hu H) as (Hu' & Hi & Hk).
  split; [exact Hu'|split].
  - intros r Hr. apply count_key_one; [exact Hu'|]. apply Hi.
    apply (in_map (fun r => (tenant_id r, volume_id r))). exact Hr.
  - intros v vid Hv Hvid. apply count_key_one; [exact Hu'|]. exact (Hk v vid Hv Hvid).
Qed.

Lemma filter_other_tenant_update (t vid : string) (now : Z) (x : VolumeRow) (table : list VolumeRow) :
  filter (fun r => negb (String.eqb (tenant_id r) t))
    (map (fun r => if row_key_is t vid r then conflict_update now x r else r) table)
  = filter (fun r => negb (String.eqb (tenant_id r) t)) table.
Proof.
  induction table as [|r table IH]; simpl; auto.
  destruct (row_key_is t vid r) eqn:E; simpl; rewrite IH; auto.
  unfold row_key_is in E. apply andb_true_iff in E as [E _]. rewrite E. reflexivity.
Qed.

(** X13 ([storeVolumes], the upsert loop): a batch stored for one tenant
    leaves the rows of every other tenant (every row whose tenant is not the
    canonical uuid of the batch's tenant) exactly as they were, in the same
    order, even when they share a volume id. *)
Theorem upsert_volumes_other_tenants tenants accounts now fids t aid vs table table' :
  upsert_volumes tenants accounts now fids t aid vs table = PgOk table' ->
  filter (fun r => negb (String.eqb (tenant_id r) (tenant_key t))) table'
  = filter (fun r => negb (String.eqb (tenant_id r) (tenant_key t))) table.
Proof.
  revert fids table. induction vs as [|v rest IH]; intros fids table H; cbn [upsert_volumes] in H.
  - injection H as <-. reflexivity.
  - destruct (upsert_volume tenants accounts now (hd "" fids) t aid v table) as [table1|e] eqn:H1;
      [|discriminate H].
    rewrite (IH _ _ H). unfold upsert_volume in H1.
    destruct (excluded_row now (hd "" fids) t aid v) as [x|e] eqn:Ex; cbn [pg_bind] in H1;
      [|discriminate H1].
    destruct (excluded_row_key _ _ _ _ _ _ Ex) as (Ht & _). rewrite <- Ht.
    destruct (existsb (row_key_is (tenant_id x) (volume_id x)) table).
    + injection H1 as <-. apply filter_other_tenant_update.
    + destruct (existsb (fun r => String.eqb (id r) (id x)) table); [discriminate H1|].
      destruct (negb (existsb (String.eqb (tenant_id x)) tenants)); [discriminate H1|].
      destruct (negb (existsb (String.eqb (aws_account_id x)) accounts)); [discriminate H1|].
      injection H1 as <-. rewrite filter_app. simpl. rewrite String.eqb_refl. simpl. apply app_nil_r.
Qed.

(** Errors other than NOT NULL violations. *)
Lemma pg_assert_nn b e0 e :
  is_not_null e0 = false -> pg_assert b e0 = PgErr e -> is_not_null e = false.
Proof.
  unfold pg_assert. intros H0 H. destruct b; [discriminate H|]. injection H as <-. exact H0.
Qed.

Lemma bind_text_nn i s e : bind_text i s = PgErr e -> is_not_null e = false.
Proof. unfold bind_text. destruct s as [s|]; [|discriminate]. apply pg_assert_nn. reflexivity. Qed.

Lemma bind_uuid_nn i s e : bind_uuid i s = PgErr e -> is_not_null e = false.
Proof.
  unfold bind_uuid, pg_bind. destruct (bind_text i (Some s)) eqn:E.
  - destruct (uuid_in s); [discriminate|]. intros H. injection H as <-. reflexivity.
  - intros H. injection H as <-. exact (bind_text_nn _ _ _ E).
Qed.

Lemma bind_int4_nn i n e : bind_int4 i n = PgErr e -> is_not_null e = false.
Proof. unfold bind_int4. destruct n; [apply pg_assert_nn; reflexivity|discriminate]. Qed.

Lemma bind_timestamp_nn i ms e : bind_timestamp i ms = PgErr e -> is_not_null e = false.
Proof.
  unfold bind_timestamp. destruct ms as [ms|]; [|discriminate].
  destruct (8640000000000000 <? Z.abs ms); [intros H; injection H as <-; reflexivity|].
  apply pg_assert_nn. reflexivity.
Qed.

Lemma bind_tags_nn tags e : bind_tags tags = PgErr e -> is_not_null e = false.
Proof.
  unfold bind_tags, pg_bind. cbv zeta.
  destruct (pg_assert (forallb (utf8_valid true) _) (InvalidByteSequence 18)) eqn:E.
  - apply pg_assert_nn. reflexivity.
  - intros H. injection H as <-. exact (pg_assert_nn _ (InvalidByteSequence 18) _ eq_refl E).
Qed.

Lemma varchar_coerce_nn n s e : varchar_coerce n s = PgErr e -> is_not_null e = false.
Proof.
  unfold varchar_coerce. cbv zeta. intros H.
  destruct (length (bytes_of s) <=? n)%nat; [discriminate H|].
  destruct (forallb _ _); [discriminate H|]. injection H as <-. reflexivity.
Qed.

Lemma varchar_opt_nn n s e : varchar_opt n s = PgErr e -> is_not_null e = false.
Proof.
  unfold varchar_opt, pg_bind. destruct s as [s|]; [|discriminate].
  destruct (varchar_coerce n s) eqn:E; [discriminate|].
  intros H. injection H as <-. exact (varchar_coerce_nn _ _ _ E).
Qed.

Lemma numeric_10_2_nn q e : numeric_10_2 q = PgErr e -> is_not_null e = false.
Proof.
  unfold numeric_10_2. cbv zeta. intros H.
  destruct (_ <? _); [discriminate H|]. injection H as <-. reflexivity.
Qed.

Create HintDb pg_nn.
#[local] Hint Resolve bind_text_nn bind_uuid_nn bind_int4_nn bind_timestamp_nn bind_tags_nn
  varchar_coerce_nn varchar_opt_nn numeric_10_2_nn : pg_nn.

(** Inverting a chain of [let?] that failed with an error other than a
    NOT NULL violation. *)
Ltac pg_err_steps H :=
  repeat match type of H with
  | pg_bind ?m _ = PgErr _ =>
      let E := fresh "E" in
      destruct m eqn:E; cbn [pg_bind] in H; [|injection H as <-; eauto with pg_nn]
  end.

Lemma bind_params_nn t aid v e : bind_params t aid v = PgErr e -> is_not_null e = false.
Proof. unfold bind_params. intros H. pg_err_steps H. discriminate H. Qed.

Lemma coerce_columns_nn v e : coerce_columns v = PgErr e -> is_not_null e = false.
Proof. unfold coerce_columns. intros H. pg_err_steps H. discriminate H. Qed.

Lemma excluded_row_not_null now fid t aid v e :
  excluded_row now fid t aid v = PgErr e -> is_not_null e = true ->
  e = NotNullViolation "volume_id" /\ rec_volumeId v = None.
Proof.
  unfold excluded_row. intros H Hn.
  destruct (bind_params t aid v) as [ids|e0] eqn:E1; cbn [pg_bind] in H;
    [|injection H as <-; rewrite (bind_params_nn _ _ _ _ E1) in Hn; discriminate Hn].
  destruct (bind_timestamp 19 (Some (rec_scannedAt v))) as [u|e0] eqn:E2; cbn [pg_bind] in H;
    [|injection H as <-; rewrite (bind_timestamp_nn _ _ _ E2) in Hn; discriminate Hn].
  destruct (coerce_columns v) as [c|e0] eqn:E3; cbn [pg_bind] in H;
    [|injection H as <-; rewrite (coerce_columns_nn _ _ E3) in Hn; discriminate Hn].
  destruct (c_volume_id c) as [vid|] eqn:Ev; [discriminate H|].
  injection H as <-. split; [reflexivity|].
  destruct (coerce_columns_ok v c E3) as (Hid & _). rewrite Ev in Hid.
  exact (varchar_opt_none _ _ Hid).
Qed.

Lemma upsert_volume_not_null tenants accounts now fid t aid v table e :
  upsert_volume tenants accounts now fid t aid v table = PgErr e -> is_not_null e = true ->
  e = NotNullViolation "volume_id" /\ rec_volumeId v = None.
Proof.
  unfold upsert_volume. intros H Hn.
  destruct (excluded_row now fid t aid v) as [x|e0] eqn:Ex; cbn [pg_bind] in H.
  - destruct (existsb (row_key_is (tenant_id x) (volume_id x)) table); [discriminate H|].
    destruct (existsb (fun r => String.eqb (id r) (id x)) table);
      [injection H as <-; cbn in Hn; discriminate Hn|].
    destruct (negb (existsb (String.eqb (tenant_id x)) tenants));
      [injection H as <-; cbn in Hn; discriminate Hn|].
    destruct (negb (existsb (String.eqb (aws_account_id x)) accounts));
      [injection H as <-; cbn in Hn; discriminate Hn|].
    discriminate H.
  - injection H as <-. exact (excluded_row_not_null now fid t aid v e0 Ex Hn).
Qed.

Lemma upsert_volume_has_id tenants accounts now fid t aid v table table' :
  upsert_volume tenants accounts now fid t aid v table = PgOk table' -> rec_volumeId v <> None.
Proof.
  unfold upsert_volume. intros H.
  destruct (excluded_row now fid t aid v) as [x|e] eqn:Ex; cbn [pg_bind] in H; [|discriminate H].
  destruct (excluded_row_key now fid t aid v x Ex) as (_ & vid & Hv & _). rewrite Hv. discriminate.
Qed.

(** X14 ([storeVolumes], the upsert loop): a batch that commits has a
    volume id in every record, so a batch holding a record without one
    fails; and the only NOT NULL violation a batch can raise is PostgreSQL's
    [null value in column "volume_id" of relation "ebs_volumes" violates
    not-null constraint], for a record without volume id. *)
Theorem upsert_volumes_needs_every_id tenants accounts now fids t aid vs table :
  (forall table', upsert_volumes tenants accounts now fids t aid vs table = PgOk table' ->
     Forall (fun v => rec_volumeId v <> None) vs) /\
  (forall e, upsert_volumes tenants accounts now fids t aid vs table = PgErr e ->
     is_not_null e = true ->
     e = NotNullViolation "volume_id" /\ Exists (fun v => rec_volumeId v = None) vs).
Proof.
  revert fids table. induction vs as [|v rest IH]; intros fids table; cbn [upsert_volumes].
  - split; [intros; constructor|intros e H; discriminate H].
  - destruct (upsert_volume tenants accounts now (hd "" fids) t aid v table) as [table1|e0] eqn:H1.
    + destruct (IH (tl fids) table1) as (Hok & Herr). split.
      * intros table' H. constructor; [exact (upsert_volume_has_id _ _ _ _ _ _ _ _ _ H1)|exact (Hok table' H)].
      * intros e H Hn. destruct (Herr e H Hn) as (He & Hex). split; [exact He|]. right. exact Hex.
    + split; [intros table' H; discriminate H|].
      intros e H Hn. injection H as <-.
      destruct (upsert_volume_not_null _ _ _ _ _ _ _ _ _ H1 Hn) as (He & Hv).
      split; [exact He|]. left. exact Hv.
Qed.

Lemma upsert_volumes_one_row_per_key_witness :
  keys_unique earlier_table /\
  upsert_volumes known_tenants known_accounts sample_now rescan_ids tenant_a account_a
    rescan_records earlier_table = PgOk rescanned_table /\
  keys_unique rescanned_table /\
  (forall r, In r earlier_table -> count_key (tenant_id r) (volume_id r) rescanned_table = 1%nat) /\
  (forall v vid, In v rescan_records -> rec_volumeId v = Some vid ->
     count_key (tenant_key tenant_a) (volume_key vid) rescanned_table = 1%nat).
Proof.
  assert (Hu : keys_unique earlier_table).
  { vm_compute. constructor; [intros [H|[]]; discriminate H|constructor; [intros []|constructor]]. }
  assert (H : upsert_volumes known_tenants known_accounts sample_now rescan_ids tenant_a account_a
                rescan_records earlier_table = PgOk rescanned_table) by (vm_compute; reflexivity).
  split; [exact Hu|split; [exact H|]].
  exact (upsert_volumes_one_row_per_key known_tenants known_accounts sample_now _ _ _ _ _ _ Hu H).
Defined.

Lemma upsert_volumes_other_tenants_witness :
  upsert_volumes known_tenants known_accounts sample_now rescan_ids tenant_a account_a
    rescan_records earlier_table = PgOk rescanned_table /\
  filter (fun r => negb (String.eqb (tenant_id r) (tenant_key tenant_a))) rescanned_table
  = filter (fun r => negb (String.eqb (tenant_id r) (tenant_key tenant_a))) earlier_table.
Proof.
  assert (H : upsert_volumes known_tenants known_accounts sample_now rescan_ids tenant_a account_a
                rescan_records earlier_table = PgOk rescanned_table) by (vm_compute; reflexivity).
  split; [exact H|].
  exact (upsert_volumes_other_tenants known_tenants known_accounts sample_now _ _ _ _ _ _ H).
Defined.

(** A batch whose second record has no volume id fails with the NOT NULL
    violation of [volume_id]. *)
Lemma upsert_volumes_needs_every_id_witness :
  upsert_volumes known_tenants known_accounts sample_now rescan_ids tenant_a account_a
    [sample_record; idless_record] earlier_table = PgErr (NotNullViolation "volume_id") /\
  Exists (fun v => rec_volumeId v = None) [sample_record; idless_record].
Proof.
  assert (H : upsert_volumes known_tenants known_accounts sample_now rescan_ids tenant_a account_a
                [sample_record; idless_record] earlier_table = PgErr (NotNullViolation "volume_id"))
    by (vm_compute; reflexivity).
  split; [exact H|].
  destruct (upsert_volumes_needs_every_id known_tenants known_accounts sample_now rescan_ids
              tenant_a account_a [sample_record; idless_record] earlier_table) as [_ P].
  exact (proj2 (P _ H eq_refl)).
Defined.
